(** * rpp containers: a binary min-heap and a Robin Hood hash map

    A shallow embedding of [rpp/heap.h] and [rpp/map.h].  Machine integers
    ([u64]) are integers in [Z] with the wrap-around of every arithmetic
    operation written out; a buffer obtained from the allocator is a list of
    cells living in a store indexed by address; the bodies of the unbounded
    loops are recursive functions over an explicit iteration budget. *)

From Stdlib Require Import ZArith Lia List Bool.
From stdpp Require Import base option list gmap strings.

Local Open Scope Z_scope.

(** ** Machine integers *)

Definition u64 (x : Z) : Z := x mod 2 ^ 64.

Definition is_u64 (x : Z) : Prop := 0 <= x < 2 ^ 64.

(** Modelled from the spec: [Math::ctlz] is not part of the sources; the spec
    describes it as the count of leading zero bits of a 64-bit value. *)
Definition ctlz (x : Z) : Z :=
  if x <=? 0 then 64 else 63 - Z.log2 x.

(** Modelled from the spec: [Math::next_pow2] is not part of the sources; the
    spec describes it as rounding up to the next power of two. *)
Definition next_pow2 (x : Z) : Z := u64 (2 ^ Z.log2_up x).

(** ** Outcomes of a call *)

Inductive result (A : Type) : Type :=
| Done (a : A)   (* the call returned *)
| Abort          (* [die] or a failed [assert]: the process is terminated *)
| Fault          (* undefined behaviour: an access outside a live buffer or
                    to storage that holds no constructed object *)
| Timeout.       (* the iteration budget ran out before the loop returned *)

Arguments Done {A} a.
Arguments Abort {A}.
Arguments Fault {A}.
Arguments Timeout {A}.

Definition rbind {A B} (r : result A) (k : A → result B) : result B :=
  match r with
  | Done a => k a
  | Abort => Abort
  | Fault => Fault
  | Timeout => Timeout
  end.

Notation "'let!' x ':=' e 'in' k" := (rbind e (fun x => k))
  (at level 10, x pattern, e at level 100, k at level 200).

(** ** Memory: buffers handed out by the allocator *)

(** A store maps the address of every live buffer to its cells.  Address [0]
    is the null pointer and never holds a buffer. *)
Abbreviation store C := (gmap Z (list C)).

(** The [Allocator] capability: which address [alloc] returns for a request
    of [n] cells and what the returned memory contains. *)
Class Allocator (C : Type) := {
  alloc_addr : store C → Z → Z;
  alloc_cells : store C → Z → list C;
  alloc_addr_fresh : ∀ σ n, σ !! alloc_addr σ n = None;
  alloc_addr_nonnull : ∀ σ n, alloc_addr σ n ≠ 0;
  alloc_cells_length : ∀ σ n, length (alloc_cells σ n) = Z.to_nat n
}.

(** Computations over the store. *)
Definition M (C A : Type) : Type := store C → result (A * store C).

Definition ret {C A} (a : A) : M C A := λ σ, Done (a, σ).

Definition bind {C A B} (m : M C A) (k : A → M C B) : M C B :=
  λ σ, match m σ with
       | Done (a, σ') => k a σ'
       | Abort => Abort
       | Fault => Fault
       | Timeout => Timeout
       end.

Definition lift {C A} (r : result A) : M C A :=
  λ σ, match r with
       | Done a => Done (a, σ)
       | Abort => Abort
       | Fault => Fault
       | Timeout => Timeout
       end.

Notation "'let*' x ':=' e 'in' k" := (bind e (fun x => k))
  (at level 10, x pattern, e at level 100, k at level 200).

Section memory.
Context {C : Type} `{!Allocator C}.

(** [A::alloc(n * sizeof(cell))] *)
Definition alloc (n : Z) : M C Z :=
  λ σ, let p := alloc_addr σ n in Done (p, <[p := alloc_cells σ n]> σ).

(** [A::free(p)]; freeing the null pointer does nothing. *)
Definition free (p : Z) : M C unit :=
  λ σ, Done (tt, delete p σ).

(** The cells behind a pointer; dereferencing a pointer to no live buffer is
    undefined. *)
Definition load (p : Z) : M C (list C) :=
  λ σ, match σ !! p with
       | Some cells => Done (cells, σ)
       | None => Fault
       end.

Definition save (p : Z) (cells : list C) : M C unit :=
  λ σ, match σ !! p with
       | Some _ => Done (tt, <[p := cells]> σ)
       | None => Fault
       end.
End memory.

(** Reading and writing one cell of a buffer. *)
Definition cell_at {C} (cells : list C) (i : Z) : result C :=
  if (0 <=? i) then
    match cells !! Z.to_nat i with
    | Some c => Done c
    | None => Fault
    end
  else Fault.

Definition cell_set {C} (cells : list C) (i : Z) (c : C) : result (list C) :=
  if (0 <=? i) && (i <? Z.of_nat (length cells))
  then Done (<[Z.to_nat i := c]> cells)
  else Fault.

Lemma u64_small x : 0 <= x < 2 ^ 64 → u64 x = x.
Proof. intros. unfold u64. by apply Z.mod_small. Qed.

(** ** A concrete allocator *)

(** An address above every live buffer. *)
Definition fresh_addr {C} (σ : store C) : Z :=
  1 + map_fold (λ p _ acc, Z.max p acc) 0 σ.

Lemma fresh_addr_above {C} (σ : store C) p :
  is_Some (σ !! p) → p < fresh_addr σ.
Proof.
  unfold fresh_addr. intros Hs.
  cut (p <= map_fold (λ p (_ : list C) acc, Z.max p acc) 0 σ); [lia|].
  revert Hs.
  apply (map_fold_weak_ind (λ acc (m : store C), is_Some (m !! p) → p <= acc)).
  - rewrite lookup_empty. by intros [? ?].
  - intros q c m acc Hq IH. rewrite lookup_insert. case_decide; subst; [lia|].
    intros Hp. apply IH in Hp. lia.
Qed.

Lemma fresh_addr_pos {C} (σ : store C) : 0 < fresh_addr σ.
Proof.
  unfold fresh_addr.
  cut (0 <= map_fold (λ p (_ : list C) acc, Z.max p acc) 0 σ); [lia|].
  apply (map_fold_weak_ind (λ acc (m : store C), 0 <= acc)); [lia|].
  intros. lia.
Qed.

Lemma fresh_addr_fresh {C} (σ : store C) : σ !! fresh_addr σ = None.
Proof.
  destruct (σ !! fresh_addr σ) eqn:H; [|done].
  pose proof (fresh_addr_above σ (fresh_addr σ) ltac:(eauto)). lia.
Qed.

Lemma fresh_addr_nonnull {C} (σ : store C) : fresh_addr σ ≠ 0.
Proof. pose proof (fresh_addr_pos σ). lia. Qed.

(** Every request is served at a fresh address with memory filled with
    copies of [fill]. *)
Definition filling_allocator {C} (fill : C) : Allocator C :=
  {| alloc_addr σ _ := fresh_addr σ;
     alloc_cells _ n := replicate (Z.to_nat n) fill;
     alloc_addr_fresh σ _ := fresh_addr_fresh σ;
     alloc_addr_nonnull σ _ := fresh_addr_nonnull σ;
     alloc_cells_length _ n := length_replicate (Z.to_nat n) fill |}.

(** * Heap *)

Module Heap.

(** The three fields of [Heap<T, A>]; [data_] is the address of the buffer. *)
Record Heap : Type := mkHeap { data_ : Z; length_ : Z; capacity_ : Z }.

(** [Heap() = default] *)
Definition empty_heap : Heap := mkHeap 0 0 0.

Section heap.
Context {T : Type}.
(** [operator<] of the [Ordered] capability. *)
Variable lt : T → T → bool.
(** [Must_Destruct<T>] *)
Variable Must_Destruct : bool.
Context `{!Allocator (option T)}.

(** A cell of the buffer holds a constructed element or raw memory. *)
Definition elem_at (data : list (option T)) (i : Z) : result T :=
  let! c := cell_at data i in
  match c with
  | Some x => Done x
  | None => Fault
  end.

(** [explicit Heap(u64 capacity)] *)
Definition new (capacity : Z) : M (option T) Heap :=
  let* p := alloc capacity in
  ret (mkHeap p 0 capacity).

Definition empty (h : Heap) : bool := length_ h =? 0.
Definition full (h : Heap) : bool := length_ h =? capacity_ h.
Definition length (h : Heap) : Z := length_ h.

(** The first [n] cells of [dst] are overwritten with those of [src]
    ([memcpy], or one placement-new per element). *)
Definition copy_prefix (n : Z) (src dst : list (option T)) : result (list (option T)) :=
  if (n <=? Z.of_nat (List.length src)) && (n <=? Z.of_nat (List.length dst))
  then Done (take (Z.to_nat n) src ++ drop (Z.to_nat n) dst)
  else Fault.

(** The live prefix of the buffer a heap points to; nothing is read when
    the heap holds no element. *)
Definition load_live (h : Heap) : M (option T) (list (option T)) :=
  if length_ h =? 0 then ret [] else load (data_ h).

(** [v.~T()] for every element of the live prefix. *)
Definition destroy_live (h : Heap) : M (option T) unit :=
  if Must_Destruct && negb (length_ h =? 0) then
    let* data := load (data_ h) in
    let n := Z.to_nat (length_ h) in
    if (length_ h <=? Z.of_nat (List.length data))
    then save (data_ h) (replicate n None ++ drop n data)
    else lift Fault
  else ret tt.

(** [~Heap()] *)
Definition destructor (h : Heap) : M (option T) Heap :=
  let* _ := destroy_live h in
  let* _ := free (data_ h) in
  ret (mkHeap 0 0 0).

(** [Heap(Heap&& src)]: the new heap and what is left in [src]. *)
Definition move_construct (src : Heap) : Heap * Heap :=
  (mkHeap (data_ src) (length_ src) (capacity_ src), mkHeap 0 0 0).

Definition clone (h : Heap) : M (option T) Heap :=
  let* p := alloc (capacity_ h) in
  let* src := load_live h in
  let* dst := load p in
  let* dst := lift (copy_prefix (length_ h) src dst) in
  let* _ := save p dst in
  ret (mkHeap p (length_ h) (capacity_ h)).

Definition reserve (h : Heap) (new_capacity : Z) : M (option T) Heap :=
  if new_capacity <=? capacity_ h then ret h else
  let* new_data := alloc new_capacity in
  let* src := load_live h in
  let* dst := load new_data in
  let* dst := lift (copy_prefix (length_ h) src dst) in
  let* _ := save new_data dst in
  let* _ := free (data_ h) in
  ret (mkHeap new_data (length_ h) new_capacity).

Definition grow (h : Heap) : M (option T) Heap :=
  let new_capacity := if capacity_ h =? 0 then 8 else u64 (2 * capacity_ h) in
  reserve h new_capacity.

Definition clear (h : Heap) : M (option T) Heap :=
  let* _ := destroy_live h in
  ret (mkHeap (data_ h) 0 (capacity_ h)).

Definition swap (data : list (option T)) (a b : Z) : result (list (option T)) :=
  let! temp := elem_at data a in
  let! y := elem_at data b in
  let! data := cell_set data a (Some y) in
  cell_set data b (Some temp).

Fixpoint reheap_up (fuel : nat) (data : list (option T)) (idx : Z)
  : result (list (option T)) :=
  match fuel with
  | O => Timeout
  | S fuel =>
      if idx =? 0 then Done data else
      let parent_idx := (idx - 1) / 2 in
      let! elem := elem_at data idx in
      let! parent := elem_at data parent_idx in
      if lt elem parent then
        let! data := swap data idx parent_idx in
        reheap_up fuel data parent_idx
      else Done data
  end.

Fixpoint reheap_down (fuel : nat) (length_ : Z) (data : list (option T)) (idx : Z)
  : result (list (option T)) :=
  match fuel with
  | O => Timeout
  | S fuel =>
      let left := u64 (idx * 2 + 1) in
      let right := u64 (left + 1) in
      if right <? length_ then
        let! parent := elem_at data idx in
        let! lchild := elem_at data left in
        let! rchild := elem_at data right in
        if lt lchild parent && negb (lt rchild lchild) then
          let! data := swap data idx left in
          reheap_down fuel length_ data left
        else if lt rchild parent && negb (lt lchild rchild) then
          let! data := swap data idx right in
          reheap_down fuel length_ data right
        else Done data
      else if left <? length_ then
        let! parent := elem_at data idx in
        let! lchild := elem_at data left in
        if lt lchild parent then swap data idx left else Done data
      else Done data
  end.

Definition push (fuel : nat) (h : Heap) (value : T) : M (option T) Heap :=
  let* h := (if full h then grow h else ret h) in
  let* data := load (data_ h) in
  let* data := lift (cell_set data (length_ h) (Some value)) in
  let h := mkHeap (data_ h) (u64 (length_ h + 1)) (capacity_ h) in
  let* data := lift (reheap_up fuel data (u64 (length_ h - 1))) in
  let* _ := save (data_ h) data in
  ret h.

Definition pop (fuel : nat) (h : Heap) : M (option T) Heap :=
  if negb (0 <? length_ h) then lift Abort else
  let* data := load (data_ h) in
  let* data := lift (if Must_Destruct then cell_set data 0 None else Done data) in
  let h := mkHeap (data_ h) (u64 (length_ h - 1)) (capacity_ h) in
  if 0 <? length_ h then
    let* last := lift (elem_at data (length_ h)) in
    let* data := lift (cell_set data 0 (Some last)) in
    let* data := lift (reheap_down fuel (length_ h) data 0) in
    let* _ := save (data_ h) data in
    ret h
  else
    let* _ := save (data_ h) data in
    ret h.

Definition top (h : Heap) : M (option T) T :=
  let* data := load (data_ h) in
  lift (elem_at data 0).

(** ** Reading the buffer through integer indices *)

Definition val (data : list (option T)) (i : Z) : option T :=
  if 0 <=? i then mjoin (data !! Z.to_nat i) else None.

Lemma elem_at_val data i :
  elem_at data i = match val data i with Some x => Done x | None => Fault end.
Proof.
  unfold elem_at, cell_at, val. destruct (0 <=? i); [|done].
  destruct (data !! Z.to_nat i) as [[x|]|]; done.
Qed.

Lemma val_Some_lt data i x :
  val data i = Some x → 0 <= i < Z.of_nat (List.length data).
Proof.
  unfold val. destruct (0 <=? i) eqn:Hi; [|done].
  destruct (data !! Z.to_nat i) as [c|] eqn:Hl; [|done].
  intros _. apply lookup_lt_Some in Hl. lia.
Qed.

Lemma val_insert data i c j :
  0 <= i < Z.of_nat (List.length data) →
  val (<[Z.to_nat i := c]> data) j = if j =? i then c else val data j.
Proof.
  intros Hi. unfold val. destruct (Z.eqb_spec j i) as [->|Hne].
  - replace (0 <=? i) with true by lia.
    rewrite list_lookup_insert_eq by lia. done.
  - destruct (0 <=? j) eqn:Hj; [|done].
    rewrite list_lookup_insert_ne by lia. done.
Qed.

Lemma cell_set_Done (data : list (option T)) i c :
  0 <= i < Z.of_nat (List.length data) →
  cell_set data i c = Done (<[Z.to_nat i := c]> data).
Proof.
  intros Hi. unfold cell_set.
  replace (0 <=? i) with true by lia.
  replace (i <? Z.of_nat (List.length data)) with true by lia. done.
Qed.

(** The buffer after exchanging the elements at [a] and [b]. *)
Definition swapped (data : list (option T)) (a b : Z) : list (option T) :=
  <[Z.to_nat b := val data a]> (<[Z.to_nat a := val data b]> data).

Lemma swap_Done data a b x y :
  val data a = Some x → val data b = Some y →
  swap data a b = Done (swapped data a b).
Proof.
  intros Ha Hb. unfold swap, swapped. rewrite !elem_at_val, Ha, Hb. simpl.
  pose proof (val_Some_lt _ _ _ Ha). pose proof (val_Some_lt _ _ _ Hb).
  rewrite cell_set_Done by lia. simpl.
  rewrite cell_set_Done by (rewrite length_insert; lia). done.
Qed.

Lemma length_swapped data a b : List.length (swapped data a b) = List.length data.
Proof. unfold swapped. by rewrite !length_insert. Qed.

Lemma val_swapped data a b j :
  0 <= a < Z.of_nat (List.length data) →
  0 <= b < Z.of_nat (List.length data) →
  val (swapped data a b) j =
    if j =? b then val data a else if j =? a then val data b else val data j.
Proof.
  intros Ha Hb. unfold swapped.
  rewrite val_insert by (rewrite length_insert; lia).
  destruct (j =? b); [done|]. by rewrite val_insert.
Qed.

Lemma lookup_val data i x :
  val data i = Some x → data !! Z.to_nat i = Some (val data i).
Proof.
  unfold val. destruct (0 <=? i); [|done].
  destruct (data !! Z.to_nat i) as [[?|]|]; done.
Qed.

Lemma swapped_Permutation data a b n x y :
  val data a = Some x → val data b = Some y → a < n → b < n →
  take (Z.to_nat n) (swapped data a b) ≡ₚ take (Z.to_nat n) data.
Proof.
  intros Ha Hb Han Hbn. unfold swapped.
  pose proof (val_Some_lt _ _ _ Ha). pose proof (val_Some_lt _ _ _ Hb).
  rewrite !take_insert_lt by lia.
  apply Permutation_insert_swap; rewrite lookup_take_lt by lia.
  - eapply lookup_val; eauto.
  - eapply lookup_val; eauto.
Qed.

(** ** The heap order *)

(** The less-than of [T] is a strict weak order; [le x y] reads [x <= y]. *)
Hypothesis lt_asym : ∀ x y, lt x y = true → lt y x = false.
Hypothesis le_trans : ∀ x y z, lt y x = false → lt z y = false → lt z x = false.

Lemma lt_trans x y z : lt x y = true → lt y z = true → lt x z = true.
Proof.
  intros Hxy Hyz. destruct (lt x z) eqn:Hxz; [done|].
  apply lt_asym in Hxy. pose proof (le_trans _ _ _ Hxz Hxy). congruence.
Qed.

(** [data[p] <= data[c]], for the cells that hold an element. *)
Definition vle (data : list (option T)) (p c : Z) : Prop :=
  ∀ x y, val data p = Some x → val data c = Some y → lt y x = false.

Definition parent (i : Z) : Z := (i - 1) / 2.

(** The structural invariant over the live prefix [[0, n)]. *)
Definition heap_ordered (data : list (option T)) (n : Z) : Prop :=
  ∀ i, 1 <= i < n → vle data (parent i) i.

Definition filled (data : list (option T)) (n : Z) : Prop :=
  ∀ i, 0 <= i < n → is_Some (val data i).

(** While an element sifts up from [idx], only the pair ([parent idx], [idx])
    may be out of order, and the children of [idx] respect its parent. *)
Definition up_inv (data : list (option T)) (n idx : Z) : Prop :=
  (∀ i, 1 <= i < n → i ≠ idx → vle data (parent i) i) ∧
  (1 <= idx → ∀ c, 1 <= c < n → parent c = idx → vle data (parent idx) c).

(** While an element sifts down from [idx], only the pairs ([idx], child) may
    be out of order, and the children of [idx] respect its parent. *)
Definition down_inv (data : list (option T)) (n idx : Z) : Prop :=
  (∀ i, 1 <= i < n → parent i ≠ idx → vle data (parent i) i) ∧
  (1 <= idx → ∀ c, 1 <= c < n → parent c = idx → vle data (parent idx) c).

Lemma filled_swapped data n a b :
  Z.of_nat (List.length data) >= n → 0 <= a < n → 0 <= b < n →
  filled data n → filled (swapped data a b) n.
Proof.
  intros Hn Ha Hb Hf i Hi. rewrite val_swapped by lia.
  destruct (i =? b); [apply Hf; lia|]. destruct (i =? a); apply Hf; lia.
Qed.

Lemma parent_bounds i : 1 <= i → 2 * parent i + 1 <= i <= 2 * parent i + 2.
Proof. intros Hi. unfold parent. Z.div_mod_to_equations. lia. Qed.

(** Collects the bounds of every [parent i] in sight, after which [lia]
    decides relations between indices. *)
Local Ltac parent_facts :=
  repeat match goal with
  | |- context [parent ?i] =>
      lazymatch goal with
      | _ : 2 * parent i + 1 <= i <= 2 * parent i + 2 |- _ => fail
      | _ => assert (2 * parent i + 1 <= i <= 2 * parent i + 2) by (apply parent_bounds; lia)
      end
  | _ : context [parent ?i] |- _ =>
      lazymatch goal with
      | _ : 2 * parent i + 1 <= i <= 2 * parent i + 2 |- _ => fail
      | _ => assert (2 * parent i + 1 <= i <= 2 * parent i + 2) by (apply parent_bounds; lia)
      end
  end.

(** Resolves the index tests left by [val_swapped]. *)
Local Ltac eqb_lia :=
  repeat match goal with
  | |- context [?a =? ?b] =>
      first [ replace (a =? b) with true by lia | replace (a =? b) with false by lia ]
  | H : context [?a =? ?b] |- _ =>
      first [ replace (a =? b) with true in H by lia | replace (a =? b) with false in H by lia ]
  end.

Local Ltac val_swap :=
  parent_facts;
  repeat match goal with
  | H : context [val (swapped _ _ _) _] |- _ => rewrite val_swapped in H by lia
  | |- context [val (swapped _ _ _) _] => rewrite val_swapped by lia
  end;
  eqb_lia.

Lemma reheap_up_spec fuel : ∀ data n idx,
  n <= Z.of_nat (List.length data) → filled data n → 0 <= idx < n →
  (Z.to_nat idx < fuel)%nat → up_inv data n idx →
  ∃ data', reheap_up fuel data idx = Done data' ∧
    heap_ordered data' n ∧ filled data' n ∧
    List.length data' = List.length data ∧
    take (Z.to_nat n) data' ≡ₚ take (Z.to_nat n) data ∧
    drop (Z.to_nat n) data' = drop (Z.to_nat n) data.
Proof.
  induction fuel as [|fuel IH]; intros data n idx Hlen Hf Hidx Hfuel [Hord Hgp]; [lia|].
  simpl. destruct (Z.eqb_spec idx 0) as [->|Hnz].
  { exists data. split_and!; try done. intros i Hi. apply Hord; lia. }
  fold (parent idx). pose proof (parent_bounds idx ltac:(lia)) as Hp.
  destruct (Hf idx) as [e He]; [lia|]. destruct (Hf (parent idx)) as [q Hq]; [lia|].
  rewrite !elem_at_val, He, Hq. simpl.
  destruct (lt e q) eqn:Hlt.
  - rewrite (swap_Done _ _ _ _ _ He Hq). simpl.
    destruct (IH (swapped data idx (parent idx)) n (parent idx)) as (data' & -> & ? & ? & Hl & Hperm & Hdrop).
    + rewrite length_swapped. lia.
    + apply filled_swapped; [lia..|done].
    + lia.
    + lia.
    + split.
      * intros i Hi Hne x y. destruct (Z.eq_dec i idx) as [->|Hi'].
        { val_swap. intros; simplify_eq. by apply lt_asym. }
        destruct (Z.eq_dec (parent i) idx) as [Hpi|Hpi].
        { val_swap. intros Hx Hy. eapply (Hgp ltac:(lia) i); eauto. }
        destruct (Z.eq_dec (parent i) (parent idx)) as [Hpp|Hpp].
        { val_swap. intros Hx Hy. simplify_eq.
          assert (lt y q = false) by (eapply (Hord i); [lia|done|by rewrite Hpp|done]).
          apply lt_asym in Hlt. eapply le_trans; eauto. }
        val_swap. apply Hord; lia.
      * intros Hpar c Hc Hcp x y.
        destruct (Z.eq_dec c idx) as [->|Hci].
        { val_swap. intros Hx Hy. simplify_eq.
          eapply (Hord (parent idx)); eauto; lia. }
        val_swap. intros Hx Hy.
        assert (lt q x = false) by (eapply (Hord (parent idx)); eauto; lia).
        assert (lt y q = false) by (eapply (Hord c); [lia|lia|by rewrite Hcp|done]).
        eapply le_trans; eauto.
    + exists data'. split_and!; try done.
      * by rewrite Hl, length_swapped.
      * rewrite Hperm. eapply swapped_Permutation; eauto; lia.
      * rewrite Hdrop. unfold swapped. rewrite !drop_insert_lt by lia. done.
  - exists data. split_and!; try done.
    intros i Hi. destruct (Z.eq_dec i idx) as [->|]; [|by apply Hord].
    intros x y ??; simplify_eq. done.
Qed.

Lemma down_inv_done data n idx :
  down_inv data n idx →
  (∀ c, 1 <= c < n → parent c = idx → vle data idx c) →
  heap_ordered data n.
Proof.
  intros [Hord _] Hch i Hi. destruct (Z.eq_dec (parent i) idx) as [Hp|Hp].
  - rewrite Hp. by apply Hch.
  - by apply Hord.
Qed.

(** One step of sifting down: the element at [idx] is exchanged with its
    child [ch], which is smaller than it and not larger than the other
    child. *)
Lemma down_inv_swap data n idx ch p cv :
  n <= Z.of_nat (List.length data) → 0 <= idx → 1 <= ch < n → parent ch = idx →
  val data idx = Some p → val data ch = Some cv → lt cv p = true →
  (∀ oc y, 1 <= oc < n → parent oc = idx → oc ≠ ch →
     val data oc = Some y → lt y cv = false) →
  down_inv data n idx → down_inv (swapped data idx ch) n ch.
Proof.
  intros Hlen Hidx Hch Hpar Hp Hc Hlt Hother [Hord Hgp]. split.
  - intros i Hi Hne x y. destruct (Z.eq_dec i ch) as [->|Hich].
    { val_swap. intros; simplify_eq. by apply lt_asym. }
    destruct (Z.eq_dec i idx) as [->|Hiidx].
    { val_swap. intros Hx Hy. simplify_eq.
      eapply (Hgp ltac:(lia) ch); eauto. }
    destruct (Z.eq_dec (parent i) idx) as [Hpi|Hpi].
    { val_swap. intros Hx Hy. simplify_eq. eapply (Hother i); eauto. }
    val_swap. apply Hord; lia.
  - intros _ c Hcr Hcp x y. val_swap. intros Hx Hy.
    assert (x = cv) as -> by congruence.
    eapply (Hord c); [lia|lia|by rewrite Hcp|done].
Qed.

Lemma reheap_down_spec fuel : ∀ data n idx,
  n <= Z.of_nat (List.length data) → n < 2 ^ 63 → filled data n → 0 <= idx < n →
  (Z.to_nat (n - idx) <= fuel)%nat → down_inv data n idx →
  ∃ data', reheap_down fuel n data idx = Done data' ∧
    heap_ordered data' n ∧ filled data' n ∧
    List.length data' = List.length data ∧
    take (Z.to_nat n) data' ≡ₚ take (Z.to_nat n) data ∧
    drop (Z.to_nat n) data' = drop (Z.to_nat n) data.
Proof.
  induction fuel as [|fuel IH]; intros data n idx Hlen Hn Hf Hidx Hfuel Hinv; [lia|].
  simpl. unfold u64.
  rewrite (Z.mod_small (idx * 2 + 1)) by lia.
  rewrite (Z.mod_small (idx * 2 + 1 + 1)) by lia.
  assert (parent (idx * 2 + 1) = idx) as Hpl by (unfold parent; Z.div_mod_to_equations; lia).
  assert (parent (idx * 2 + 1 + 1) = idx) as Hpr by (unfold parent; Z.div_mod_to_equations; lia).
  assert (∀ c, 1 <= c → parent c = idx → c = idx * 2 + 1 ∨ c = idx * 2 + 1 + 1) as Hchildren.
  { intros c Hc Hpc. pose proof (parent_bounds c Hc). lia. }
  destruct (Hf idx) as [p Hp]; [lia|].
  destruct (Z.ltb_spec (idx * 2 + 1 + 1) n) as [Hr|Hr].
  - destruct (Hf (idx * 2 + 1)) as [l Hl]; [lia|].
    destruct (Hf (idx * 2 + 1 + 1)) as [r Hrv]; [lia|].
    rewrite !elem_at_val, Hp, Hl, Hrv. simpl.
    destruct (lt l p && negb (lt r l)) eqn:Hc1.
    { apply andb_true_iff in Hc1 as [Hlp Hrl]. apply negb_true_iff in Hrl.
      rewrite (swap_Done _ _ _ _ _ Hp Hl). simpl.
      destruct (IH (swapped data idx (idx * 2 + 1)) n (idx * 2 + 1))
        as (data' & -> & ? & ? & Hlen' & Hperm & Hdrop).
      - rewrite length_swapped. lia.
      - done.
      - apply filled_swapped; [lia..|done].
      - lia.
      - lia.
      - eapply down_inv_swap; eauto; [lia..|].
        intros oc y Hoc Hpoc Hne Hy. destruct (Hchildren oc) as [Hcc|Hcc]; [lia|done|done|].
        rewrite Hcc in Hy. congruence.
      - exists data'. split_and!; try done.
        + by rewrite Hlen', length_swapped.
        + rewrite Hperm. eapply swapped_Permutation; eauto; lia.
        + rewrite Hdrop. unfold swapped. rewrite !drop_insert_lt by lia. done. }
    destruct (lt r p && negb (lt l r)) eqn:Hc2.
    { apply andb_true_iff in Hc2 as [Hrp Hlr]. apply negb_true_iff in Hlr.
      rewrite (swap_Done _ _ _ _ _ Hp Hrv). simpl.
      destruct (IH (swapped data idx (idx * 2 + 1 + 1)) n (idx * 2 + 1 + 1))
        as (data' & -> & ? & ? & Hlen' & Hperm & Hdrop).
      - rewrite length_swapped. lia.
      - done.
      - apply filled_swapped; [lia..|done].
      - lia.
      - lia.
      - eapply down_inv_swap; eauto; [lia..|].
        intros oc y Hoc Hpoc Hne Hy. destruct (Hchildren oc) as [Hcc|Hcc]; [lia|done| |done].
        rewrite Hcc in Hy. congruence.
      - exists data'. split_and!; try done.
        + by rewrite Hlen', length_swapped.
        + rewrite Hperm. eapply swapped_Permutation; eauto; lia.
        + rewrite Hdrop. unfold swapped. rewrite !drop_insert_lt by lia. done. }
    exists data. split_and!; try done.
    eapply down_inv_done; [done|].
    assert (lt l p = false ∧ lt r p = false) as [Hlp Hrp].
    { destruct (lt l p) eqn:Hlp; destruct (lt r p) eqn:Hrp; simpl in *; try done.
      - apply negb_false_iff in Hc1, Hc2. apply lt_asym in Hc1. congruence.
      - apply negb_false_iff in Hc1. pose proof (lt_trans _ _ _ Hc1 Hlp). congruence.
      - apply negb_false_iff in Hc2. pose proof (lt_trans _ _ _ Hc2 Hrp). congruence. }
    intros c Hc Hpc x y Hx Hy.
    destruct (Hchildren c) as [Hcc|Hcc]; [lia|done|..]; rewrite Hcc in Hy; congruence.
  - destruct (Z.ltb_spec (idx * 2 + 1) n) as [Hl'|Hl'].
    + destruct (Hf (idx * 2 + 1)) as [l Hl]; [lia|].
      rewrite !elem_at_val, Hp, Hl. simpl.
      destruct (lt l p) eqn:Hlp.
      * rewrite (swap_Done _ _ _ _ _ Hp Hl).
        exists (swapped data idx (idx * 2 + 1)). split_and!; try done.
        -- eapply (down_inv_done _ _ (idx * 2 + 1)).
           ++ eapply down_inv_swap; eauto; [lia..|].
              intros oc y Hoc Hpoc Hne Hy. destruct (Hchildren oc) as [Hcc|Hcc]; [lia|done|done|lia].
           ++ intros c Hc Hpc. pose proof (parent_bounds c ltac:(lia)). lia.
        -- apply filled_swapped; [lia..|done].
        -- by rewrite length_swapped.
        -- eapply swapped_Permutation; eauto; lia.
        -- unfold swapped. rewrite !drop_insert_lt by lia. done.
      * exists data. split_and!; try done.
        eapply down_inv_done; [done|].
        intros c Hc Hpc x y Hx Hy.
        destruct (Hchildren c) as [Hcc|Hcc]; [lia|done| |lia].
        rewrite Hcc in Hy. congruence.
    + exists data. split_and!; try done.
      eapply down_inv_done; [done|].
      intros c Hc Hpc. destruct (Hchildren c) as [Hcc|Hcc]; [lia|done|lia..].
Qed.

Lemma lt_irrefl x : lt x x = false.
Proof. destruct (lt x x) eqn:H; [|done]. by apply lt_asym in H as H'; rewrite H in H'. Qed.

(** The root is a minimum of the live prefix. *)
Lemma root_minimal data n :
  heap_ordered data n → filled data n → ∀ i, 0 <= i < n → vle data 0 i.
Proof.
  intros Hord Hf i Hi. remember (Z.to_nat i) as k eqn:Hk.
  revert i Hi Hk. induction (lt_wf k) as [k _ IH]. intros i Hi ->.
  destruct (Z.eq_dec i 0) as [->|Hnz].
  { intros x y ??. simplify_eq. apply lt_irrefl. }
  pose proof (parent_bounds i ltac:(lia)) as Hp.
  intros x y Hx Hy. destruct (Hf (parent i)) as [q Hq]; [lia|].
  assert (lt q x = false)
    by (eapply (IH (Z.to_nat (parent i)) ltac:(lia) (parent i) ltac:(lia) eq_refl); eauto).
  assert (lt y q = false) by (eapply (Hord i); eauto; lia).
  eapply le_trans; eauto.
Qed.

(** ** The heap and its buffer in the store *)

Definition buffer (σ : store (option T)) (h : Heap) : list (option T) :=
  default [] (σ !! data_ h).

(** The elements a heap currently holds, in array order. *)
Definition live (σ : store (option T)) (h : Heap) : list (option T) :=
  take (Z.to_nat (length_ h)) (buffer σ h).

Definition wf (σ : store (option T)) (h : Heap) : Prop :=
  σ !! 0 = None ∧
  (data_ h = 0 ∨ is_Some (σ !! data_ h)) ∧
  List.length (buffer σ h) = Z.to_nat (capacity_ h) ∧
  0 <= length_ h <= capacity_ h ∧
  capacity_ h < 2 ^ 63 ∧
  filled (buffer σ h) (length_ h).

Definition ordered (σ : store (option T)) (h : Heap) : Prop :=
  heap_ordered (buffer σ h) (length_ h).

Lemma heap_wf_lookup σ h :
  wf σ h → 0 < capacity_ h → σ !! data_ h = Some (buffer σ h).
Proof.
  intros (_ & _ & Hlen & _) Hc. unfold buffer in *.
  destruct (σ !! data_ h); [done|]. simpl in Hlen. lia.
Qed.

Lemma heap_wf_fresh σ h n : wf σ h → alloc_addr σ n ≠ data_ h.
Proof.
  intros (_ & [H0|[b Hb]] & _) Heq.
  - apply (alloc_addr_nonnull σ n). congruence.
  - pose proof (alloc_addr_fresh σ n). congruence.
Qed.

Lemma copy_prefix_Done n (src dst : list (option T)) :
  n <= Z.of_nat (List.length src) → n <= Z.of_nat (List.length dst) →
  copy_prefix n src dst = Done (take (Z.to_nat n) src ++ drop (Z.to_nat n) dst).
Proof.
  intros. unfold copy_prefix.
  replace (n <=? Z.of_nat (List.length src)) with true by lia.
  replace (n <=? Z.of_nat (List.length dst)) with true by lia. done.
Qed.

Lemma load_live_Done σ h σ' :
  wf σ h → (length_ h ≠ 0 → σ' !! data_ h = σ !! data_ h) →
  ∃ src, load_live h σ' = Done (src, σ') ∧
    length_ h <= Z.of_nat (List.length src) ∧
    take (Z.to_nat (length_ h)) src = live σ h.
Proof.
  intros Hwf Hσ'. unfold load_live, live. destruct (Z.eqb_spec (length_ h) 0) as [Hz|Hnz].
  - exists []. rewrite Hz. split_and!; [done|simpl; lia|by rewrite take_0].
  - pose proof Hwf as (_ & _ & Hlen & Hr & _).
    exists (buffer σ h). unfold load. rewrite Hσ', (heap_wf_lookup σ h) by (done || lia).
    split_and!; [done|lia|done].
Qed.

(** What [reserve] leaves in the store when it reallocates. *)
Definition reserved (σ : store (option T)) (h : Heap) (n : Z) : store (option T) :=
  delete (data_ h)
    (<[alloc_addr σ n := live σ h ++ drop (Z.to_nat (length_ h)) (alloc_cells σ n)]> σ).

Lemma reserve_Done σ h n :
  wf σ h → capacity_ h < n →
  reserve h n σ = Done (mkHeap (alloc_addr σ n) (length_ h) n, reserved σ h n).
Proof.
  intros Hwf Hn. pose proof Hwf as (Hnull & Hptr & Hlen & Hr & Hc & Hf).
  unfold reserve. replace (n <=? capacity_ h) with false by lia.
  unfold bind at 1. unfold alloc at 1.
  pose proof (heap_wf_fresh σ h n Hwf) as Hfresh.
  unfold bind at 1.
  destruct (load_live_Done σ h (<[alloc_addr σ n:=alloc_cells σ n]> σ) Hwf) as (src & -> & Hsrc & Htake).
  { intros _. by rewrite lookup_insert_ne. }
  unfold bind at 1, load at 1. rewrite lookup_insert_eq.
  unfold bind at 1. rewrite copy_prefix_Done; [|lia|rewrite alloc_cells_length; lia].
  simpl. unfold bind at 1, save at 1. rewrite lookup_insert_eq.
  unfold bind, free, ret. rewrite insert_insert_eq, Htake. done.
Qed.

Lemma reserve_noop σ h n : n <= capacity_ h → reserve h n σ = Done (h, σ).
Proof. intros. unfold reserve. replace (n <=? capacity_ h) with true by lia. done. Qed.

Lemma buffer_reserved σ h n :
  wf σ h →
  buffer (reserved σ h n) (mkHeap (alloc_addr σ n) (length_ h) n)
  = live σ h ++ drop (Z.to_nat (length_ h)) (alloc_cells σ n).
Proof.
  intros Hwf. unfold buffer, reserved. simpl.
  rewrite lookup_delete_ne by (symmetry; by apply heap_wf_fresh).
  by rewrite lookup_insert_eq.
Qed.

Lemma length_live σ h : wf σ h → List.length (live σ h) = Z.to_nat (length_ h).
Proof.
  intros (_ & _ & Hlen & Hr & _). unfold live. rewrite length_take. lia.
Qed.

Lemma val_app_l (l1 l2 : list (option T)) i :
  i < Z.of_nat (List.length l1) → val (l1 ++ l2) i = val l1 i.
Proof.
  intros Hi. unfold val. destruct (0 <=? i) eqn:H0; [|done].
  rewrite lookup_app_l by lia. done.
Qed.

Lemma val_take (l : list (option T)) n i :
  i < n → val (take (Z.to_nat n) l) i = val l i.
Proof.
  intros Hi. unfold val. destruct (0 <=? i) eqn:H0; [|done].
  rewrite lookup_take_lt by lia. done.
Qed.


Lemma buffer_live_val σ h i :
  i < length_ h → val (live σ h) i = val (buffer σ h) i.
Proof. intros. unfold live. by rewrite val_take. Qed.

Lemma reserved_wf σ h n :
  wf σ h → capacity_ h < n < 2 ^ 63 →
  wf (reserved σ h n) (mkHeap (alloc_addr σ n) (length_ h) n).
Proof.
  intros Hwf Hn. pose proof Hwf as (Hnull & Hptr & Hlen & Hr & Hc & Hf).
  unfold wf. rewrite buffer_reserved by done. simpl. split_and!.
  - unfold reserved. apply lookup_delete_None. right.
    rewrite lookup_insert_ne; [done|apply alloc_addr_nonnull].
  - right. unfold reserved.
    rewrite lookup_delete_ne by (symmetry; by apply heap_wf_fresh).
    rewrite lookup_insert_eq. eauto.
  - rewrite length_app, length_live, length_drop, alloc_cells_length by done. lia.
  - lia.
  - lia.
  - lia.
  - intros i Hi. rewrite val_app_l by (rewrite length_live by done; lia).
    rewrite buffer_live_val by lia. by apply Hf.
Qed.

Lemma reserved_live σ h n :
  wf σ h → live (reserved σ h n) (mkHeap (alloc_addr σ n) (length_ h) n) = live σ h.
Proof.
  intros Hwf. unfold live at 1. rewrite buffer_reserved by done. simpl.
  rewrite take_app_length'; [done|]. symmetry. by apply length_live.
Qed.

Lemma live_ordered σ h σ' h' :
  length_ h' = length_ h → live σ' h' = live σ h → ordered σ h → ordered σ' h'.
Proof.
  intros Hl Hlive Hord i Hi x y Hx Hy. rewrite Hl in Hi.
  pose proof (parent_bounds i ltac:(lia)).
  rewrite <- buffer_live_val, Hlive, buffer_live_val in Hx, Hy by lia.
  eapply (Hord i); eauto.
Qed.

(** Buffers other than those of the heaps involved are left alone. *)
Definition frame (σ σ' : store (option T)) (h h' : Heap) : Prop :=
  ∀ q, q ≠ data_ h → q ≠ data_ h' → is_Some (σ !! q) → σ' !! q = σ !! q.

Lemma reserved_frame σ h n :
  frame σ (reserved σ h n) h (mkHeap (alloc_addr σ n) (length_ h) n).
Proof.
  intros q Hq Hq' _. simpl in Hq'. unfold reserved.
  rewrite lookup_delete_ne by done. by rewrite lookup_insert_ne.
Qed.

(** [if(full()) grow();] *)
Lemma grow_if_full σ h :
  wf σ h → capacity_ h < 2 ^ 62 →
  ∃ h1 σ1, (if full h then grow h else ret h) σ = Done (h1, σ1) ∧
    wf σ1 h1 ∧ length_ h1 = length_ h ∧ length_ h1 < capacity_ h1 ∧
    live σ1 h1 = live σ h ∧ frame σ σ1 h h1 ∧
    capacity_ h1 <= Z.max (capacity_ h) (Z.max 8 (2 * length_ h)).
Proof.
  intros Hwf Hc. pose proof Hwf as (Hnull & Hptr & Hlen & Hr & _ & Hf).
  unfold full. destruct (Z.eqb_spec (length_ h) (capacity_ h)) as [Hfull|Hnf].
  - unfold grow.
    set (n := if capacity_ h =? 0 then 8 else u64 (2 * capacity_ h)).
    assert (capacity_ h < n < 2 ^ 63 ∧ n <= Z.max (capacity_ h) (Z.max 8 (2 * length_ h))) as [Hn Hn'].
    { subst n. unfold u64. destruct (Z.eqb_spec (capacity_ h) 0); [lia|].
      rewrite Z.mod_small by lia. lia. }
    rewrite reserve_Done by (done || lia).
    eexists _, _. split; [done|]. split_and!.
    + by apply reserved_wf.
    + done.
    + simpl. lia.
    + by apply reserved_live.
    + apply reserved_frame.
    + done.
  - exists h, σ. split_and!; try done; lia.
Qed.

Lemma buffer_saved σ p h data :
  data_ h = p → buffer (<[p := data]> σ) h = data.
Proof. intros <-. unfold buffer. by rewrite lookup_insert_eq. Qed.

Lemma heap_saved_wf σ h h' data :
  wf σ h → 0 < capacity_ h → data_ h' = data_ h → capacity_ h' = capacity_ h →
  List.length data = List.length (buffer σ h) →
  0 <= length_ h' <= capacity_ h → filled data (length_ h') →
  wf (<[data_ h := data]> σ) h'.
Proof.
  intros Hwf Hc Hd Hc' Hlen Hr Hf. pose proof Hwf as (Hnull & Hptr & Hlen0 & _ & Hcap & _).
  pose proof (heap_wf_lookup _ _ Hwf Hc) as Hl.
  unfold wf, buffer. rewrite Hd, Hc', lookup_insert_eq. simpl.
  split_and!; try done; try lia; try congruence.
  - rewrite lookup_insert_ne; [done|]. intros H0. rewrite H0 in Hl. congruence.
  - right. eauto.
Qed.

Lemma saved_frame σ σ1 h h1 h' data :
  frame σ σ1 h h1 → data_ h' = data_ h1 → frame σ (<[data_ h1 := data]> σ1) h h'.
Proof.
  intros Hfr Hd q Hq Hq' Hs. rewrite Hd in Hq'.
  rewrite lookup_insert_ne by done. by apply Hfr.
Qed.

Lemma push_spec fuel σ h v :
  wf σ h → ordered σ h → capacity_ h < 2 ^ 62 → (Z.to_nat (length_ h) < fuel)%nat →
  ∃ h' σ', push fuel h v σ = Done (h', σ') ∧
    wf σ' h' ∧ ordered σ' h' ∧ length_ h' = length_ h + 1 ∧
    live σ' h' ≡ₚ Some v :: live σ h ∧ frame σ σ' h h' ∧
    capacity_ h' <= Z.max (capacity_ h) (Z.max 8 (2 * length_ h)).
Proof.
  intros Hwf Hord Hcap Hfuel.
  destruct (grow_if_full σ h Hwf Hcap) as (h1 & σ1 & Hgrow & Hwf1 & Hl1 & Hlc & Hlive & Hfr & Hc1).
  assert (ordered σ1 h1) as Hord1 by (eapply live_ordered; eauto).
  pose proof Hwf1 as (Hnull & Hptr & Hlen & Hr & Hcap1 & Hf).
  unfold push. unfold bind at 1. rewrite Hgrow.
  unfold bind at 1, load at 1. rewrite (heap_wf_lookup _ _ Hwf1) by lia.
  unfold bind at 1. rewrite cell_set_Done by lia. simpl.
  rewrite (u64_small (length_ h1 + 1)) by lia.
  replace (length_ h1 + 1 - 1) with (length_ h1) by lia.
  rewrite (u64_small (length_ h1)) by lia.
  set (data1 := <[Z.to_nat (length_ h1) := Some v]> (buffer σ1 h1)).
  assert (∀ i, i ≠ length_ h1 → val data1 i = val (buffer σ1 h1) i) as Hval.
  { intros i Hi. unfold data1. rewrite val_insert by lia. by replace (i =? length_ h1) with false by lia. }
  destruct (reheap_up_spec fuel data1 (length_ h1 + 1) (length_ h1))
    as (data2 & Hup & Hord2 & Hf2 & Hlen2 & Hperm & Hdrop).
  { unfold data1. rewrite length_insert. lia. }
  { intros i Hi. destruct (Z.eq_dec i (length_ h1)) as [->|Hne].
    - unfold data1. rewrite val_insert by lia. rewrite Z.eqb_refl. eauto.
    - rewrite Hval by done. apply Hf. lia. }
  { lia. }
  { lia. }
  { split.
    - intros i Hi Hne. pose proof (parent_bounds i ltac:(lia)).
      intros x y. rewrite !Hval by lia. apply (Hord1 i). lia.
    - intros _ c Hc Hpc. pose proof (parent_bounds c ltac:(lia)). lia. }
  unfold bind at 1. rewrite Hup. simpl.
  unfold bind at 1, save at 1. rewrite (heap_wf_lookup _ _ Hwf1) by lia.
  eexists _, _. split; [done|]. split_and!.
  - eapply heap_saved_wf; eauto; simpl; try lia.
    rewrite Hlen2. unfold data1. by rewrite length_insert.
  - unfold ordered. by rewrite buffer_saved by done.
  - simpl. lia.
  - unfold live at 1. rewrite buffer_saved by done. simpl. rewrite Hperm, <- Hlive.
    replace (Z.to_nat (length_ h1 + 1)) with (S (Z.to_nat (length_ h1))) by lia.
    unfold data1. erewrite take_S_r by (apply list_lookup_insert_eq; lia).
    rewrite take_insert_ge by lia. unfold live.
    by rewrite Permutation_app_comm.
  - by eapply saved_frame.
  - simpl. lia.
Qed.

Lemma lookup_val_Some (data : list (option T)) i x :
  val data i = Some x → data !! Z.to_nat i = Some (Some x).
Proof. intros H. rewrite (lookup_val _ _ _ H). by rewrite H. Qed.

Lemma pop_spec fuel σ h :
  wf σ h → ordered σ h → 0 < length_ h → (Z.to_nat (length_ h) <= fuel)%nat →
  ∃ h' σ' x, pop fuel h σ = Done (h', σ') ∧
    wf σ' h' ∧ ordered σ' h' ∧ length_ h' = length_ h - 1 ∧
    data_ h' = data_ h ∧ capacity_ h' = capacity_ h ∧
    val (buffer σ h) 0 = Some x ∧ live σ h ≡ₚ Some x :: live σ' h' ∧
    frame σ σ' h h'.
Proof.
  intros Hwf Hord Hpos Hfuel. pose proof Hwf as (Hnull & Hptr & Hlen & Hr & Hcap & Hf).
  destruct (Hf 0) as [x Hx]; [lia|].
  unfold pop. replace (0 <? length_ h) with true by lia. simpl.
  unfold bind at 1, load at 1. rewrite (heap_wf_lookup _ _ Hwf) by lia.
  set (buf := buffer σ h) in *.
  assert (∃ data0, (if Must_Destruct then cell_set buf 0 None else Done buf) = Done data0 ∧
            List.length data0 = List.length buf ∧
            (∀ c, <[0%nat := c]> data0 = <[0%nat := c]> buf) ∧
            (∀ i, i ≠ 0 → val data0 i = val buf i)) as (data0 & -> & Hlen0 & Hins & Hval0).
  { destruct Must_Destruct.
    - rewrite cell_set_Done by lia. eexists; split; [done|]. split_and!.
      + by rewrite length_insert.
      + intros c. by rewrite list_insert_insert_eq.
      + intros i Hi. rewrite val_insert by lia. by replace (i =? 0) with false by lia.
    - by exists buf. }
  unfold bind at 1. simpl.
  rewrite (u64_small (length_ h - 1)) by lia.
  destruct (Z.ltb_spec 0 (length_ h - 1)) as [Hmore|Hlast].
  - destruct (Hf (length_ h - 1)) as [last Hlast]; [lia|].
    unfold bind at 1. rewrite elem_at_val, Hval0, Hlast by lia. simpl.
    unfold bind at 1. rewrite cell_set_Done by lia. simpl. rewrite Hins.
    set (data1 := <[0%nat := Some last]> buf).
    assert (∀ i, i ≠ 0 → val data1 i = val buf i) as Hval.
    { intros i Hi. unfold data1. rewrite (val_insert buf 0) by lia.
      by replace (i =? 0) with false by lia. }
    destruct (reheap_down_spec fuel data1 (length_ h - 1) 0)
      as (data2 & Hdown & Hord2 & Hf2 & Hlen2 & Hperm & Hdrop).
    { unfold data1. rewrite length_insert. lia. }
    { lia. }
    { intros i Hi. destruct (Z.eq_dec i 0) as [->|Hne].
      - unfold data1. rewrite (val_insert buf 0) by lia. simpl. eauto.
      - rewrite Hval by done. apply Hf. lia. }
    { lia. }
    { lia. }
    { split.
      - intros i Hi Hne. pose proof (parent_bounds i ltac:(lia)).
        intros a b. rewrite !Hval by lia. apply (Hord i). lia.
      - lia. }
    unfold bind at 1. rewrite Hdown. simpl.
    unfold bind at 1, save at 1. rewrite (heap_wf_lookup _ _ Hwf) by lia.
    eexists _, _, x. split; [done|]. split_and!; try done.
    + eapply heap_saved_wf; eauto; simpl; try lia.
      rewrite Hlen2. unfold data1. by rewrite length_insert.
    + unfold ordered. by rewrite buffer_saved by done.
    + unfold live. rewrite buffer_saved by done. simpl. rewrite Hperm. fold buf.
      replace (Z.to_nat (length_ h)) with (S (Z.to_nat (length_ h - 1))) by lia.
      rewrite (take_S_r _ _ (Some last)) by (by apply lookup_val_Some).
      unfold data1. apply lookup_val_Some in Hx. simpl in Hx.
      destruct buf as [|c buf']; [done|]. simpl in Hx. simplify_eq.
      destruct (Z.to_nat (length_ h - 1)) as [|k] eqn:Hk; [lia|]. simpl.
      rewrite (Permutation_app_comm _ [Some last]). simpl. done.
    + eapply (saved_frame σ σ h h); [by intros q|done].
  - unfold bind at 1, save at 1. rewrite (heap_wf_lookup _ _ Hwf) by lia.
    eexists _, _, x. split; [done|]. split_and!; try done.
    + eapply heap_saved_wf; eauto; simpl; try lia. intros i Hi. lia.
    + intros i Hi. simpl in Hi. lia.
    + unfold live. rewrite buffer_saved by done. simpl. fold buf.
      replace (Z.to_nat (length_ h - 1)) with 0%nat by lia.
      replace (Z.to_nat (length_ h)) with 1%nat by lia.
      apply lookup_val_Some in Hx. simpl in Hx.
      destruct buf as [|c buf']; [done|]. simpl in Hx. simplify_eq. by rewrite take_0.
    + eapply (saved_frame σ σ h h); [by intros q|done].
Qed.

(** ** Sequences of pushes and pops *)

Inductive op : Type :=
| Push (x : T)
| Pop.

Definition step (fuel : nat) (h : Heap) (o : op) : M (option T) Heap :=
  match o with
  | Push x => push fuel h x
  | Pop => pop fuel h
  end.

Fixpoint run (fuel : nat) (ops : list op) (h : Heap) : M (option T) Heap :=
  match ops with
  | [] => ret h
  | o :: ops => let* h := step fuel h o in run fuel ops h
  end.

(** Pops happen on a non-empty heap only: [n] is the number of elements held
    before the operations. *)
Fixpoint valid (n : Z) (ops : list op) : Prop :=
  match ops with
  | [] => True
  | Push _ :: ops => valid (n + 1) ops
  | Pop :: ops => 0 < n ∧ valid (n - 1) ops
  end.

(** [m] is a minimum of the elements [l]. *)
Definition is_min (m : T) (l : list (option T)) : Prop :=
  ∀ y, Some y ∈ l → lt y m = false.

(** The reference multiset mirrored against the heap: a push adds its
    element, a pop takes a minimum away. *)
Inductive mirror : list op → list (option T) → list (option T) → Prop :=
| mirror_nil l : mirror [] l l
| mirror_push x ops l l1 l' :
    l1 ≡ₚ Some x :: l → mirror ops l1 l' → mirror (Push x :: ops) l l'
| mirror_pop m ops l l1 l' :
    l ≡ₚ Some m :: l1 → is_min m l → mirror ops l1 l' → mirror (Pop :: ops) l l'.

Lemma top_Done σ h x :
  wf σ h → 0 < length_ h → val (buffer σ h) 0 = Some x → top h σ = Done (x, σ).
Proof.
  intros Hwf Hpos Hx. pose proof Hwf as (_ & _ & _ & Hr & _).
  unfold top, bind, load. rewrite (heap_wf_lookup _ _ Hwf) by lia.
  unfold lift. by rewrite elem_at_val, Hx.
Qed.

Lemma top_is_min σ h x :
  wf σ h → ordered σ h → val (buffer σ h) 0 = Some x → is_min x (live σ h).
Proof.
  intros Hwf Hord Hx y Hy. pose proof Hwf as (_ & _ & Hlen & Hr & _ & Hf).
  apply list_elem_of_lookup in Hy as [i Hi].
  unfold live in Hi. apply lookup_take_Some in Hi as [Hi Hlt].
  apply (root_minimal _ _ Hord Hf (Z.of_nat i) ltac:(lia) x y Hx).
  unfold val. replace (0 <=? Z.of_nat i) with true by lia.
  by rewrite Nat2Z.id, Hi.
Qed.

Lemma heap_run_spec fuel : ∀ ops σ h,
  wf σ h → ordered σ h → valid (length_ h) ops →
  Z.max (capacity_ h) (Z.max 8 (2 * (length_ h + Z.of_nat (List.length ops)))) < 2 ^ 62 →
  (Z.to_nat (length_ h) + List.length ops < fuel)%nat →
  ∃ h' σ', run fuel ops h σ = Done (h', σ') ∧ wf σ' h' ∧ ordered σ' h' ∧
    mirror ops (live σ h) (live σ' h').
Proof.
  induction ops as [|o ops IH]; intros σ h Hwf Hord Hvalid Hcap Hfuel.
  { exists h, σ. split_and!; try done. constructor. }
  simpl in Hcap, Hfuel. destruct o as [x|]; simpl in Hvalid |- *.
  - destruct (push_spec fuel σ h x Hwf Hord) as (h1 & σ1 & Hpush & Hwf1 & Hord1 & Hl1 & Hperm & _ & Hc1);
      [lia..|].
    destruct (IH σ1 h1) as (h' & σ' & Hrun & ? & ? & Hm); try done.
    { by rewrite Hl1. }
    { lia. }
    { lia. }
    exists h', σ'. unfold bind. rewrite Hpush. split_and!; try done.
    econstructor; eauto.
  - destruct Hvalid as [Hpos Hvalid].
    destruct (pop_spec fuel σ h Hwf Hord) as (h1 & σ1 & x & Hpop & Hwf1 & Hord1 & Hl1 & _ & Hc1 & Hx & Hperm & _);
      [lia..|].
    destruct (IH σ1 h1) as (h' & σ' & Hrun & ? & ? & Hm); try done.
    { by rewrite Hl1. }
    { lia. }
    { lia. }
    exists h', σ'. unfold bind. rewrite Hpop. split_and!; try done.
    econstructor; eauto. by apply top_is_min.
Qed.

(** C6: for every sequence of pushes and pops in which pops happen on a
    non-empty heap only, the heap ends ordered (every non-root element of the
    live prefix is not less than its parent), it holds exactly the elements
    of the mirrored reference multiset, and [top()] returns a minimum of the
    elements it holds.  As the sequence is arbitrary, this covers the state
    after every single operation. *)
Theorem heap_order_invariant fuel ops σ h :
  wf σ h → ordered σ h → valid (length_ h) ops →
  Z.max (capacity_ h) (Z.max 8 (2 * (length_ h + Z.of_nat (List.length ops)))) < 2 ^ 62 →
  (Z.to_nat (length_ h) + List.length ops < fuel)%nat →
  ∃ h' σ', run fuel ops h σ = Done (h', σ') ∧
    heap_ordered (buffer σ' h') (length_ h') ∧
    mirror ops (live σ h) (live σ' h') ∧
    (0 < length_ h' →
       ∃ m, top h' σ' = Done (m, σ') ∧ is_min m (live σ' h')).
Proof.
  intros Hwf Hord Hvalid Hcap Hfuel.
  destruct (heap_run_spec fuel ops σ h) as (h' & σ' & Hrun & Hwf' & Hord' & Hm); try done.
  exists h', σ'. split_and!; try done.
  intros Hpos. pose proof Hwf' as (_ & _ & _ & _ & _ & Hf).
  destruct (Hf 0) as [m Hm0]; [lia|]. exists m. split.
  - by apply top_Done.
  - by apply top_is_min.
Qed.

(** ** Moving a heap *)

(** [Heap& operator=(Heap&& src)] on the objects [this] and [src] of an
    object table: both are references and may designate the same object. *)
Definition move_assign (this src : nat) (objs : gmap nat Heap)
  : M (option T) (gmap nat Heap) :=
  match objs !! this with
  | None => lift Fault
  | Some t =>
      (* this->~Heap() *)
      let* t := destructor t in
      let objs := <[this := t]> objs in
      match objs !! src with
      | None => lift Fault
      | Some s =>
          ret (<[src := mkHeap 0 0 0]>
                 (<[this := mkHeap (data_ s) (length_ s) (capacity_ s)]> objs))
      end
  end.

(** The heap [t] can be destroyed: its live prefix lies in a live buffer. *)
Definition destructible (σ : store (option T)) (t : Heap) : Prop :=
  length_ t = 0 ∨
  ∃ cells, σ !! data_ t = Some cells ∧ length_ t <= Z.of_nat (List.length cells).

Lemma heap_destructor_Done σ t :
  destructible σ t →
  ∃ σ', destructor t σ = Done (mkHeap 0 0 0, σ') ∧
    ∀ q, q ≠ data_ t → σ' !! q = σ !! q.
Proof.
  intros Hd. unfold destructor, destroy_live.
  destruct (Must_Destruct && negb (length_ t =? 0)) eqn:Hcond.
  - apply andb_true_iff in Hcond as [_ Hnz]. apply negb_true_iff in Hnz.
    destruct Hd as [Hz|(cells & Hl & Hlen)]; [lia|].
    unfold bind at 1. unfold bind at 1, load. rewrite Hl.
    replace (length_ t <=? Z.of_nat (List.length cells)) with true by lia.
    unfold save. rewrite Hl. unfold bind, free, ret.
    eexists. split; [done|]. intros q Hq.
    rewrite lookup_delete_ne by done. by rewrite lookup_insert_ne.
  - unfold bind, ret, free. eexists. split; [done|]. intros q Hq.
    by rewrite lookup_delete_ne.
Qed.


End heap.
End Heap.

(** * Map *)

Module Map.

(** The five fields of [Map<K, V, A>]; [data_] is the address of the buffer. *)
Record Map : Type :=
  mkMap { data_ : Z; capacity_ : Z; length_ : Z; usable_ : Z; shift_ : Z }.

(** [Map() = default] *)
Definition empty_map : Map := mkMap 0 0 0 0 0.

Definition EMPTY_SLOT : Z := 0.

(** A slot: the tag [hash] and the storage [data] of the pair, which holds a
    constructed pair or raw memory. *)
Record Slot (K V : Type) : Type := mkSlot { hash : Z; data : option (K * V) }.
Arguments mkSlot {K V} hash data.
Arguments hash {K V} s.
Arguments data {K V} s.

(** What a read of a tag finds after the slot was destroyed, as a function
    of the tag the slot had. *)
Definition Stale : Type := Z → Z.

(** [x >> s] on 64-bit values; the shift is undefined for [s >= 64]. *)
Definition shr (x s : Z) : result Z :=
  if (0 <=? s) && (s <? 64) then Done (Z.shiftr x s) else Fault.

Section map.
Context {K V : Type} `{EqDecision K}.
(** [hash(k)] of the [Hashable] capability, a 64-bit value. *)
Variable hash_of : K → Z.
(** [Trivial<K> && Trivial<V>] *)
Variable Trivial_KV : bool.
(** [Must_Destruct<Pair<K, V>>] *)
Variable Must_Destruct : bool.
(** The tag that the storage of a slot shows after [~Slot()] has run on it,
    given the tag it had.  The destructor stores [EMPTY_SLOT] there, but the
    lifetime of the slot ends with the destructor and nothing else writes
    the tag, so a compiler may drop the store: the source fixes no value. *)
Variable stale_tag : Stale.
Context `{!Allocator (Slot K V)}.

(** [hash_]: bit 0 is forced so that a tag never equals [EMPTY_SLOT]. *)
Definition hash_ (k : K) : Z := Z.lor (hash_of k) 1.

(** [Slot() = default] *)
Definition empty_slot : Slot K V := mkSlot EMPTY_SLOT None.

(** [Slot(K&& key, V&& value)] *)
Definition new_slot (key : K) (value : V) : Slot K V :=
  mkSlot (hash_ key) (Some (key, value)).

(** What a slot receives when [slot] is moved into it: the pair is
    constructed only under a tag other than [EMPTY_SLOT]. *)
Definition moved (slot : Slot K V) : Slot K V :=
  if hash slot =? EMPTY_SLOT then empty_slot else slot.

(** [~Slot()]: a pair that needs a destructor is destroyed when the tag is
    not [EMPTY_SLOT], which is undefined when no pair was constructed.  The
    slot then holds no pair, and its tag is the one [stale_tag] gives. *)
Definition destruct_slot (slot : Slot K V) : result (Slot K V) :=
  let dead := mkSlot (stale_tag (hash slot)) None in
  if Must_Destruct && negb (hash slot =? EMPTY_SLOT) then
    match data slot with
    | Some _ => Done dead
    | None => Fault
    end
  else Done dead.

(** [Slot& operator=(Slot&& slot)] on the slot [this]: [this->~Slot()]
    runs first; the tag and the pair of [slot] are then stored by the
    operator itself. *)
Definition assign_slot (this slot : Slot K V) : result (Slot K V) :=
  let! _ := destruct_slot this in
  Done (moved slot).

(** [slot.data->first], [slot.data->second] *)
Definition first (slot : Slot K V) : result K :=
  match data slot with
  | Some (k, _) => Done k
  | None => Fault
  end.

Definition second (slot : Slot K V) : result V :=
  match data slot with
  | Some (_, v) => Done v
  | None => Fault
  end.

(** [Slot::clone] *)
Definition clone_slot (slot : Slot K V) : result (Slot K V) :=
  if hash slot =? EMPTY_SLOT then Done empty_slot else
  let! k := first slot in
  let! v := second slot in
  Done (new_slot k v).

(** [explicit Map(u64 capacity)] *)
Definition new (capacity : Z) : M (Slot K V) Map :=
  let capacity_ := next_pow2 capacity in
  let shift_ := u64 (ctlz capacity_ + 1) in
  let usable_ := u64 ((capacity_ / 4) * 3) in
  let* data_ := alloc capacity_ in
  ret (mkMap data_ capacity_ 0 usable_ shift_).

Definition empty (m : Map) : bool := length_ m =? 0.
Definition full (m : Map) : bool := length_ m =? usable_ m.
Definition length (m : Map) : Z := length_ m.

(** [hash == key_hash && slot.data->first == key] *)
Definition matches (slot : Slot K V) (key_hash : Z) (key : K) : result bool :=
  if hash slot =? key_hash then
    let! k := first slot in
    Done (bool_decide (k = key))
  else Done false.

(** The displacement of a tag found at [idx]. *)
Definition distance (m : Map) (idx tag_idx : Z) : Z :=
  if tag_idx <=? idx then idx - tag_idx else u64 (capacity_ m + idx - tag_idx).

(** [if(++idx == capacity_) idx = 0;] *)
Definition advance (m : Map) (idx : Z) : Z :=
  let idx := u64 (idx + 1) in
  if idx =? capacity_ m then 0 else idx.

(** [hash == slot.hash && data_[idx].data->first == slot.data->first] *)
Definition same_entry (cur slot : Slot K V) : result bool :=
  if hash cur =? hash slot then
    let! k := first cur in
    let! k' := first slot in
    Done (bool_decide (k = k'))
  else Done false.

(** The loop of [insert_slot]; the result is the buffer and the index of the
    slot that the returned reference designates. *)
Fixpoint insert_slot_loop (fuel : nat) (m : Map) (cells : list (Slot K V))
    (slot : Slot K V) (idx : Z) (placement : option Z) (dist : Z)
  : result (list (Slot K V) * Z) :=
  match fuel with
  | O => Timeout
  | S fuel =>
      let! cur := cell_at cells idx in
      if hash cur =? EMPTY_SLOT then
        let! cells := cell_set cells idx (moved slot) in
        Done (cells, default idx placement)
      else
        let! same := same_entry cur slot in
        if same then
          let! cells := cell_set cells idx (moved slot) in
          Done (cells, idx)
        else
          let! hashidx := shr (hash cur) (shift_ m) in
          let hashdist := distance m idx hashidx in
          if hashdist <? dist then
            (* std::swap(data_[idx], slot) *)
            let! cells := cell_set cells idx (moved slot) in
            insert_slot_loop fuel m cells (moved cur) (advance m idx)
              (Some (default idx placement)) (u64 (hashdist + 1))
          else
            insert_slot_loop fuel m cells slot (advance m idx)
              placement (u64 (dist + 1))
  end.

Definition insert_slot (fuel : nat) (m : Map) (slot : Slot K V) : M (Slot K V) Z :=
  let* idx := lift (shr (hash slot) (shift_ m)) in
  let* cells := load (data_ m) in
  let* (cells, placed) := lift (insert_slot_loop fuel m cells slot idx None 0) in
  let* _ := save (data_ m) cells in
  ret placed.

(** The loop of [reserve]: every occupied slot of the old buffer, in index
    order, is inserted into the new one.  The old buffer is freed right
    after the loop, so the tags that the moves leave in it are not kept. *)
Fixpoint rehash (fuel : nat) (m : Map) (old : list (Slot K V)) (i : Z) (n : nat)
    (cells : list (Slot K V)) : result (list (Slot K V)) :=
  match n with
  | O => Done cells
  | S n =>
      let! s := cell_at old i in
      if hash s =? EMPTY_SLOT then rehash fuel m old (i + 1) n cells else
      let! idx := shr (hash s) (shift_ m) in
      let! (cells, _) := insert_slot_loop fuel m cells s idx None 0 in
      rehash fuel m old (i + 1) n cells
  end.

Definition reserve (fuel : nat) (m : Map) (new_capacity : Z) : M (Slot K V) Map :=
  if new_capacity <=? capacity_ m then ret m else
  let old_data := data_ m in
  let old_capacity := capacity_ m in
  let* new_data := alloc new_capacity in
  let m := mkMap new_data new_capacity (length_ m)
             (u64 ((new_capacity / 4) * 3)) (u64 (ctlz new_capacity + 1)) in
  let* old := (if old_capacity =? 0 then ret [] else load old_data) in
  let* cells := load new_data in
  let* cells := lift (rehash fuel m old 0 (Z.to_nat old_capacity) cells) in
  let* _ := save new_data cells in
  let* _ := free old_data in
  ret m.

Definition grow (fuel : nat) (m : Map) : M (Slot K V) Map :=
  let new_capacity := if capacity_ m =? 0 then 32 else u64 (2 * capacity_ m) in
  reserve fuel m new_capacity.

(** [insert(K&& key, V&& value)]; the result is the map and the index of the
    slot whose value the returned reference designates. *)
Definition insert (fuel : nat) (m : Map) (key : K) (value : V)
  : M (Slot K V) (Map * Z) :=
  let* m := (if full m then grow fuel m else ret m) in
  let slot := new_slot key value in
  let* placed := insert_slot fuel m slot in
  let m := mkMap (data_ m) (capacity_ m) (u64 (length_ m + 1)) (usable_ m) (shift_ m) in
  ret (m, placed).

(** The loop of [try_get]. *)
Fixpoint try_get_loop (fuel : nat) (m : Map) (cells : list (Slot K V))
    (key_hash : Z) (key : K) (idx dist : Z) : result (option V) :=
  match fuel with
  | O => Timeout
  | S fuel =>
      let! cur := cell_at cells idx in
      let k := hash cur in
      if k =? EMPTY_SLOT then Done None else
      let! hit := matches cur key_hash key in
      if hit then
        let! v := second cur in
        Done (Some v)
      else
        let! kidx := shr k (shift_ m) in
        let kdist := distance m idx kidx in
        if kdist <? dist then Done None else
        try_get_loop fuel m cells key_hash key (advance m idx) (u64 (dist + 1))
  end.

Definition try_get (fuel : nat) (m : Map) (key : K) : M (Slot K V) (option V) :=
  if empty m then ret None else
  let key_hash := hash_ key in
  let* idx := lift (shr key_hash (shift_ m)) in
  let* cells := load (data_ m) in
  lift (try_get_loop fuel m cells key_hash key idx 0).

Definition contains (fuel : nat) (m : Map) (key : K) : M (Slot K V) bool :=
  let* r := try_get fuel m key in
  ret (bool_decide (is_Some r)).

Definition get (fuel : nat) (m : Map) (key : K) : M (Slot K V) V :=
  let* value := try_get fuel m key in
  match value with
  | Some v => ret v
  | None => lift Abort
  end.

Fixpoint fix_up (fuel : nat) (m : Map) (cells : list (Slot K V)) (idx : Z)
  : result (list (Slot K V)) :=
  match fuel with
  | O => Timeout
  | S fuel =>
      let next := if idx =? u64 (capacity_ m - 1) then 0 else u64 (idx + 1) in
      let! nxt := cell_at cells next in
      let nexthash_ := hash nxt in
      if nexthash_ =? EMPTY_SLOT then Done cells else
      let! next_ideal := shr nexthash_ (shift_ m) in
      if next =? next_ideal then Done cells else
      (* data_[idx] = std::move(data_[next]) *)
      let! cur := cell_at cells idx in
      let! cur := assign_slot cur nxt in
      let! cells := cell_set cells idx cur in
      let! cells := cell_set cells next empty_slot in
      fix_up fuel m cells next
  end.

(** The loop of [try_erase]: the buffer it leaves when the key was found.
    The slot of the key is destroyed, and [fix_up] assigns to it only when
    the next slot holds an entry away from its ideal index; otherwise the
    slot stays as the destructor left it. *)
Fixpoint try_erase_loop (fuel : nat) (m : Map) (cells : list (Slot K V))
    (key_hash : Z) (key : K) (idx dist : Z) : result (option (list (Slot K V))) :=
  match fuel with
  | O => Timeout
  | S fuel' =>
      let! cur := cell_at cells idx in
      let k := hash cur in
      let! hit := matches cur key_hash key in
      if hit then
        (* data_[idx].~Slot() *)
        let! cur := destruct_slot cur in
        let! cells := cell_set cells idx cur in
        let! cells := fix_up fuel m cells idx in
        Done (Some cells)
      else
        let! kidx := shr k (shift_ m) in
        let kdist := distance m idx kidx in
        if kdist <? dist then Done None else
        try_erase_loop fuel' m cells key_hash key (advance m idx) (u64 (dist + 1))
  end.

Definition try_erase (fuel : nat) (m : Map) (key : K) : M (Slot K V) (Map * bool) :=
  if empty m then ret (m, false) else
  let key_hash := hash_ key in
  let* idx := lift (shr key_hash (shift_ m)) in
  let* cells := load (data_ m) in
  let* found := lift (try_erase_loop fuel m cells key_hash key idx 0) in
  match found with
  | Some cells =>
      let* _ := save (data_ m) cells in
      ret (mkMap (data_ m) (capacity_ m) (u64 (length_ m - 1)) (usable_ m) (shift_ m),
           true)
  | None => ret (m, false)
  end.

Definition erase (fuel : nat) (m : Map) (key : K) : M (Slot K V) Map :=
  let* (m, erased) := try_erase fuel m key in
  if erased then ret m else lift Abort.

(** The first [n] cells of [dst] receive what [copy] makes of those of
    [src]. *)
Fixpoint copy_slots (copy : Slot K V → result (Slot K V)) (src dst : list (Slot K V))
    (i : Z) (n : nat) : result (list (Slot K V)) :=
  match n with
  | O => Done dst
  | S n =>
      let! s := cell_at src i in
      let! c := copy s in
      let! dst := cell_set dst i c in
      copy_slots copy src dst (i + 1) n
  end.

Definition clone (m : Map) : M (Slot K V) Map :=
  let* ret_ := new (capacity_ m) in
  let ret_ := mkMap (data_ ret_) (capacity_ ret_) (length_ m) (usable_ ret_) (shift_ ret_) in
  let n := if Trivial_KV then capacity_ m else length_ m in
  let copy := if Trivial_KV then Done else clone_slot in
  let* src := (if n =? 0 then ret [] else load (data_ m)) in
  let* dst := load (data_ ret_) in
  let* dst := lift (copy_slots copy src dst 0 (Z.to_nat n)) in
  let* _ := save (data_ ret_) dst in
  ret ret_.

(** [data_[i].~Slot()] for the [n] slots from [i] on. *)
Fixpoint destroy_slots (cells : list (Slot K V)) (i : Z) (n : nat)
  : result (list (Slot K V)) :=
  match n with
  | O => Done cells
  | S n =>
      let! cur := cell_at cells i in
      let! cur := destruct_slot cur in
      let! cells := cell_set cells i cur in
      destroy_slots cells (i + 1) n
  end.

(** [std::memset(data_, EMPTY_SLOT, capacity_ * sizeof(Slot))]: every slot
    of the buffer becomes [EMPTY_SLOT]. *)
Definition wipe (m : Map) : M (Slot K V) unit :=
  if capacity_ m =? 0 then ret tt else
  let* cells := load (data_ m) in
  if capacity_ m <=? Z.of_nat (List.length cells) then
    save (data_ m)
      (replicate (Z.to_nat (capacity_ m)) empty_slot
         ++ drop (Z.to_nat (capacity_ m)) cells)
  else lift Fault.

(** [clear()]: the slots are destroyed one by one when the pairs need a
    destructor, and overwritten by the [memset] otherwise. *)
Definition clear (m : Map) : M (Slot K V) Map :=
  let* _ :=
    (if Must_Destruct then
       if capacity_ m =? 0 then ret tt else
       let* cells := load (data_ m) in
       let* cells := lift (destroy_slots cells 0 (Z.to_nat (capacity_ m))) in
       save (data_ m) cells
     else wipe m) in
  ret (mkMap (data_ m) (capacity_ m) 0 (usable_ m) (shift_ m)).

(** [~Map()]: the buffer is freed right after the slots are destroyed, so
    what the destroyed slots show is never read; [wipe] stands for it. *)
Definition destructor (m : Map) : M (Slot K V) Map :=
  let* _ := (if Must_Destruct then wipe m else ret tt) in
  let* _ := free (data_ m) in
  ret (mkMap 0 0 0 0 0).

(** [Map(Map&& src)]: the new map and what is left in [src]. *)
Definition move_construct (src : Map) : Map * Map :=
  (mkMap (data_ src) (capacity_ src) (length_ src) (usable_ src) (shift_ src),
   mkMap 0 0 0 0 0).

(** ** Tags, ideal indices and displacements *)

Hypothesis hash_of_range : ∀ k, 0 <= hash_of k < 2 ^ 64.

Lemma hash__range k : 0 < hash_ k < 2 ^ 64.
Proof.
  unfold hash_. pose proof (hash_of_range k) as [H0 H1].
  assert (0 <= Z.lor (hash_of k) 1) by (apply Z.lor_nonneg; lia).
  assert (Z.lor (hash_of k) 1 ≠ 0) as Hnz.
  { intros Hz. apply (f_equal (λ x, Z.testbit x 0)) in Hz.
    rewrite Z.lor_spec, orb_true_r in Hz. done. }
  split; [lia|].
  apply Z.log2_lt_pow2; [lia|].
  rewrite Z.log2_lor by lia.
  destruct (Z.eq_dec (hash_of k) 0) as [->|]; [simpl; lia|].
  assert (Z.log2 (hash_of k) < 64) by (apply Z.log2_lt_pow2; lia).
  change (Z.log2 1) with 0. pose proof (Z.log2_nonneg (hash_of k)). lia.
Qed.

Lemma new_slot_hash k v : hash (new_slot k v) = hash_ k.
Proof. done. Qed.

Lemma moved_new_slot k v : moved (new_slot k v) = new_slot k v.
Proof.
  unfold moved. rewrite new_slot_hash. pose proof (hash__range k).
  unfold EMPTY_SLOT. by replace (hash_ k =? 0) with false by lia.
Qed.

(** The table geometry that the probing loops rely on: the ideal index of
    every tag lies inside the table. *)
Definition geom (m : Map) : Prop :=
  2 <= capacity_ m < 2 ^ 62 ∧ 0 <= shift_ m < 64 ∧
  ∀ h, 0 <= h < 2 ^ 64 → 0 <= Z.shiftr h (shift_ m) < capacity_ m.

Lemma ctlz_geom data cap len us :
  2 <= cap < 2 ^ 62 → geom (mkMap data cap len us (u64 (ctlz cap + 1))).
Proof.
  intros Hcap. unfold geom. simpl.
  assert (1 <= Z.log2 cap < 62) as Hlog.
  { split.
    - apply Z.log2_le_pow2; simpl; lia.
    - apply Z.log2_lt_pow2; lia. }
  assert (u64 (ctlz cap + 1) = 64 - Z.log2 cap) as ->.
  { unfold ctlz. replace (cap <=? 0) with false by lia.
    rewrite u64_small by lia. lia. }
  split_and!; try lia.
  intros h Hh. split; [apply Z.shiftr_nonneg; lia|].
  rewrite Z.shiftr_div_pow2 by lia.
  apply Z.div_lt_upper_bound; [apply Z.pow_pos_nonneg; lia|].
  pose proof (Z.log2_spec cap ltac:(lia)) as [Hl _].
  assert (2 ^ 64 = 2 ^ (64 - Z.log2 cap) * 2 ^ Z.log2 cap) as Hpow.
  { rewrite <- Z.pow_add_r by lia. f_equal. lia. }
  assert (0 < 2 ^ (64 - Z.log2 cap)) by (apply Z.pow_pos_nonneg; lia).
  nia.
Qed.

(** ** Plain forms of the index arithmetic *)

Definition succ (n i : Z) : Z := if i + 1 =? n then 0 else i + 1.

Definition cdist (n i t : Z) : Z := if t <=? i then i - t else n + i - t.

Lemma advance_succ m i :
  capacity_ m < 2 ^ 62 → 0 <= i < capacity_ m → advance m i = succ (capacity_ m) i.
Proof. intros. unfold advance, succ. by rewrite u64_small by lia. Qed.

Lemma distance_cdist m i t :
  capacity_ m < 2 ^ 62 → 0 <= i < capacity_ m → 0 <= t < capacity_ m →
  distance m i t = cdist (capacity_ m) i t.
Proof.
  intros. unfold distance, cdist. destruct (t <=? i); [done|].
  by rewrite u64_small by lia.
Qed.

Lemma shr_Done m h : geom m → shr h (shift_ m) = Done (Z.shiftr h (shift_ m)).
Proof.
  intros (_ & Hs & _). unfold shr.
  replace (0 <=? shift_ m) with true by lia.
  by replace (shift_ m <? 64) with true by lia.
Qed.

(** The slot at index [i], its tag, and whether it is occupied. *)
Definition slot_at (cells : list (Slot K V)) (i : Z) : Slot K V :=
  default empty_slot (cells !! Z.to_nat i).

Definition tag (cells : list (Slot K V)) (i : Z) : Z := hash (slot_at cells i).

Definition occupied (cells : list (Slot K V)) (i : Z) : Prop := tag cells i ≠ 0.

(** [ideal(k) = hash(k) >> shift] *)
Definition ideal (m : Map) (h : Z) : Z := Z.shiftr h (shift_ m).

(** The displacement of the entry at index [i]:
    [(i - ideal) mod capacity]. *)
Definition disp (m : Map) (cells : list (Slot K V)) (i : Z) : Z :=
  distance m i (ideal m (tag cells i)).

Lemma cell_at_Done (cells : list (Slot K V)) i :
  0 <= i < Z.of_nat (List.length cells) → cell_at cells i = Done (slot_at cells i).
Proof.
  intros Hi. unfold cell_at, slot_at. replace (0 <=? i) with true by lia.
  destruct (cells !! Z.to_nat i) eqn:Hl; [done|].
  apply lookup_ge_None in Hl. lia.
Qed.

Lemma slot_at_insert (cells : list (Slot K V)) i s j :
  0 <= i < Z.of_nat (List.length cells) → 0 <= j →
  slot_at (<[Z.to_nat i := s]> cells) j = if j =? i then s else slot_at cells j.
Proof.
  intros Hi Hj. unfold slot_at. destruct (Z.eqb_spec j i) as [->|Hne].
  - by rewrite list_lookup_insert_eq by lia.
  - by rewrite list_lookup_insert_ne by lia.
Qed.

Lemma set_Done (cells : list (Slot K V)) i s :
  0 <= i < Z.of_nat (List.length cells) →
  cell_set cells i s = Done (<[Z.to_nat i := s]> cells).
Proof.
  intros Hi. unfold cell_set.
  replace (0 <=? i) with true by lia.
  by replace (i <? Z.of_nat (List.length cells)) with true by lia.
Qed.

(** ** The Robin Hood invariant *)

(** A slot is empty or holds a pair under the tag of its key. *)
Definition slot_ok (s : Slot K V) : Prop :=
  hash s = EMPTY_SLOT ∨ ∃ k v, s = new_slot k v.

(** Along the probe order, an entry that is away from its ideal index follows
    an entry, and it is displaced by at most one more than that entry: no
    empty slot lies between an entry and its ideal index, and ideal indices
    never go backwards inside a run of entries. *)
Definition rh (m : Map) (cells : list (Slot K V)) : Prop :=
  ∀ i, 0 <= i < capacity_ m →
    occupied cells (advance m i) → disp m cells (advance m i) ≠ 0 →
    occupied cells i ∧ disp m cells (advance m i) <= disp m cells i + 1.

Lemma slot_ok_range (s : Slot K V) : slot_ok s → 0 <= hash s < 2 ^ 64.
Proof.
  intros [->|(k & v & ->)]; [unfold EMPTY_SLOT; lia|].
  rewrite new_slot_hash. pose proof (hash__range k). lia.
Qed.

Lemma slot_at_ok cells i : Forall slot_ok cells → slot_ok (slot_at cells i).
Proof.
  intros Hall. unfold slot_at. destruct (cells !! Z.to_nat i) as [s|] eqn:Hs.
  - simpl. eapply Forall_lookup_1; eauto.
  - by left.
Qed.

Lemma tag_range cells i : Forall slot_ok cells → 0 <= tag cells i < 2 ^ 64.
Proof. intros. apply slot_ok_range. by apply slot_at_ok. Qed.

Lemma ideal_range m h : geom m → 0 <= h < 2 ^ 64 → 0 <= ideal m h < capacity_ m.
Proof. intros (_ & _ & Hg) Hh. by apply Hg. Qed.

Lemma tag_insert (cells : list (Slot K V)) i s j :
  0 <= i < Z.of_nat (List.length cells) → 0 <= j →
  tag (<[Z.to_nat i := s]> cells) j = if j =? i then hash s else tag cells j.
Proof.
  intros Hi Hj. unfold tag. rewrite slot_at_insert by done. by destruct (j =? i).
Qed.

Lemma Forall_ok_insert cells i s :
  Forall slot_ok cells → slot_ok s → Forall slot_ok (<[i := s]> cells).
Proof. intros. by apply Forall_insert. Qed.

(** Normalises the index arithmetic of a goal about one table of capacity
    [capacity_ m] and splits its case distinctions. *)
Local Ltac split_ifs :=
  repeat match goal with
  | H : context [if ?a <=? ?b then _ else _] |- _ => destruct (Z.leb_spec a b)
  | H : context [if ?a =? ?b then _ else _] |- _ => destruct (Z.eqb_spec a b)
  | |- context [if ?a <=? ?b then _ else _] => destruct (Z.leb_spec a b)
  | |- context [if ?a =? ?b then _ else _] => destruct (Z.eqb_spec a b)
  end.

Local Ltac plain m :=
  repeat match goal with
  | H : context [advance m ?i] |- _ => rewrite (advance_succ m i) in H by lia
  | |- context [advance m ?i] => rewrite (advance_succ m i) by lia
  | H : context [distance m ?i ?t] |- _ => rewrite (distance_cdist m i t) in H by lia
  | |- context [distance m ?i ?t] => rewrite (distance_cdist m i t) by lia
  end;
  unfold succ, cdist in *.

(** Writing at [idx] an entry that is displaced at least as much as the
    entry it replaces keeps the invariant, provided the entry before it
    allows that displacement. *)
Lemma rh_update m cells idx s :
  geom m → List.length cells = Z.to_nat (capacity_ m) → Forall slot_ok cells →
  rh m cells → 0 <= idx < capacity_ m → slot_ok s → hash s ≠ 0 →
  (occupied cells idx → disp m cells idx <= distance m idx (ideal m (hash s))) →
  (distance m idx (ideal m (hash s)) ≠ 0 →
     ∃ p, 0 <= p < capacity_ m ∧ advance m p = idx ∧ occupied cells p ∧
          distance m idx (ideal m (hash s)) <= disp m cells p + 1) →
  rh m (<[Z.to_nat idx := s]> cells).
Proof.
  intros Hg Hlen Hall Hrh Hidx Hs Hocc Hge Hpred i Hi.
  pose proof Hg as (Hcap & _ & _).
  pose proof (ideal_range m (hash s) Hg (slot_ok_range s Hs)) as Hids.
  pose proof (ideal_range m _ Hg (tag_range cells i Hall)) as Hidi.
  pose proof (ideal_range m _ Hg (tag_range cells idx Hall)) as Hididx.
  assert (0 <= advance m i < capacity_ m) as Hadv by (plain m; split_ifs; lia).
  pose proof (ideal_range m _ Hg (tag_range cells (advance m i) Hall)) as Hidj.
  specialize (Hrh i Hi).
  unfold occupied, disp in *. rewrite !tag_insert by lia.
  destruct (Z.eqb_spec (advance m i) idx) as [Hj|Hj];
    destruct (Z.eqb_spec i idx) as [Hi'|Hi'].
  - subst i. plain m. split_ifs; lia.
  - rewrite Hj. intros _ Hd. destruct (Hpred Hd) as (p & Hp & Hadvp & Hoccp & Hle).
    assert (p = i) as -> by (plain m; split_ifs; lia).
    done.
  - subst i. intros Ho Hd. destruct (Hrh Ho Hd) as [Ho' Hle]. split; [done|].
    specialize (Hge Ho'). lia.
  - done.
Qed.

(** ** Occupancy *)

(** The number of occupied slots. *)
Definition occupancy (cells : list (Slot K V)) : nat :=
  List.length (filter (λ s, hash s ≠ 0) cells).

Definition weight (s : Slot K V) : nat := if decide (hash s ≠ 0) then 1 else 0.

Lemma occupancy_cons s cells : occupancy (s :: cells) = (weight s + occupancy cells)%nat.
Proof.
  unfold occupancy, weight. rewrite filter_cons. by destruct (decide (hash s ≠ 0)).
Qed.

Lemma occupancy_insert_nat : ∀ cells (i : nat) s old,
  cells !! i = Some old →
  (occupancy (<[i := s]> cells) + weight old = occupancy cells + weight s)%nat.
Proof.
  induction cells as [|c cells IH]; intros [|i] s old Hl; simplify_eq/=.
  - rewrite !occupancy_cons. lia.
  - rewrite !occupancy_cons. specialize (IH i s old Hl). lia.
Qed.

Lemma occupancy_insert cells idx s :
  0 <= idx < Z.of_nat (List.length cells) →
  (occupancy (<[Z.to_nat idx := s]> cells) + weight (slot_at cells idx)
   = occupancy cells + weight s)%nat.
Proof.
  intros Hidx. destruct (cells !! Z.to_nat idx) as [old|] eqn:Hl.
  - unfold slot_at. rewrite Hl. simpl. by apply occupancy_insert_nat.
  - apply lookup_ge_None in Hl. lia.
Qed.

Lemma occupancy_le cells : (occupancy cells <= List.length cells)%nat.
Proof. unfold occupancy. apply length_filter. Qed.

(** A table with fewer entries than slots has an empty slot. *)
Lemma occupancy_empty_slot : ∀ cells,
  (occupancy cells < List.length cells)%nat →
  ∃ e, 0 <= e < Z.of_nat (List.length cells) ∧ tag cells e = 0.
Proof.
  induction cells as [|c cells IH]; intros Hlt; simpl in *; [lia|].
  rewrite occupancy_cons in Hlt. unfold weight in Hlt.
  destruct (decide (hash c ≠ 0)) as [Hc|Hc].
  - destruct IH as (e & He & Htag); [lia|].
    exists (e + 1). split; [lia|].
    unfold tag, slot_at in *. replace (Z.to_nat (e + 1)) with (S (Z.to_nat e)) by lia. done.
  - exists 0. split; [lia|]. unfold tag, slot_at. simpl. lia.
Qed.

Lemma weight_occupied (s : Slot K V) : hash s ≠ 0 → weight s = 1%nat.
Proof. intros. unfold weight. by destruct (decide (hash s ≠ 0)). Qed.

Lemma weight_empty (s : Slot K V) : hash s = 0 → weight s = 0%nat.
Proof. intros. unfold weight. by destruct (decide (hash s ≠ 0)). Qed.
Lemma moved_occupied (s : Slot K V) : hash s ≠ 0 → moved s = s.
Proof.
  intros Hs. unfold moved, EMPTY_SLOT. by replace (hash s =? 0) with false by lia.
Qed.

Lemma slot_ok_occupied (s : Slot K V) :
  slot_ok s → hash s ≠ 0 → ∃ k v, s = new_slot k v.
Proof. by intros [?|?] ?. Qed.

Lemma new_slot_ok k v : slot_ok (new_slot k v).
Proof. right. eauto. Qed.

Lemma new_slot_occupied k v : hash (new_slot k v) ≠ 0.
Proof. rewrite new_slot_hash. pose proof (hash__range k). lia. Qed.

Lemma same_entry_new kc vc k v :
  same_entry (new_slot kc vc) (new_slot k v)
  = Done (bool_decide (hash_ kc = hash_ k ∧ kc = k)).
Proof.
  unfold same_entry. rewrite !new_slot_hash. simpl.
  destruct (Z.eqb_spec (hash_ kc) (hash_ k)) as [Hh|Hh].
  - f_equal. apply bool_decide_ext. split; [intros ->; done|by intros [_ ->]].
  - f_equal. symmetry. apply bool_decide_eq_false. by intros [? _].
Qed.

(** [insert_slot] returns and keeps the invariant, whenever the table has an
    empty slot. *)
Lemma insert_slot_loop_rh fuel : ∀ m cells slot idx placement dist e,
  geom m → List.length cells = Z.to_nat (capacity_ m) → Forall slot_ok cells →
  rh m cells → (∃ k v, slot = new_slot k v) → 0 <= idx < capacity_ m →
  dist = distance m idx (ideal m (hash slot)) →
  (dist ≠ 0 →
     ∃ p, 0 <= p < capacity_ m ∧ advance m p = idx ∧ occupied cells p ∧
          dist <= disp m cells p + 1) →
  0 <= e < capacity_ m → ¬ occupied cells e →
  dist + cdist (capacity_ m) e idx < capacity_ m →
  (Z.to_nat (cdist (capacity_ m) e idx) < fuel)%nat →
  ∃ cells' placed,
    insert_slot_loop fuel m cells slot idx placement dist = Done (cells', placed) ∧
    List.length cells' = List.length cells ∧ Forall slot_ok cells' ∧ rh m cells' ∧
    (occupancy cells' <= occupancy cells + 1)%nat.
Proof.
  induction fuel as [|fuel IH];
    intros m cells slot idx placement dist e Hg Hlen Hall Hrh (k & v & ->) Hidx Hdist Hpred
      He Hempty Hgap Hfuel; [lia|].
  pose proof Hg as (Hcap & _ & _).
  simpl. rewrite cell_at_Done by lia. simpl.
  pose proof (slot_at_ok cells idx Hall) as Hcur.
  pose proof (new_slot_occupied k v) as Hocc.
  pose proof (new_slot_ok k v) as Hok.
  fold (tag cells idx). unfold EMPTY_SLOT.
  destruct (Z.eqb_spec (tag cells idx) 0) as [Hz|Hnz].
  { rewrite moved_new_slot, set_Done by lia. simpl. eexists _, _. split; [done|].
    split_and!.
    - by rewrite length_insert.
    - by apply Forall_ok_insert.
    - apply rh_update; try done. by rewrite <- Hdist.
    - pose proof (occupancy_insert cells idx (new_slot k v) ltac:(lia)) as Ho.
      rewrite (weight_occupied (new_slot k v)) in Ho by done. lia. }
  destruct (slot_ok_occupied _ Hcur Hnz) as (kc & vc & Hcureq).
  rewrite Hcureq, same_entry_new. simpl.
  pose proof (ideal_range m _ Hg (tag_range cells idx Hall)) as Hidc.
  pose proof (ideal_range m _ Hg (slot_ok_range _ Hok)) as Hids.
  assert (e ≠ idx) as Hne by (intros ->; done).
  assert (0 <= advance m idx < capacity_ m) as Hadv by (plain m; split_ifs; lia).
  case_bool_decide as Hsame.
  { rewrite moved_new_slot, set_Done by lia. simpl. eexists _, _. split; [done|].
    split_and!.
    - by rewrite length_insert.
    - by apply Forall_ok_insert.
    - apply rh_update; try done.
      + intros _. unfold disp, tag. rewrite Hcureq, !new_slot_hash.
        destruct Hsame as [-> _]. lia.
      + by rewrite <- Hdist.
    - pose proof (occupancy_insert cells idx (new_slot k v) ltac:(lia)) as Ho.
      rewrite (weight_occupied (slot_at cells idx)), (weight_occupied (new_slot k v)) in Ho by done.
      lia. }
  rewrite shr_Done by done. simpl.
  assert (hash (new_slot kc vc) = tag cells idx) as Htag by (unfold tag; by rewrite Hcureq).
  fold (ideal m (tag cells idx)). fold (disp m cells idx).
  destruct (Z.ltb_spec (disp m cells idx) dist) as [Hlt|Hge].
  - rewrite moved_new_slot, set_Done by lia. simpl.
    rewrite moved_occupied by (rewrite Htag; done).
    assert (0 <= disp m cells idx < capacity_ m) as Hd0
      by (unfold disp; plain m; split_ifs; lia).
    rewrite u64_small by lia.
    assert (rh m (<[Z.to_nat idx := new_slot k v]> cells)) as Hrh'.
    { apply rh_update; try done.
      - intros _. lia.
      - by rewrite <- Hdist. }
    destruct (IH m (<[Z.to_nat idx := new_slot k v]> cells) (new_slot kc vc) (advance m idx)
                (Some (default idx placement)) (disp m cells idx + 1) e)
      as (cells' & placed & -> & Hlen' & Hall' & Hrh'' & Hocc'); try done.
    + by rewrite length_insert.
    + by apply Forall_ok_insert.
    + eauto.
    + rewrite Htag. unfold disp in *. plain m. split_ifs; lia.
    + intros _. exists idx. split_and!; [lia|lia|done|..].
      * unfold occupied. rewrite tag_insert, Z.eqb_refl by lia. done.
      * unfold disp at 2. rewrite tag_insert, Z.eqb_refl by lia. lia.
    + unfold occupied. rewrite tag_insert by lia.
      by replace (e =? idx) with false by lia.
    + unfold disp in *. plain m. split_ifs; lia.
    + unfold disp in *. plain m. split_ifs; lia.
    + eexists _, _. split; [done|]. rewrite Hlen', length_insert. split_and!; try done.
      pose proof (occupancy_insert cells idx (new_slot k v) ltac:(lia)) as Ho.
      rewrite (weight_occupied (slot_at cells idx)), (weight_occupied (new_slot k v)) in Ho by done.
      lia.
  - assert (0 <= dist < capacity_ m) as Hd0 by (subst dist; plain m; split_ifs; lia).
    rewrite u64_small by lia.
    destruct (IH m cells (new_slot k v) (advance m idx) placement (dist + 1) e)
      as (cells' & placed & -> & Hlen' & Hall' & Hrh'' & Hocc'); try done.
    + eauto.
    + subst dist. plain m. split_ifs; lia.
    + intros _. exists idx. split_and!; [lia|lia|done|done|lia].
    + plain m. split_ifs; lia.
    + plain m. split_ifs; lia.
    + eexists _, _. done.
Qed.

(** ** The entries of a table *)

(** The table holds the pair ([k], [v]). *)
Definition entry (cells : list (Slot K V)) (k : K) (v : V) : Prop :=
  ∃ i, 0 <= i ∧ slot_at cells i = new_slot k v.

(** No key is stored twice. *)
Definition uniq (cells : list (Slot K V)) : Prop :=
  ∀ i j k v v', 0 <= i → 0 <= j →
    slot_at cells i = new_slot k v → slot_at cells j = new_slot k v' → i = j.

Lemma new_slot_inj k v k' v' : new_slot k v = new_slot k' v' → k = k' ∧ v = v'.
Proof. unfold new_slot. intros H. by simplify_eq. Qed.

Lemma slot_at_empty_not_entry cells i k v :
  tag cells i = 0 → slot_at cells i ≠ new_slot k v.
Proof.
  unfold tag. intros Hz Heq. rewrite Heq in Hz. by apply new_slot_occupied in Hz.
Qed.

(** Entries and uniqueness after one slot is overwritten. *)
Lemma entry_insert cells idx s k v :
  0 <= idx < Z.of_nat (List.length cells) →
  entry (<[Z.to_nat idx := s]> cells) k v ↔
    s = new_slot k v ∨ ∃ i, 0 <= i ∧ i ≠ idx ∧ slot_at cells i = new_slot k v.
Proof.
  intros Hidx. split.
  - intros (i & Hi & Hs). rewrite slot_at_insert in Hs by lia.
    destruct (Z.eqb_spec i idx); [by left|right; eauto].
  - intros [->|(i & Hi & Hne & Hs)].
    + exists idx. split; [lia|]. by rewrite slot_at_insert, Z.eqb_refl by lia.
    + exists i. split; [lia|]. rewrite slot_at_insert by lia.
      by replace (i =? idx) with false by lia.
Qed.

Lemma uniq_insert cells idx k v :
  0 <= idx < Z.of_nat (List.length cells) → uniq cells →
  (∀ i v', 0 <= i → i ≠ idx → slot_at cells i ≠ new_slot k v') →
  uniq (<[Z.to_nat idx := new_slot k v]> cells).
Proof.
  intros Hidx Hu Hfresh i j k' v1 v2 Hi Hj. rewrite !slot_at_insert by lia.
  destruct (Z.eqb_spec i idx) as [->|Hi']; destruct (Z.eqb_spec j idx) as [->|Hj']; try done.
  - intros [-> ->]%new_slot_inj Hs. by apply Hfresh in Hs.
  - intros Hs [-> ->]%new_slot_inj. by apply Hfresh in Hs.
  - apply Hu; lia.
Qed.

(** Inserting a key that the table does not hold adds its pair and changes
    nothing else. *)
Lemma insert_slot_loop_fresh fuel : ∀ m cells k v idx placement dist cells' placed,
  geom m → List.length cells = Z.to_nat (capacity_ m) → Forall slot_ok cells →
  0 <= idx < capacity_ m → uniq cells → (∀ v', ¬ entry cells k v') →
  insert_slot_loop fuel m cells (new_slot k v) idx placement dist = Done (cells', placed) →
  uniq cells' ∧
  (∀ k' v', entry cells' k' v' ↔ entry cells k' v' ∨ (k' = k ∧ v' = v)) ∧
  (occupancy cells' = S (occupancy cells)).
Proof.
  induction fuel as [|fuel IH];
    intros m cells k v idx placement dist cells' placed Hg Hlen Hall Hidx Hu Hfresh Hrun;
    [done|].
  pose proof Hg as (Hcap & _ & _).
  simpl in Hrun. rewrite cell_at_Done in Hrun by lia. simpl in Hrun.
  pose proof (slot_at_ok cells idx Hall) as Hcur.
  fold (tag cells idx) in Hrun. unfold EMPTY_SLOT in Hrun.
  assert (∀ i v', 0 <= i → i ≠ idx → slot_at cells i ≠ new_slot k v') as Hfresh'.
  { intros i v' Hi _ Hs. apply (Hfresh v'). by exists i. }
  destruct (Z.eqb_spec (tag cells idx) 0) as [Hz|Hnz].
  { rewrite moved_new_slot, set_Done in Hrun by lia. simpl in Hrun. simplify_eq.
    split_and!.
    - apply uniq_insert; [lia|done|done].
    - intros k' v'. rewrite entry_insert by lia. split.
      + intros [[-> ->]%new_slot_inj|(i & ? & ? & ?)]; [by right|left; by exists i].
      + intros [(i & Hi & Hs)|[-> ->]]; [right|by left].
        exists i. split_and!; try done. intros ->.
        by eapply slot_at_empty_not_entry.
    - pose proof (occupancy_insert cells idx (new_slot k v) ltac:(lia)) as Ho.
      rewrite (weight_occupied (new_slot k v)), (weight_empty (slot_at cells idx)) in Ho
        by (done || apply new_slot_occupied). lia. }
  destruct (slot_ok_occupied _ Hcur Hnz) as (kc & vc & Hcureq).
  rewrite Hcureq, same_entry_new in Hrun. simpl in Hrun.
  case_bool_decide as Hsame.
  { destruct Hsame as [_ ->]. exfalso. apply (Hfresh vc). exists idx. split; [lia|done]. }
  rewrite shr_Done in Hrun by done. simpl in Hrun.
  assert (0 <= advance m idx < capacity_ m) as Hadv by (plain m; split_ifs; lia).
  assert (kc ≠ k) as Hkc.
  { intros ->. apply (Hfresh vc). exists idx. split; [lia|done]. }
  destruct (distance m idx (tag cells idx ≫ shift_ m) <? dist).
  - rewrite moved_new_slot, set_Done in Hrun by lia. simpl in Hrun.
    rewrite moved_occupied in Hrun by apply new_slot_occupied.
    eapply IH in Hrun as (Hu' & Hent & Hocc); try done.
    + split_and!; [done| |].
      * intros k' v'. rewrite Hent, entry_insert by lia. split.
        -- intros [[[-> ->]%new_slot_inj|(i & ? & ? & ?)]|[-> ->]].
           ++ by right.
           ++ left. by exists i.
           ++ left. exists idx. split; [lia|done].
        -- intros [(i & Hi & Hs)|[-> ->]].
           ++ destruct (Z.eq_dec i idx) as [->|Hne].
              ** rewrite Hcureq in Hs. apply new_slot_inj in Hs as [-> ->]. by right.
              ** left. right. by exists i.
           ++ left. by left.
      * rewrite Hocc. f_equal.
        pose proof (occupancy_insert cells idx (new_slot k v) ltac:(lia)) as Ho.
        rewrite (weight_occupied (new_slot k v)), (weight_occupied (slot_at cells idx)) in Ho
          by (done || apply new_slot_occupied). lia.
    + by rewrite length_insert.
    + apply Forall_ok_insert; [done|apply new_slot_ok].
    + apply uniq_insert; [lia|done|done].
    + intros v' (i & Hi & Hs). rewrite slot_at_insert in Hs by lia.
      destruct (Z.eqb_spec i idx) as [->|Hne].
      * by apply new_slot_inj in Hs as [-> _].
      * assert (i = idx); [|done]. eapply Hu; eauto. lia.
  - eapply IH in Hrun; try done.
Qed.

(** ** Probing along a run *)

(** The index [i] steps before [p]. *)
Definition back (n p i : Z) : Z := if i <=? p then p - i else n + p - i.

(** Every slot between the ideal index of an entry and the entry is
    occupied, by an entry displaced at least as much as the probe has
    advanced. *)
Lemma rh_chain m cells p :
  geom m → List.length cells = Z.to_nat (capacity_ m) → Forall slot_ok cells →
  rh m cells → 0 <= p < capacity_ m → occupied cells p →
  ∀ i : nat, Z.of_nat i <= disp m cells p →
    occupied cells (back (capacity_ m) p (Z.of_nat i)) ∧
    disp m cells p - Z.of_nat i <= disp m cells (back (capacity_ m) p (Z.of_nat i)).
Proof.
  intros Hg Hlen Hall Hrh Hp Hocc. pose proof Hg as (Hcap & _ & _).
  pose proof (ideal_range m _ Hg (tag_range cells p Hall)) as Hidp.
  assert (0 <= disp m cells p < capacity_ m) as Hdp
    by (unfold disp; plain m; split_ifs; lia).
  induction i as [|i IH]; intros Hi.
  { unfold back. change (Z.of_nat 0) with 0. replace (0 <=? p) with true by lia.
    rewrite Z.sub_0_r. split; [done|lia]. }
  destruct IH as [Hoi Hdi]; [lia|].
  set (q := back (capacity_ m) p (Z.of_nat (S i))).
  assert (0 <= q < capacity_ m) as Hq by (subst q; unfold back; split_ifs; lia).
  assert (advance m q = back (capacity_ m) p (Z.of_nat i)) as Hadv.
  { subst q. unfold back in *. plain m. split_ifs; lia. }
  pose proof (Hrh q Hq) as Hq'. rewrite Hadv in Hq'.
  destruct Hq' as [Hoq Hdq]; [done|lia|]. split; [done|lia].
Qed.

Lemma back_disp m cells p :
  geom m → Forall slot_ok cells → 0 <= p < capacity_ m →
  back (capacity_ m) p (disp m cells p) = ideal m (tag cells p).
Proof.
  intros Hg Hall Hp. pose proof Hg as (Hcap & _ & _).
  pose proof (ideal_range m _ Hg (tag_range cells p Hall)) as Hidp.
  unfold back, disp. plain m. split_ifs; lia.
Qed.

Lemma matches_new kc vc h k :
  matches (new_slot kc vc) h k = Done (bool_decide (hash_ kc = h ∧ kc = k)).
Proof.
  unfold matches. rewrite new_slot_hash. simpl.
  destruct (Z.eqb_spec (hash_ kc) h) as [Hh|Hh].
  - f_equal. apply bool_decide_ext. split; [intros ->; done|by intros [_ ->]].
  - f_equal. symmetry. apply bool_decide_eq_false. by intros [? _].
Qed.

Lemma matches_empty (s : Slot K V) k : hash s = 0 → matches s (hash_ k) k = Done false.
Proof.
  intros Hs. unfold matches. rewrite Hs. pose proof (hash__range k).
  by replace (0 =? hash_ k) with false by lia.
Qed.

(** The probe of [try_get] reaches a stored key. *)
Lemma try_get_loop_hit m cells p k v :
  geom m → List.length cells = Z.to_nat (capacity_ m) → Forall slot_ok cells →
  rh m cells → uniq cells → 0 <= p < capacity_ m → slot_at cells p = new_slot k v →
  ∀ (i : nat) fuel, Z.of_nat i <= disp m cells p → (i < fuel)%nat →
    try_get_loop fuel m cells (hash_ k) k
      (back (capacity_ m) p (Z.of_nat i)) (disp m cells p - Z.of_nat i)
    = Done (Some v).
Proof.
  intros Hg Hlen Hall Hrh Hu Hp Hs. pose proof Hg as (Hcap & _ & _).
  assert (occupied cells p) as Hocc.
  { unfold occupied, tag. rewrite Hs. apply new_slot_occupied. }
  pose proof (ideal_range m _ Hg (tag_range cells p Hall)) as Hidp.
  assert (0 <= disp m cells p < capacity_ m) as Hdp
    by (unfold disp; plain m; split_ifs; lia).
  induction i as [|i IH]; intros fuel Hi Hfuel; (destruct fuel as [|fuel]; [lia|]).
  - unfold back. change (Z.of_nat 0) with 0. replace (0 <=? p) with true by lia.
    rewrite !Z.sub_0_r.
    simpl. rewrite cell_at_Done by lia. simpl. rewrite Hs.
    pose proof (new_slot_occupied k v). unfold EMPTY_SLOT.
    replace (hash (new_slot k v) =? 0) with false by lia.
    rewrite matches_new. rewrite bool_decide_eq_true_2 by done. done.
  - destruct (rh_chain m cells p Hg Hlen Hall Hrh Hp Hocc (S i) Hi) as [Hoq Hdq].
    replace (Z.of_nat (S i)) with (Z.of_nat i + 1) in * by lia.
    set (q := back (capacity_ m) p (Z.of_nat i + 1)) in *.
    assert (0 <= q < capacity_ m) as Hq by (subst q; unfold back; split_ifs; lia).
    assert (q ≠ p) as Hqp by (subst q; unfold back; split_ifs; lia).
    assert (advance m q = back (capacity_ m) p (Z.of_nat i)) as Hadv.
    { subst q. unfold back in *. plain m. split_ifs; lia. }
    simpl. rewrite cell_at_Done by lia. simpl.
    fold (tag cells q). unfold EMPTY_SLOT.
    replace (tag cells q =? 0) with false by (unfold occupied in Hoq; lia).
    destruct (slot_ok_occupied _ (slot_at_ok cells q Hall) Hoq) as (kc & vc & Hcur).
    rewrite Hcur, matches_new. rewrite bool_decide_eq_false_2; last first.
    { intros [_ ->]. apply Hqp. eapply Hu; eauto; lia. }
    simpl. rewrite shr_Done by done. simpl.
    fold (ideal m (tag cells q)). fold (disp m cells q).
    replace (disp m cells q <? disp m cells p - (Z.of_nat i + 1)) with false by lia.
    rewrite Hadv, u64_small by lia.
    replace (disp m cells p - (Z.of_nat i + 1) + 1) with (disp m cells p - Z.of_nat i) by lia.
    apply IH; lia.
Qed.

(** The probe of [try_get] gives up on a key that is not stored. *)
Lemma try_get_loop_miss fuel : ∀ m cells k idx dist,
  geom m → List.length cells = Z.to_nat (capacity_ m) → Forall slot_ok cells →
  (∀ v, ¬ entry cells k v) → 0 <= idx < capacity_ m → 0 <= dist <= capacity_ m →
  (Z.to_nat (capacity_ m - dist) < fuel)%nat →
  try_get_loop fuel m cells (hash_ k) k idx dist = Done None.
Proof.
  induction fuel as [|fuel IH]; intros m cells k idx dist Hg Hlen Hall Hfresh Hidx Hdist Hfuel;
    [lia|].
  pose proof Hg as (Hcap & _ & _).
  simpl. rewrite cell_at_Done by lia. simpl. fold (tag cells idx). unfold EMPTY_SLOT.
  destruct (Z.eqb_spec (tag cells idx) 0) as [Hz|Hnz]; [done|].
  destruct (slot_ok_occupied _ (slot_at_ok cells idx Hall) Hnz) as (kc & vc & Hcur).
  rewrite Hcur, matches_new. rewrite bool_decide_eq_false_2; last first.
  { intros [_ ->]. apply (Hfresh vc). exists idx. split; [lia|done]. }
  simpl. rewrite shr_Done by done. simpl.
  fold (ideal m (tag cells idx)). fold (disp m cells idx).
  pose proof (ideal_range m _ Hg (tag_range cells idx Hall)) as Hid.
  assert (0 <= disp m cells idx < capacity_ m) as Hd
    by (unfold disp; plain m; split_ifs; lia).
  destruct (Z.ltb_spec (disp m cells idx) dist); [done|].
  rewrite u64_small by lia. apply IH; try done.
  - plain m. split_ifs; lia.
  - lia.
  - lia.
Qed.

(** The probe of [insert_slot] reaches a stored key and overwrites its slot
    in place. *)
Lemma insert_slot_loop_hit m cells p k v0 v placement :
  geom m → List.length cells = Z.to_nat (capacity_ m) → Forall slot_ok cells →
  rh m cells → uniq cells → 0 <= p < capacity_ m → slot_at cells p = new_slot k v0 →
  ∀ (i : nat) fuel, Z.of_nat i <= disp m cells p → (i < fuel)%nat →
    insert_slot_loop fuel m cells (new_slot k v)
      (back (capacity_ m) p (Z.of_nat i)) placement (disp m cells p - Z.of_nat i)
    = Done (<[Z.to_nat p := new_slot k v]> cells, p).
Proof.
  intros Hg Hlen Hall Hrh Hu Hp Hs. pose proof Hg as (Hcap & _ & _).
  assert (occupied cells p) as Hocc.
  { unfold occupied, tag. rewrite Hs. apply new_slot_occupied. }
  pose proof (ideal_range m _ Hg (tag_range cells p Hall)) as Hidp.
  assert (0 <= disp m cells p < capacity_ m) as Hdp
    by (unfold disp; plain m; split_ifs; lia).
  induction i as [|i IH]; intros fuel Hi Hfuel; (destruct fuel as [|fuel]; [lia|]).
  - unfold back. change (Z.of_nat 0) with 0. replace (0 <=? p) with true by lia.
    rewrite !Z.sub_0_r.
    simpl. rewrite cell_at_Done by lia. simpl. rewrite Hs.
    pose proof (new_slot_occupied k v0). unfold EMPTY_SLOT.
    replace (hash (new_slot k v0) =? 0) with false by lia.
    rewrite same_entry_new. rewrite bool_decide_eq_true_2 by done. simpl.
    rewrite moved_new_slot, set_Done by lia. done.
  - destruct (rh_chain m cells p Hg Hlen Hall Hrh Hp Hocc (S i) Hi) as [Hoq Hdq].
    replace (Z.of_nat (S i)) with (Z.of_nat i + 1) in * by lia.
    set (q := back (capacity_ m) p (Z.of_nat i + 1)) in *.
    assert (0 <= q < capacity_ m) as Hq by (subst q; unfold back; split_ifs; lia).
    assert (q ≠ p) as Hqp by (subst q; unfold back; split_ifs; lia).
    assert (advance m q = back (capacity_ m) p (Z.of_nat i)) as Hadv.
    { subst q. unfold back in *. plain m. split_ifs; lia. }
    simpl. rewrite cell_at_Done by lia. simpl.
    fold (tag cells q). unfold EMPTY_SLOT.
    replace (tag cells q =? 0) with false by (unfold occupied in Hoq; lia).
    destruct (slot_ok_occupied _ (slot_at_ok cells q Hall) Hoq) as (kc & vc & Hcur).
    rewrite Hcur, same_entry_new. rewrite bool_decide_eq_false_2; last first.
    { intros [_ ->]. apply Hqp. eapply Hu; eauto; lia. }
    simpl. rewrite shr_Done by done. simpl.
    fold (ideal m (tag cells q)). fold (disp m cells q).
    replace (disp m cells q <? disp m cells p - (Z.of_nat i + 1)) with false by lia.
    rewrite Hadv, u64_small by lia.
    replace (disp m cells p - (Z.of_nat i + 1) + 1) with (disp m cells p - Z.of_nat i) by lia.
    apply IH; lia.
Qed.

(** What overwriting the slot of a stored key leaves. *)
Lemma overwrite_spec m cells p k v0 v :
  geom m → List.length cells = Z.to_nat (capacity_ m) → Forall slot_ok cells →
  rh m cells → uniq cells → 0 <= p < capacity_ m → slot_at cells p = new_slot k v0 →
  let cells' := <[Z.to_nat p := new_slot k v]> cells in
  List.length cells' = List.length cells ∧ Forall slot_ok cells' ∧ rh m cells' ∧
  uniq cells' ∧ occupancy cells' = occupancy cells ∧
  (∀ k' v', entry cells' k' v' ↔ (k' = k ∧ v' = v) ∨ (k' ≠ k ∧ entry cells k' v')).
Proof.
  intros Hg Hlen Hall Hrh Hu Hp Hs cells'. pose proof Hg as (Hcap & _ & _).
  assert (occupied cells p) as Hocc.
  { unfold occupied, tag. rewrite Hs. apply new_slot_occupied. }
  assert (∀ i v', 0 <= i → i ≠ p → slot_at cells i ≠ new_slot k v') as Hfresh.
  { intros i v' Hi Hne Hsi. apply Hne. eapply Hu; eauto. lia. }
  subst cells'. split_and!.
  - by rewrite length_insert.
  - apply Forall_ok_insert; [done|apply new_slot_ok].
  - apply rh_update; try done.
    + apply new_slot_ok.
    + apply new_slot_occupied.
    + intros _. unfold disp, tag. rewrite Hs, !new_slot_hash. lia.
    + assert (distance m p (ideal m (hash (new_slot k v))) = disp m cells p) as ->
        by (unfold disp, tag; by rewrite Hs).
      intros Hd.
      set (q := back (capacity_ m) p 1).
      assert (0 <= q < capacity_ m) as Hq by (subst q; unfold back; split_ifs; lia).
      assert (advance m q = p) as Hadv.
      { rewrite advance_succ by lia. subst q. unfold back, succ. split_ifs; lia. }
      exists q. pose proof (Hrh q Hq) as Hq'. rewrite Hadv in Hq'.
      destruct Hq' as [? ?]; [done|done|]. split_and!; try done; lia.
  - apply uniq_insert; [lia|done|done].
  - pose proof (occupancy_insert cells p (new_slot k v) ltac:(lia)) as Ho.
    rewrite (weight_occupied (new_slot k v)), (weight_occupied (slot_at cells p)) in Ho
      by (done || apply new_slot_occupied). lia.
  - intros k' v'. rewrite entry_insert by lia. split.
    + intros [[-> ->]%new_slot_inj|(i & Hi & Hne & Hsi)]; [by left|right].
      split; [|by exists i]. intros ->. by eapply Hfresh.
    + intros [[-> ->]|[Hne (i & Hi & Hsi)]]; [by left|right].
      exists i. split_and!; try done. intros ->. rewrite Hs in Hsi.
      by apply new_slot_inj in Hsi as [-> _].
Qed.

(** ** Backward-shift repair *)

(** The table while [fix_up] runs: the slot [h] is a hole, the invariant
    holds at every pair of neighbours except across the hole, and [b], the
    displacement of the entry last taken out of the hole, bounds what the
    entry after the hole may have. *)
Definition hole_inv (m : Map) (cells : list (Slot K V)) (h b : Z) : Prop :=
  tag cells h = 0 ∧
  (∀ i, 0 <= i < capacity_ m → i ≠ h →
     occupied cells (advance m i) → disp m cells (advance m i) ≠ 0 →
     occupied cells i ∧ disp m cells (advance m i) <= disp m cells i + 1) ∧
  (occupied cells (advance m h) → disp m cells (advance m h) <= b + 1) ∧
  (b ≠ 0 →
     ∃ p, 0 <= p < capacity_ m ∧ advance m p = h ∧ occupied cells p ∧
          b <= disp m cells p + 1).

Lemma empty_not_new k v : empty_slot ≠ new_slot k v.
Proof.
  intros Hs. apply (f_equal hash) in Hs. simpl in Hs.
  pose proof (hash__range k). unfold EMPTY_SLOT in Hs. lia.
Qed.

Lemma next_advance m idx :
  2 <= capacity_ m < 2 ^ 62 → 0 <= idx < capacity_ m →
  (if idx =? u64 (capacity_ m - 1) then 0 else u64 (idx + 1)) = advance m idx.
Proof.
  intros Hcap Hidx. rewrite advance_succ by lia. unfold succ.
  rewrite !u64_small by lia.
  destruct (Z.eqb_spec idx (capacity_ m - 1)); destruct (Z.eqb_spec (idx + 1) (capacity_ m)); lia.
Qed.

Lemma assign_slot_empty (this slot : Slot K V) :
  hash this = EMPTY_SLOT → assign_slot this slot = Done (moved slot).
Proof.
  intros Hh. unfold assign_slot, destruct_slot. rewrite Hh, Z.eqb_refl.
  by rewrite andb_false_r.
Qed.

Lemma fix_up_spec fuel : ∀ m cells h b e,
  geom m → List.length cells = Z.to_nat (capacity_ m) → Forall slot_ok cells →
  0 <= h < capacity_ m → hole_inv m cells h b →
  0 <= e < capacity_ m → e ≠ h → tag cells e = 0 →
  (Z.to_nat (cdist (capacity_ m) e h) <= fuel)%nat →
  ∃ cells', fix_up fuel m cells h = Done cells' ∧
    List.length cells' = List.length cells ∧ Forall slot_ok cells' ∧ rh m cells' ∧
    occupancy cells' = occupancy cells ∧
    (uniq cells → uniq cells') ∧
    (∀ k v, entry cells' k v ↔ entry cells k v).
Proof.
  induction fuel as [|fuel IH];
    intros m cells h b e Hg Hlen Hall Hh (Hhole & Hpairs & Hnext & Hprev) He Heh Hempty Hfuel.
  { pose proof Hg as (Hcap & _ & _). unfold cdist in Hfuel. split_ifs; lia. }
  pose proof Hg as (Hcap & _ & _).
  simpl. rewrite next_advance by lia.
  remember (advance m h) as nx eqn:Hnxdef in *.
  assert (0 <= nx < capacity_ m ∧ nx ≠ h) as [Hnx Hnxh]
    by (plain m; split_ifs; lia).
  rewrite cell_at_Done by lia. simpl. fold (tag cells nx). unfold EMPTY_SLOT.
  pose proof (ideal_range m _ Hg (tag_range cells nx Hall)) as Hidn.
  assert (disp m cells nx = 0 ↔ nx = ideal m (tag cells nx)) as Hdisp0
    by (unfold disp; plain m; split_ifs; lia).
  destruct (Z.eqb_spec (tag cells nx) 0) as [Hz|Hnz].
  { exists cells. split_and!; try done.
    intros i Hi. destruct (Z.eq_dec i h) as [->|Hne]; [|by apply Hpairs].
    rewrite <- Hnxdef. intros Ho. by destruct Ho. }
  rewrite shr_Done by done. simpl. fold (ideal m (tag cells nx)).
  destruct (Z.eqb_spec nx (ideal m (tag cells nx))) as [Hid|Hid].
  { exists cells. split_and!; try done.
    intros i Hi. destruct (Z.eq_dec i h) as [->|Hne]; [|by apply Hpairs].
    rewrite <- Hnxdef. intros _ Hd. apply Hdisp0 in Hid. by destruct Hd. }
  assert (disp m cells nx ≠ 0) as Hdn by (intros Hd; by apply Hdisp0 in Hd).
  assert (0 <= disp m cells nx < capacity_ m) as Hdr
    by (unfold disp; plain m; split_ifs; lia).
  rewrite cell_at_Done by lia. cbn [rbind].
  rewrite assign_slot_empty by exact Hhole. cbn [rbind].
  rewrite moved_occupied by done.
  rewrite set_Done by lia. simpl. rewrite set_Done by (rewrite length_insert; lia). simpl.
  set (cells2 := <[Z.to_nat nx := empty_slot]> (<[Z.to_nat h := slot_at cells nx]> cells)).
  assert (∀ i, 0 <= i → slot_at cells2 i =
            if i =? nx then empty_slot else if i =? h then slot_at cells nx else slot_at cells i)
    as Hslot.
  { intros i Hi. subst cells2. rewrite slot_at_insert by (rewrite ?length_insert; lia).
    destruct (i =? nx); [done|]. by rewrite slot_at_insert by lia. }
  assert (∀ i, 0 <= i → tag cells2 i =
            if i =? nx then 0 else if i =? h then tag cells nx else tag cells i) as Htag.
  { intros i Hi. unfold tag. rewrite Hslot by done.
    destruct (i =? nx); [done|]. by destruct (i =? h). }
  assert (disp m cells2 h = disp m cells nx - 1) as Hdh.
  { unfold disp. rewrite Htag by lia.
    replace (h =? nx) with false by lia. rewrite Z.eqb_refl.
    unfold disp in Hdn, Hdr. plain m. split_ifs; lia. }
  assert (∀ i, 0 <= i → i ≠ nx → i ≠ h → disp m cells2 i = disp m cells i) as Hdo.
  { intros i Hi H1 H2. unfold disp. rewrite Htag by lia.
    replace (i =? nx) with false by lia. by replace (i =? h) with false by lia. }
  destruct (IH m cells2 nx (disp m cells nx) e) as (cells' & -> & Hlen' & Hall' & Hrh' & Hocc' & Hu' & Hent');
    try done.
  - subst cells2. by rewrite !length_insert.
  - subst cells2. apply Forall_ok_insert; [|by left].
    apply Forall_ok_insert; [done|]. by apply slot_at_ok.
  - split_and!.
    + rewrite Htag by lia. by rewrite Z.eqb_refl.
    + intros i Hi Hine.
      assert (0 <= advance m i < capacity_ m) as Ha by (plain m; split_ifs; lia).
      unfold occupied. rewrite (Htag (advance m i)) by lia.
      destruct (Z.eqb_spec (advance m i) nx) as [Hanx|Hanx]; [done|].
      destruct (Z.eqb_spec (advance m i) h) as [Hah|Hah].
      * intros _. rewrite Hah, Hdh. intros Hd.
        assert (i ≠ h) as Hih by (intros ->; lia).
        rewrite Htag, Hdo by lia.
        replace (i =? nx) with false by lia. replace (i =? h) with false by lia.
        specialize (Hnext Hnz).
        destruct Hprev as (p & Hp & Hap & Hop & Hbp); [lia|].
        assert (p = i) as -> by (revert Hap Hah; plain m; split_ifs; lia).
        split; [done|lia].
      * assert (i ≠ h) as Hih by (intros ->; lia).
        rewrite Htag, !Hdo by lia.
        replace (i =? nx) with false by lia. replace (i =? h) with false by lia.
        by apply Hpairs.
    + assert (0 <= advance m nx < capacity_ m) as Ha by (plain m; split_ifs; lia).
      assert (advance m nx ≠ nx) as Hann by (plain m; split_ifs; lia).
      unfold occupied. rewrite (Htag (advance m nx)) by lia.
      replace (advance m nx =? nx) with false by lia.
      destruct (Z.eqb_spec (advance m nx) h) as [Hah|Hah].
      * intros _. rewrite Hah, Hdh. lia.
      * intros Ho. rewrite Hdo by lia.
        destruct (Z.eq_dec (disp m cells (advance m nx)) 0) as [->|Hd0]; [lia|].
        by apply Hpairs.
    + intros _. exists h. split_and!; [lia|lia|done|..].
      * unfold occupied. rewrite Htag by lia.
        replace (h =? nx) with false by lia. by rewrite Z.eqb_refl.
      * rewrite Hdh. lia.
  - intros ->. done.
  - rewrite Htag by lia. replace (e =? nx) with false by (assert (e ≠ nx) by (intros ->; done); lia).
    by replace (e =? h) with false by lia.
  - assert (e ≠ nx) as Henx by (intros ->; done).
    plain m. split_ifs; lia.
  - exists cells'. split_and!; try done.
    + rewrite Hlen'. subst cells2. by rewrite !length_insert.
    + rewrite Hocc'. subst cells2.
      pose proof (occupancy_insert cells h (slot_at cells nx) ltac:(lia)) as Ho1.
      pose proof (occupancy_insert (<[Z.to_nat h := slot_at cells nx]> cells) nx empty_slot
                    ltac:(rewrite length_insert; lia)) as Ho2.
      rewrite slot_at_insert in Ho2 by lia. replace (nx =? h) with false in Ho2 by lia.
      rewrite (weight_empty (slot_at cells h)), (weight_occupied (slot_at cells nx)) in Ho1 by done.
      rewrite (weight_empty empty_slot), (weight_occupied (slot_at cells nx)) in Ho2 by done.
      lia.
    + intros Hu. apply Hu'. intros i j k v v' Hi Hj. rewrite !Hslot by done.
      destruct (Z.eqb_spec i nx) as [->|Hinx]; [intros Hs; by apply empty_not_new in Hs|].
      destruct (Z.eqb_spec j nx) as [->|Hjnx]; [intros _ Hs; by apply empty_not_new in Hs|].
      destruct (Z.eqb_spec i h) as [->|Hih]; destruct (Z.eqb_spec j h) as [->|Hjh]; try done.
      * intros H1 H2. exfalso. apply Hjnx. symmetry. eapply Hu; eauto; lia.
      * intros H1 H2. exfalso. apply Hinx. eapply Hu; eauto; lia.
      * apply Hu; lia.
    + intros k v. rewrite Hent'. split.
      * intros (i & Hi & Hs). rewrite Hslot in Hs by done.
        destruct (Z.eqb_spec i nx) as [->|Hinx]; [by apply empty_not_new in Hs|].
        destruct (Z.eqb_spec i h) as [->|Hih]; [exists nx|exists i]; split; try done; lia.
      * intros (i & Hi & Hs).
        destruct (Z.eq_dec i nx) as [->|Hinx].
        -- exists h. split; [lia|]. rewrite Hslot by lia.
           replace (h =? nx) with false by lia. by rewrite Z.eqb_refl.
        -- assert (i ≠ h) as Hih.
           { intros ->. by apply (slot_at_empty_not_entry cells h k v). }
           exists i. split; [lia|]. rewrite Hslot by lia.
           replace (i =? nx) with false by lia. by replace (i =? h) with false by lia.
Qed.

(** The repair of a hole that is an empty slot, started at the slot of a
    stored key. *)
Lemma erase_at_spec fuel m cells p k v0 e :
  geom m → List.length cells = Z.to_nat (capacity_ m) → Forall slot_ok cells →
  rh m cells → uniq cells → 0 <= p < capacity_ m → slot_at cells p = new_slot k v0 →
  0 <= e < capacity_ m → tag cells e = 0 → (Z.to_nat (capacity_ m) <= fuel)%nat →
  ∃ cells',
    (let! cells0 := cell_set cells p empty_slot in fix_up fuel m cells0 p) = Done cells' ∧
    List.length cells' = List.length cells ∧ Forall slot_ok cells' ∧ rh m cells' ∧
    uniq cells' ∧ S (occupancy cells') = occupancy cells ∧
    (∀ k' v', entry cells' k' v' ↔ k' ≠ k ∧ entry cells k' v').
Proof.
  intros Hg Hlen Hall Hrh Hu Hp Hs He Hempty Hfuel. pose proof Hg as (Hcap & _ & _).
  assert (occupied cells p) as Hocc.
  { unfold occupied, tag. rewrite Hs. apply new_slot_occupied. }
  assert (e ≠ p) as Hep by (intros ->; done).
  rewrite set_Done by lia. simpl.
  set (cells0 := <[Z.to_nat p := empty_slot]> cells).
  assert (∀ i, 0 <= i → tag cells0 i = if i =? p then 0 else tag cells i) as Htag.
  { intros i Hi. subst cells0. by rewrite tag_insert by lia. }
  assert (∀ i, 0 <= i → i ≠ p → disp m cells0 i = disp m cells i) as Hdo.
  { intros i Hi Hne. unfold disp. rewrite Htag by lia. by replace (i =? p) with false by lia. }
  pose proof (ideal_range m _ Hg (tag_range cells p Hall)) as Hidp.
  assert (0 <= disp m cells p < capacity_ m) as Hdp
    by (unfold disp; plain m; split_ifs; lia).
  destruct (fix_up_spec fuel m cells0 p (disp m cells p) e)
    as (cells' & -> & Hlen' & Hall' & Hrh' & Hocc' & Hu' & Hent'); try done.
  - subst cells0. by rewrite length_insert.
  - subst cells0. apply Forall_ok_insert; [done|by left].
  - split_and!.
    + rewrite Htag by lia. by rewrite Z.eqb_refl.
    + intros i Hi Hne.
      assert (0 <= advance m i < capacity_ m) as Ha by (plain m; split_ifs; lia).
      unfold occupied. rewrite (Htag (advance m i)), (Htag i) by lia.
      replace (i =? p) with false by lia.
      destruct (Z.eqb_spec (advance m i) p) as [Hap|Hap]; [done|].
      rewrite !Hdo by lia. by apply Hrh.
    + assert (0 <= advance m p < capacity_ m ∧ advance m p ≠ p) as [Ha Hap]
        by (plain m; split_ifs; lia).
      unfold occupied. rewrite (Htag (advance m p)) by lia.
      replace (advance m p =? p) with false by lia. rewrite Hdo by lia. intros Ho.
      destruct (Z.eq_dec (disp m cells (advance m p)) 0) as [->|Hd0]; [lia|].
      by apply Hrh.
    + intros Hd. set (q := back (capacity_ m) p 1).
      assert (0 <= q < capacity_ m ∧ q ≠ p) as [Hq Hqp]
        by (subst q; unfold back; split_ifs; lia).
      assert (advance m q = p) as Hadv.
      { rewrite advance_succ by lia. subst q. unfold back, succ. split_ifs; lia. }
      exists q. pose proof (Hrh q Hq) as Hq'. rewrite Hadv in Hq'.
      destruct Hq' as [? ?]; [done|done|].
      unfold occupied. rewrite Htag, Hdo by lia. replace (q =? p) with false by lia.
      split_and!; try done; lia.
  - rewrite Htag by lia. by replace (e =? p) with false by lia.
  - unfold cdist. split_ifs; lia.
  - exists cells'. split_and!; try done.
    + rewrite Hlen'. subst cells0. by rewrite length_insert.
    + apply Hu'. intros i j k1 v1 v2 Hi Hj. subst cells0. rewrite !slot_at_insert by lia.
      destruct (Z.eqb_spec i p); [intros Hs'; by apply empty_not_new in Hs'|].
      destruct (Z.eqb_spec j p); [intros _ Hs'; by apply empty_not_new in Hs'|].
      by apply Hu.
    + rewrite Hocc'. subst cells0.
      pose proof (occupancy_insert cells p empty_slot ltac:(lia)) as Ho.
      rewrite (weight_empty empty_slot), (weight_occupied (slot_at cells p)) in Ho by done.
      lia.
    + intros k' v'. rewrite Hent'. subst cells0. rewrite entry_insert by lia. split.
      * intros [Hs'|(i & Hi & Hne & Hs')]; [by apply empty_not_new in Hs'|].
        split; [|by exists i]. intros ->. apply Hne. eapply Hu; eauto. lia.
      * intros [Hne (i & Hi & Hs')]. right. exists i. split_and!; try done.
        intros ->. rewrite Hs in Hs'. by apply new_slot_inj in Hs' as [-> _].
Qed.

(** Without destructors to run, [~Slot()] leaves only the stale tag. *)
Lemma destruct_slot_trivial (s : Slot K V) :
  Must_Destruct = false → destruct_slot s = Done (mkSlot (stale_tag (hash s)) None).
Proof. intros HMD. unfold destruct_slot. by rewrite HMD. Qed.

(** When the slot after [p] holds an entry away from its ideal index and
    there are no destructors to run, [fix_up] assigns to the slot [p] before
    anything reads it: what the slot held does not matter. *)
Lemma fix_up_overwrites fuel m cells p (s1 s2 : Slot K V) :
  geom m → List.length cells = Z.to_nat (capacity_ m) → 0 <= p < capacity_ m →
  Must_Destruct = false →
  occupied cells (advance m p) → disp m cells (advance m p) ≠ 0 →
  fix_up fuel m (<[Z.to_nat p := s1]> cells) p = fix_up fuel m (<[Z.to_nat p := s2]> cells) p.
Proof.
  intros Hg Hlen Hp HMD Hocc Hd. pose proof Hg as (Hcap & _ & _).
  destruct fuel as [|fuel]; [done|].
  cbn [fix_up]. rewrite next_advance by lia.
  remember (advance m p) as nx eqn:Hnxdef in *.
  assert (0 <= nx < capacity_ m ∧ nx ≠ p) as [Hnx Hnxp]
    by (plain m; split_ifs; lia).
  rewrite !cell_at_Done by (rewrite length_insert; lia). cbn [rbind].
  rewrite !slot_at_insert by lia. replace (nx =? p) with false by lia.
  rewrite Z.eqb_refl. fold (tag cells nx).
  replace (tag cells nx =? EMPTY_SLOT) with false
    by (unfold occupied, EMPTY_SLOT in *; lia).
  rewrite shr_Done by done. cbn [rbind]. fold (ideal m (tag cells nx)).
  destruct (Z.eqb_spec nx (ideal m (tag cells nx))) as [Hid|Hid].
  { exfalso. apply Hd. unfold disp. rewrite <- Hid. unfold distance.
    by rewrite Z.leb_refl, Z.sub_diag. }
  unfold assign_slot. rewrite !destruct_slot_trivial by done. cbn [rbind].
  rewrite !set_Done by (rewrite ?length_insert; lia). cbn [rbind].
  by rewrite !list_insert_insert_eq.
Qed.

(** The probe of [try_erase] reaches a stored key and takes it out, when
    [fix_up] assigns to the slot of the key. *)
Lemma try_erase_loop_hit m cells p k v0 e :
  geom m → List.length cells = Z.to_nat (capacity_ m) → Forall slot_ok cells →
  rh m cells → uniq cells → 0 <= p < capacity_ m → slot_at cells p = new_slot k v0 →
  0 <= e < capacity_ m → tag cells e = 0 →
  Must_Destruct = false →
  occupied cells (advance m p) → disp m cells (advance m p) ≠ 0 →
  ∀ (i : nat) fuel, Z.of_nat i <= disp m cells p →
    (i + Z.to_nat (capacity_ m) <= fuel)%nat →
    ∃ cells',
      try_erase_loop fuel m cells (hash_ k) k
        (back (capacity_ m) p (Z.of_nat i)) (disp m cells p - Z.of_nat i)
      = Done (Some cells') ∧
      List.length cells' = List.length cells ∧ Forall slot_ok cells' ∧ rh m cells' ∧
      uniq cells' ∧ S (occupancy cells') = occupancy cells ∧
      (∀ k' v', entry cells' k' v' ↔ k' ≠ k ∧ entry cells k' v').
Proof.
  intros Hg Hlen Hall Hrh Hu Hp Hs He Hempty HMD Hnext Hdnext.
  pose proof Hg as (Hcap & _ & _).
  assert (occupied cells p) as Hocc.
  { unfold occupied, tag. rewrite Hs. apply new_slot_occupied. }
  pose proof (ideal_range m _ Hg (tag_range cells p Hall)) as Hidp.
  assert (0 <= disp m cells p < capacity_ m) as Hdp
    by (unfold disp; plain m; split_ifs; lia).
  induction i as [|i IH]; intros fuel Hi Hfuel; (destruct fuel as [|fuel]; [lia|]).
  - unfold back. change (Z.of_nat 0) with 0. replace (0 <=? p) with true by lia.
    rewrite !Z.sub_0_r.
    destruct (erase_at_spec (S fuel) m cells p k v0 e) as (cells' & Hrun & Hrest); try done; try lia.
    exists cells'. split; [|done].
    cbn [try_erase_loop]. rewrite cell_at_Done by lia. cbn [rbind]. rewrite Hs.
    rewrite matches_new. rewrite bool_decide_eq_true_2 by done. cbn [rbind].
    rewrite destruct_slot_trivial by done. cbn [rbind].
    rewrite set_Done in Hrun |- * by lia. cbn [rbind] in Hrun |- *.
    rewrite (fix_up_overwrites (S fuel) m cells p _ empty_slot) by done.
    by rewrite Hrun.
  - destruct (rh_chain m cells p Hg Hlen Hall Hrh Hp Hocc (S i) Hi) as [Hoq Hdq].
    replace (Z.of_nat (S i)) with (Z.of_nat i + 1) in * by lia.
    set (q := back (capacity_ m) p (Z.of_nat i + 1)) in *.
    assert (0 <= q < capacity_ m) as Hq by (subst q; unfold back; split_ifs; lia).
    assert (q ≠ p) as Hqp by (subst q; unfold back; split_ifs; lia).
    assert (advance m q = back (capacity_ m) p (Z.of_nat i)) as Hadv.
    { subst q. unfold back in *. plain m. split_ifs; lia. }
    cbn [try_erase_loop]. rewrite cell_at_Done by lia. cbn [rbind].
    destruct (slot_ok_occupied _ (slot_at_ok cells q Hall) Hoq) as (kc & vc & Hcur).
    fold (tag cells q). rewrite Hcur, matches_new. rewrite bool_decide_eq_false_2; last first.
    { intros [_ ->]. apply Hqp. eapply Hu; eauto; lia. }
    cbn [rbind]. rewrite shr_Done by done. cbn [rbind].
    fold (ideal m (tag cells q)). fold (disp m cells q).
    replace (disp m cells q <? disp m cells p - (Z.of_nat i + 1)) with false by lia.
    rewrite Hadv, u64_small by lia.
    replace (disp m cells p - (Z.of_nat i + 1) + 1) with (disp m cells p - Z.of_nat i) by lia.
    apply IH; lia.
Qed.

(** The probe of [try_erase] reaches a stored key; when the next slot is
    empty or holds an entry at its ideal index, [fix_up] returns at once and
    the slot of the key stays as [~Slot()] left it. *)
Lemma try_erase_loop_kept m cells p k v0 :
  geom m → List.length cells = Z.to_nat (capacity_ m) → Forall slot_ok cells →
  rh m cells → uniq cells → 0 <= p < capacity_ m → slot_at cells p = new_slot k v0 →
  (¬ occupied cells (advance m p) ∨ disp m cells (advance m p) = 0) →
  ∀ (i : nat) fuel, Z.of_nat i <= disp m cells p → (i < fuel)%nat →
    try_erase_loop fuel m cells (hash_ k) k
      (back (capacity_ m) p (Z.of_nat i)) (disp m cells p - Z.of_nat i)
    = Done (Some (<[Z.to_nat p := mkSlot (stale_tag (hash_ k)) None]> cells)).
Proof.
  intros Hg Hlen Hall Hrh Hu Hp Hs Hkeep. pose proof Hg as (Hcap & _ & _).
  assert (occupied cells p) as Hocc.
  { unfold occupied, tag. rewrite Hs. apply new_slot_occupied. }
  pose proof (ideal_range m _ Hg (tag_range cells p Hall)) as Hidp.
  assert (0 <= disp m cells p < capacity_ m) as Hdp
    by (unfold disp; plain m; split_ifs; lia).
  induction i as [|i IH]; intros fuel Hi Hfuel; (destruct fuel as [|fuel]; [lia|]).
  - unfold back. change (Z.of_nat 0) with 0. replace (0 <=? p) with true by lia.
    rewrite !Z.sub_0_r.
    cbn [try_erase_loop]. rewrite cell_at_Done by lia. cbn [rbind]. rewrite Hs.
    rewrite matches_new. rewrite bool_decide_eq_true_2 by done. cbn [rbind].
    assert (destruct_slot (new_slot k v0) = Done (mkSlot (stale_tag (hash_ k)) None)) as ->.
    { unfold destruct_slot. simpl. by destruct (Must_Destruct && _). }
    cbn [rbind]. rewrite set_Done by lia. cbn [rbind fix_up].
    rewrite next_advance by lia.
    remember (advance m p) as nx eqn:Hnxdef in *.
    assert (0 <= nx < capacity_ m ∧ nx ≠ p) as [Hnx Hnxp]
      by (plain m; split_ifs; lia).
    rewrite cell_at_Done by (rewrite length_insert; lia). cbn [rbind].
    rewrite slot_at_insert by lia. replace (nx =? p) with false by lia.
    fold (tag cells nx).
    destruct (Z.eqb_spec (tag cells nx) EMPTY_SLOT) as [Hz|Hnz]; [done|].
    rewrite shr_Done by done. cbn [rbind]. fold (ideal m (tag cells nx)).
    pose proof (ideal_range m _ Hg (tag_range cells nx Hall)) as Hidn.
    destruct Hkeep as [Hno|Hd0]; [by destruct Hno|].
    replace (nx =? ideal m (tag cells nx)) with true; [done|].
    symmetry. apply Z.eqb_eq. revert Hd0. unfold disp. plain m. split_ifs; lia.
  - destruct (rh_chain m cells p Hg Hlen Hall Hrh Hp Hocc (S i) Hi) as [Hoq Hdq].
    replace (Z.of_nat (S i)) with (Z.of_nat i + 1) in * by lia.
    set (q := back (capacity_ m) p (Z.of_nat i + 1)) in *.
    assert (0 <= q < capacity_ m) as Hq by (subst q; unfold back; split_ifs; lia).
    assert (q ≠ p) as Hqp by (subst q; unfold back; split_ifs; lia).
    assert (advance m q = back (capacity_ m) p (Z.of_nat i)) as Hadv.
    { subst q. unfold back in *. plain m. split_ifs; lia. }
    cbn [try_erase_loop]. rewrite cell_at_Done by lia. cbn [rbind].
    destruct (slot_ok_occupied _ (slot_at_ok cells q Hall) Hoq) as (kc & vc & Hcur).
    fold (tag cells q). rewrite Hcur, matches_new. rewrite bool_decide_eq_false_2; last first.
    { intros [_ ->]. apply Hqp. eapply Hu; eauto; lia. }
    cbn [rbind]. rewrite shr_Done by done. cbn [rbind].
    fold (ideal m (tag cells q)). fold (disp m cells q).
    replace (disp m cells q <? disp m cells p - (Z.of_nat i + 1)) with false by lia.
    rewrite Hadv, u64_small by lia.
    replace (disp m cells p - (Z.of_nat i + 1) + 1) with (disp m cells p - Z.of_nat i) by lia.
    apply IH; lia.
Qed.

(** The probe of [try_erase] gives up on a key that is not stored, and
    changes nothing. *)
Lemma try_erase_loop_miss fuel : ∀ m cells k idx dist,
  geom m → List.length cells = Z.to_nat (capacity_ m) → Forall slot_ok cells →
  (∀ v, ¬ entry cells k v) → 0 <= idx < capacity_ m → 0 <= dist <= capacity_ m →
  (Z.to_nat (capacity_ m - dist) < fuel)%nat →
  try_erase_loop fuel m cells (hash_ k) k idx dist = Done None.
Proof.
  induction fuel as [|fuel IH]; intros m cells k idx dist Hg Hlen Hall Hfresh Hidx Hdist Hfuel;
    [lia|].
  pose proof Hg as (Hcap & _ & _).
  cbn [try_erase_loop]. rewrite cell_at_Done by lia. cbn [rbind]. fold (tag cells idx).
  assert (matches (slot_at cells idx) (hash_ k) k = Done false) as ->.
  { destruct (Z.eq_dec (tag cells idx) 0) as [Hz|Hnz]; [by apply matches_empty|].
    destruct (slot_ok_occupied _ (slot_at_ok cells idx Hall) Hnz) as (kc & vc & Hcur).
    rewrite Hcur, matches_new. rewrite bool_decide_eq_false_2; [done|].
    intros [_ ->]. apply (Hfresh vc). exists idx. split; [lia|done]. }
  cbn [rbind]. rewrite shr_Done by done. cbn [rbind].
  fold (ideal m (tag cells idx)). fold (disp m cells idx).
  pose proof (ideal_range m _ Hg (tag_range cells idx Hall)) as Hid.
  assert (0 <= disp m cells idx < capacity_ m) as Hd
    by (unfold disp; plain m; split_ifs; lia).
  destruct (Z.ltb_spec (disp m cells idx) dist); [done|].
  rewrite u64_small by lia. apply IH; try done.
  - plain m. split_ifs; lia.
  - lia.
  - lia.
Qed.

(** ** The map and its buffer in the store *)

Definition buffer (σ : store (Slot K V)) (m : Map) : list (Slot K V) :=
  default [] (σ !! data_ m).

(** The map holds the pair ([k], [v]). *)
Definition holds (σ : store (Slot K V)) (m : Map) (k : K) (v : V) : Prop :=
  entry (buffer σ m) k v.

(** The states that the operations keep to: the fields describe the buffer,
    no key is stored twice, [length_] is at least the number of entries and
    at most [usable_], and a table that was ever allocated has at least four
    slots and satisfies the Robin Hood invariant. *)
Definition wf (σ : store (Slot K V)) (m : Map) : Prop :=
  σ !! 0 = None ∧
  (data_ m = 0 ∨ is_Some (σ !! data_ m)) ∧
  List.length (buffer σ m) = Z.to_nat (capacity_ m) ∧
  Forall slot_ok (buffer σ m) ∧
  uniq (buffer σ m) ∧
  Z.of_nat (occupancy (buffer σ m)) <= length_ m <= usable_ m ∧
  ((capacity_ m = 0 ∧ usable_ m = 0) ∨
   (4 <= capacity_ m < 2 ^ 62 ∧
    usable_ m = (capacity_ m / 4) * 3 ∧
    shift_ m = u64 (ctlz (capacity_ m) + 1) ∧
    rh m (buffer σ m))).

Lemma wf_geom σ m : wf σ m → 0 < capacity_ m → geom m.
Proof.
  intros (_ & _ & _ & _ & _ & _ & [[? _]|(Hcap & _ & Hshift & _)]) Hpos; [lia|].
  destruct m as [d c l u s]. simpl in *. subst s. apply ctlz_geom. lia.
Qed.

Lemma wf_lookup σ m : wf σ m → 0 < capacity_ m → σ !! data_ m = Some (buffer σ m).
Proof.
  intros (_ & _ & Hlen & _) Hc. unfold buffer in *.
  destruct (σ !! data_ m); [done|]. simpl in Hlen. lia.
Qed.

Lemma wf_rh σ m : wf σ m → 0 < capacity_ m → rh m (buffer σ m).
Proof. intros (_ & _ & _ & _ & _ & _ & [[? _]|(_ & _ & _ & ?)]) Hpos; [lia|done]. Qed.

Lemma wf_empty_slot σ m :
  wf σ m → 0 < capacity_ m → ∃ e, 0 <= e < capacity_ m ∧ tag (buffer σ m) e = 0.
Proof.
  intros (_ & _ & Hlen & _ & _ & Hocc & [[? _]|(Hcap & Hus & _)]) Hpos; [lia|].
  destruct (occupancy_empty_slot (buffer σ m)) as (e & He & Hz).
  - assert (capacity_ m / 4 * 3 < capacity_ m) by (Z.div_mod_to_equations; lia). lia.
  - exists e. split; [lia|done].
Qed.

Lemma entry_occupancy cells k v : entry cells k v → (1 <= occupancy cells)%nat.
Proof.
  intros (i & Hi & Hs).
  assert (i < Z.of_nat (List.length cells)) as Hlt.
  { destruct (Z.lt_ge_cases i (Z.of_nat (List.length cells))) as [|Hge]; [done|].
    unfold slot_at in Hs. rewrite lookup_ge_None_2 in Hs by lia.
    by apply empty_not_new in Hs. }
  pose proof (occupancy_insert cells i empty_slot ltac:(lia)) as Ho.
  rewrite (weight_empty empty_slot), (weight_occupied (slot_at cells i)) in Ho
    by (done || rewrite Hs; apply new_slot_occupied). lia.
Qed.

Lemma entry_index cells k v :
  entry cells k v → ∃ p, 0 <= p < Z.of_nat (List.length cells) ∧ slot_at cells p = new_slot k v.
Proof.
  intros (i & Hi & Hs). exists i. split; [|done]. split; [done|].
  destruct (Z.lt_ge_cases i (Z.of_nat (List.length cells))) as [|Hge]; [done|].
  unfold slot_at in Hs. rewrite lookup_ge_None_2 in Hs by lia.
  by apply empty_not_new in Hs.
Qed.

Lemma holds_capacity σ m k v : wf σ m → holds σ m k v → 0 < length_ m ∧ 0 < capacity_ m.
Proof.
  intros Hwf Hh. pose proof Hwf as (_ & _ & Hlen & _ & _ & Hocc & _).
  pose proof (entry_occupancy _ _ _ Hh). pose proof (occupancy_le (buffer σ m)). lia.
Qed.

(** [try_get] returns the value stored under a key of the map... *)
Lemma try_get_hit fuel σ m k v :
  wf σ m → holds σ m k v → (Z.to_nat (capacity_ m) <= fuel)%nat →
  try_get fuel m k σ = Done (Some v, σ).
Proof.
  intros Hwf Hh Hfuel. destruct (holds_capacity _ _ _ _ Hwf Hh) as [Hl Hc].
  pose proof (wf_geom _ _ Hwf Hc) as Hg. pose proof (wf_rh _ _ Hwf Hc) as Hrh.
  pose proof Hwf as (_ & _ & Hlen & Hall & Hu & _).
  destruct (entry_index _ _ _ Hh) as (p & Hp & Hs).
  unfold try_get, empty. replace (length_ m =? 0) with false by lia.
  unfold bind at 1. rewrite shr_Done by done. simpl.
  unfold bind, load. rewrite (wf_lookup _ _ Hwf Hc).
  fold (ideal m (hash_ k)).
  assert (tag (buffer σ m) p = hash_ k) as Htag by (unfold tag; by rewrite Hs).
  pose proof (ideal_range m _ Hg (tag_range (buffer σ m) p Hall)) as Hidp.
  assert (0 <= disp m (buffer σ m) p < capacity_ m) as Hdp
    by (unfold disp; pose proof Hg as (? & _); plain m; split_ifs; lia).
  pose proof (try_get_loop_hit m (buffer σ m) p k v Hg Hlen Hall Hrh Hu ltac:(lia) Hs
                (Z.to_nat (disp m (buffer σ m) p)) fuel ltac:(lia) ltac:(lia)) as Hrun.
  rewrite Z2Nat.id, Z.sub_diag, back_disp, Htag in Hrun by (done || lia).
  by rewrite Hrun.
Qed.

(** ... and nothing for a key that the map does not hold. *)
Lemma try_get_miss fuel σ m k :
  wf σ m → (∀ v, ¬ holds σ m k v) → (Z.to_nat (capacity_ m) < fuel)%nat →
  try_get fuel m k σ = Done (None, σ).
Proof.
  intros Hwf Hfresh Hfuel. pose proof Hwf as (_ & _ & Hlen & Hall & Hu & Hocc & Hcase).
  unfold try_get, empty. destruct (Z.eqb_spec (length_ m) 0) as [Hz|Hnz]; [done|].
  assert (0 < capacity_ m) as Hc.
  { destruct Hcase as [[? ?]|[? _]]; lia. }
  pose proof (wf_geom _ _ Hwf Hc) as Hg.
  unfold bind at 1. rewrite shr_Done by done. simpl.
  unfold bind, load. rewrite (wf_lookup _ _ Hwf Hc).
  rewrite try_get_loop_miss; try done.
  - apply ideal_range; [done|]. pose proof (hash__range k). lia.
  - lia.
  - lia.
Qed.

(** Whether a table holds a key can be decided. *)
Definition holds_key (k : K) (s : Slot K V) : Prop :=
  hash s = hash_ k ∧ match data s with Some (k', _) => k' = k | None => False end.

Lemma holds_key_new k s : holds_key k s ↔ ∃ v, s = new_slot k v.
Proof.
  unfold holds_key. split.
  - destruct s as [h [[k' v]|]]; simpl; intros [-> Hk]; [|done]. subst k'. by exists v.
  - intros [v ->]. done.
Qed.

#[local] Instance holds_key_dec k s : Decision (holds_key k s).
Proof.
  unfold holds_key. destruct (data s) as [[k' v]|]; apply _.
Defined.

Lemma entry_dec cells k : (∃ v, entry cells k v) ∨ (∀ v, ¬ entry cells k v).
Proof.
  destruct (decide (Exists (holds_key k) cells)) as [Hex|Hnex].
  - left. apply Exists_exists in Hex as (s & Hin & Hk).
    apply holds_key_new in Hk as [v ->].
    apply list_elem_of_lookup in Hin as [i Hi].
    exists v, (Z.of_nat i). split; [lia|]. unfold slot_at. by rewrite Nat2Z.id, Hi.
  - right. intros v (i & Hi & Hs). apply Hnex. apply Exists_exists.
    exists (new_slot k v). split; [|apply holds_key_new; eauto].
    unfold slot_at in Hs. destruct (cells !! Z.to_nat i) as [s|] eqn:Hl; simpl in Hs.
    + subst s. eapply list_elem_of_lookup_2; eauto.
    + by apply empty_not_new in Hs.
Qed.

(** ** A table of empty slots *)

Lemma slot_at_replicate n i : slot_at (replicate n empty_slot) i = empty_slot.
Proof.
  unfold slot_at. destruct (replicate n empty_slot !! Z.to_nat i) as [s|] eqn:Hl; [|done].
  by apply lookup_replicate in Hl as [-> _].
Qed.

Lemma empty_table_spec m n :
  Forall slot_ok (replicate n empty_slot) ∧ rh m (replicate n empty_slot) ∧
  uniq (replicate n empty_slot) ∧ occupancy (replicate n empty_slot) = 0%nat ∧
  (∀ k v, ¬ entry (replicate n empty_slot) k v).
Proof.
  split_and!.
  - apply Forall_replicate. by left.
  - intros i Hi Ho. unfold occupied, tag in Ho. by rewrite slot_at_replicate in Ho.
  - intros i j k v v' _ _ Hs. rewrite slot_at_replicate in Hs. by apply empty_not_new in Hs.
  - induction n as [|n IH]; [done|]. simpl. rewrite occupancy_cons, IH.
    by rewrite weight_empty.
  - intros k v (i & _ & Hs). rewrite slot_at_replicate in Hs. by apply empty_not_new in Hs.
Qed.

(** ** Rehashing *)

Lemma distance_self m idx :
  geom m → 0 <= idx < capacity_ m → distance m idx idx = 0.
Proof. intros (Hcap & _) Hidx. plain m. split_ifs; lia. Qed.

Lemma rehash_spec fuel m old : ∀ (n : nat) i cells,
  geom m → List.length cells = Z.to_nat (capacity_ m) → Forall slot_ok cells →
  rh m cells → uniq cells → Forall slot_ok old → uniq old →
  Z.of_nat (List.length old) < capacity_ m →
  0 <= i → i + Z.of_nat n = Z.of_nat (List.length old) →
  Z.of_nat (occupancy cells) <= i →
  (∀ k v, entry cells k v ↔ ∃ j, 0 <= j < i ∧ slot_at old j = new_slot k v) →
  (Z.to_nat (capacity_ m) <= fuel)%nat →
  ∃ cells', rehash fuel m old i n cells = Done cells' ∧
    List.length cells' = List.length cells ∧ Forall slot_ok cells' ∧ rh m cells' ∧
    uniq cells' ∧
    occupancy cells' = (occupancy cells + occupancy (drop (Z.to_nat i) old))%nat ∧
    (∀ k v, entry cells' k v ↔ entry old k v).
Proof.
  induction n as [|n IH];
    intros i cells Hg Hlen Hall Hrh Hu Hallo Huo Hcap Hi Hin Hocc Hent Hfuel.
  { exists cells. split_and!; try done.
    { rewrite drop_ge by lia. unfold occupancy at 3. simpl. lia. }
    intros k v. rewrite Hent. split.
    - intros (j & Hj & Hs). exists j. split; [lia|done].
    - intros Hold. destruct (entry_index _ _ _ Hold) as (j & Hj & Hs). exists j.
      split; [lia|done]. }
  pose proof Hg as (Hcapm & _ & _).
  cbn [rehash]. rewrite cell_at_Done by lia. cbn [rbind].
  fold (tag old i). unfold EMPTY_SLOT.
  assert (drop (Z.to_nat i) old = slot_at old i :: drop (Z.to_nat (i + 1)) old) as Hdrop.
  { replace (Z.to_nat (i + 1)) with (S (Z.to_nat i)) by lia.
    apply drop_S. unfold slot_at.
    destruct (old !! Z.to_nat i) eqn:Hl; [done|]. apply lookup_ge_None in Hl. lia. }
  rewrite Hdrop, occupancy_cons.
  destruct (Z.eqb_spec (tag old i) 0) as [Hz|Hnz].
  { rewrite weight_empty by done. apply IH; try done; try lia.
    intros k v. rewrite Hent. split.
    - intros (j & Hj & Hs). exists j. split; [lia|done].
    - intros (j & Hj & Hs). exists j. split; [|done].
      assert (j ≠ i) by (intros ->; by eapply slot_at_empty_not_entry). lia. }
  rewrite weight_occupied by done.
  destruct (slot_ok_occupied _ (slot_at_ok old i Hallo) Hnz) as (k & v & Hs).
  assert (tag old i = hash_ k) as Htag by (unfold tag; by rewrite Hs).
  rewrite shr_Done by done. cbn [rbind]. rewrite Htag, Hs.
  fold (ideal m (hash_ k)).
  assert (∀ v', ¬ entry cells k v') as Hfresh.
  { intros v' (j & Hj & Hsj)%Hent. assert (j = i) by (eapply Huo; eauto; lia). lia. }
  assert (0 <= ideal m (hash_ k) < capacity_ m) as Hid.
  { apply ideal_range; [done|]. pose proof (hash__range k). lia. }
  destruct (occupancy_empty_slot cells) as (e & He & Hempty); [lia|].
  destruct (insert_slot_loop_rh fuel m cells (new_slot k v) (ideal m (hash_ k)) None 0 e)
    as (cells1 & placed & Hrun & Hlen1 & Hall1 & Hrh1 & _); try done.
  - eauto.
  - rewrite new_slot_hash. by rewrite distance_self.
  - lia.
  - by intros Ho.
  - unfold cdist. split_ifs; lia.
  - unfold cdist. split_ifs; lia.
  - rewrite Hrun. cbn [rbind].
    destruct (insert_slot_loop_fresh _ _ _ _ _ _ _ _ _ _ Hg Hlen Hall Hid Hu Hfresh Hrun)
      as (Hu1 & Hent1 & Hocc1).
    destruct (IH (i + 1) cells1) as (cells' & -> & Hlen' & ? & ? & ? & Hocc' & Hent'); try done;
      try lia.
    + intros k' v'. rewrite Hent1, Hent. split.
      * intros [(j & Hj & Hsj)|[-> ->]]; [exists j|exists i]; split; try done; lia.
      * intros (j & Hj & Hsj). destruct (Z.eq_dec j i) as [->|Hne].
        -- right. rewrite Hs in Hsj. by apply new_slot_inj in Hsj as [-> ->].
        -- left. exists j. split; [lia|done].
    + exists cells'. split_and!; try done; [by rewrite Hlen'|lia].
Qed.

(** ** Operations on a map in the store *)

Lemma load_Done (σ : store (Slot K V)) p cells :
  σ !! p = Some cells → load p σ = Done (cells, σ).
Proof. intros H. unfold load. by rewrite H. Qed.

Lemma save_Done (σ : store (Slot K V)) p cells :
  is_Some (σ !! p) → save p cells σ = Done (tt, <[p := cells]> σ).
Proof. intros [c H]. unfold save. by rewrite H. Qed.

Lemma wf_fresh σ m n : wf σ m → alloc_addr σ n ≠ data_ m.
Proof.
  intros (_ & [H0|[b Hb]] & _) Heq.
  - apply (alloc_addr_nonnull σ n). congruence.
  - pose proof (alloc_addr_fresh σ n). congruence.
Qed.

Lemma usable_mono a b : 0 <= a <= b → a / 4 * 3 <= b / 4 * 3.
Proof. intros. assert (a / 4 <= b / 4) by (apply Z.div_le_mono; lia). lia. Qed.

(** ** Moving a map *)

(** [Map& operator=(Map&& src)] on the objects [this] and [src] of an object
    table: both are references and may designate the same object. *)
Definition move_assign (this src : nat) (objs : gmap nat Map)
  : M (Slot K V) (gmap nat Map) :=
  match objs !! this with
  | None => lift Fault
  | Some t =>
      (* this->~Map() *)
      let* t := destructor t in
      let objs := <[this := t]> objs in
      match objs !! src with
      | None => lift Fault
      | Some s =>
          ret (<[src := mkMap 0 0 0 0 0]>
                 (<[this := mkMap (data_ s) (capacity_ s) (length_ s) (usable_ s) (shift_ s)]>
                    objs))
      end
  end.

(** The map [t] can be destroyed: its slots lie in a live buffer. *)
Definition destructible (σ : store (Slot K V)) (t : Map) : Prop :=
  capacity_ t = 0 ∨
  ∃ cells, σ !! data_ t = Some cells ∧ capacity_ t <= Z.of_nat (List.length cells).

Lemma destructor_Done σ t :
  destructible σ t →
  ∃ σ', destructor t σ = Done (mkMap 0 0 0 0 0, σ') ∧
    ∀ q, q ≠ data_ t → σ' !! q = σ !! q.
Proof.
  intros Hd. unfold destructor, wipe.
  destruct Must_Destruct; [destruct (Z.eqb_spec (capacity_ t) 0) as [Hz|Hnz]|].
  - unfold bind, ret, free. eexists. split; [done|]. intros q Hq.
    by rewrite lookup_delete_ne.
  - destruct Hd as [Hz|(cells & Hl & Hlen)]; [lia|].
    unfold bind at 1. unfold bind at 1, load. rewrite Hl.
    replace (capacity_ t <=? Z.of_nat (List.length cells)) with true by lia.
    unfold save. rewrite Hl. unfold bind, free, ret.
    eexists. split; [done|]. intros q Hq.
    rewrite lookup_delete_ne by done. by rewrite lookup_insert_ne.
  - unfold bind, ret, free. eexists. split; [done|]. intros q Hq.
    by rewrite lookup_delete_ne.
Qed.

Lemma destructor_frees σ t σ' r :
  destructor t σ = Done (r, σ') → σ' !! data_ t = None.
Proof.
  unfold destructor. unfold bind at 1.
  destruct ((if Must_Destruct then wipe t else ret tt) σ) as [[[] σ1]| | |] eqn:Hw; try done.
  unfold bind, free, ret. intros [= _ <-]. by rewrite lookup_delete_eq.
Qed.


(** * Construction *)

(** C9 (as amended): [Map(capacity)] returns a map with [length_ = 0], the
    capacity rounded up to a power of two, [shift_ = ctlz(capacity_) + 1] and
    [usable_ = (capacity_ / 4) * 3], whose buffer is the memory that the
    allocator returned, untouched: its slots are [EMPTY_SLOT] exactly when
    the allocator zeroes them.  Whatever that memory contains, every lookup
    on the new map reports the key absent, because [length_] is 0. *)
Theorem new_map_is_empty capacity σ fuel k :
  let p := alloc_addr σ (next_pow2 capacity) in
  let m := mkMap p (next_pow2 capacity) 0 (u64 ((next_pow2 capacity / 4) * 3))
             (u64 (ctlz (next_pow2 capacity) + 1)) in
  let σ' := <[p := alloc_cells σ (next_pow2 capacity)]> σ in
  new capacity σ = Done (m, σ') ∧
  buffer σ' m = alloc_cells σ (next_pow2 capacity) ∧
  List.length (buffer σ' m) = Z.to_nat (capacity_ m) ∧
  try_get fuel m k σ' = Done (None, σ') ∧
  contains fuel m k σ' = Done (false, σ').
Proof.
  intros p m σ'. split_and!.
  - done.
  - unfold buffer. subst σ' m. simpl. by rewrite lookup_insert_eq.
  - unfold buffer. subst σ' m. simpl. rewrite lookup_insert_eq. simpl.
    apply alloc_cells_length.
  - done.
  - done.
Qed.

(** * The running distance of [insert_slot] *)

(** The loop of [insert_slot] as the spec's design note reads it: after a
    swap the scan goes on with the same running [dist]. *)
Fixpoint insert_slot_loop_same_dist (fuel : nat) (m : Map) (cells : list (Slot K V))
    (slot : Slot K V) (idx : Z) (placement : option Z) (dist : Z)
  : result (list (Slot K V) * Z) :=
  match fuel with
  | O => Timeout
  | S fuel =>
      let! cur := cell_at cells idx in
      if hash cur =? EMPTY_SLOT then
        let! cells := cell_set cells idx (moved slot) in
        Done (cells, default idx placement)
      else
        let! same := same_entry cur slot in
        if same then
          let! cells := cell_set cells idx (moved slot) in
          Done (cells, idx)
        else
          let! hashidx := shr (hash cur) (shift_ m) in
          let hashdist := distance m idx hashidx in
          if hashdist <? dist then
            let! cells := cell_set cells idx (moved slot) in
            insert_slot_loop_same_dist fuel m cells (moved cur) (advance m idx)
              (Some (default idx placement)) (u64 (dist + 1))
          else
            insert_slot_loop_same_dist fuel m cells slot (advance m idx)
              placement (u64 (dist + 1))
  end.

(** C5 (as amended): when the incoming entry is swapped with a richer
    incumbent, the scan continues at the next slot with the incumbent and
    with the running [dist] reset to the incumbent's own displacement plus
    one. *)
Theorem insert_slot_swap_resets_dist fuel m cells slot idx placement dist cur hashidx :
  cell_at cells idx = Done cur → hash cur ≠ EMPTY_SLOT →
  same_entry cur slot = Done false →
  shr (hash cur) (shift_ m) = Done hashidx → distance m idx hashidx < dist →
  insert_slot_loop (S fuel) m cells slot idx placement dist =
    let! cells' := cell_set cells idx (moved slot) in
    insert_slot_loop fuel m cells' (moved cur) (advance m idx)
      (Some (default idx placement)) (u64 (distance m idx hashidx + 1)).
Proof.
  intros Hcur Hocc Hsame Hshr Hlt. cbn [insert_slot_loop].
  rewrite Hcur. cbn [rbind]. replace (hash cur =? EMPTY_SLOT) with false by lia.
  rewrite Hsame. cbn [rbind]. rewrite Hshr. cbn [rbind].
  by replace (distance m idx hashidx <? dist) with true by lia.
Qed.

(** * The invariant in the spec's words *)



Section zeroed.
(** The allocator hands out zeroed memory: every slot of a fresh buffer
    carries the tag [EMPTY_SLOT]. *)
Hypothesis alloc_zeroed :
  ∀ σ n, alloc_cells σ n = replicate (Z.to_nat n) (empty_slot : Slot K V).

Lemma reserve_spec fuel σ m n :
  wf σ m → capacity_ m < n → 4 <= n < 2 ^ 62 → (Z.to_nat n <= fuel)%nat →
  ∃ m' σ', reserve fuel m n σ = Done (m', σ') ∧ wf σ' m' ∧
    capacity_ m' = n ∧ length_ m' = length_ m ∧ usable_ m' = n / 4 * 3 ∧
    (∀ k v, holds σ' m' k v ↔ holds σ m k v).
Proof.
  intros Hwf Hn Hn4 Hfuel.
  pose proof Hwf as (Hnull & Hptr & Hlen & Hall & Hu & Hocc & Hcase).
  pose proof (wf_fresh σ m n Hwf) as Hfresh.
  unfold reserve. replace (n <=? capacity_ m) with false by lia.
  unfold bind at 1, alloc at 1. rewrite alloc_zeroed.
  set (p := alloc_addr σ n) in *.
  set (σ1 := <[p := replicate (Z.to_nat n) empty_slot]> σ).
  set (m' := mkMap p n (length_ m) (u64 (n / 4 * 3)) (u64 (ctlz n + 1))).
  assert (u64 (n / 4 * 3) = n / 4 * 3) as Hus.
  { apply u64_small. Z.div_mod_to_equations. lia. }
  assert (geom m') as Hg by (apply ctlz_geom; lia).
  assert ((if capacity_ m =? 0 then ret [] else load (data_ m)) σ1 = Done (buffer σ m, σ1)) as Hold.
  { destruct (Z.eqb_spec (capacity_ m) 0) as [Hz|Hnz].
    - unfold ret. destruct (buffer σ m); [done|]. simpl in Hlen. lia.
    - apply load_Done. subst σ1. rewrite lookup_insert_ne by done.
      apply wf_lookup; [done|]. destruct Hcase as [[? _]|[? _]]; lia. }
  unfold bind at 1. rewrite Hold.
  unfold bind at 1. rewrite (load_Done σ1 p (replicate (Z.to_nat n) empty_slot))
    by (subst σ1; by rewrite lookup_insert_eq).
  destruct (empty_table_spec m' (Z.to_nat n)) as (Hall0 & Hrh0 & Hu0 & Hocc0 & Hent0).
  destruct (rehash_spec fuel m' (buffer σ m) (Z.to_nat (capacity_ m)) 0
              (replicate (Z.to_nat n) empty_slot))
    as (cells' & Hrun & Hlen' & Hall' & Hrh' & Hu' & Hocc' & Hent'); try done.
  - by rewrite length_replicate.
  - simpl. lia.
  - lia.
  - rewrite Hocc0. lia.
  - intros k v. split; [by intros ?%Hent0|]. intros (j & Hj & _). lia.
  - unfold bind at 1. rewrite Hrun. simpl.
    unfold bind at 1. rewrite save_Done by (subst σ1; rewrite lookup_insert_eq; eauto).
    unfold bind, free, ret.
    eexists _, _. split; [done|].
    assert (buffer (delete (data_ m) (<[p:=cells']> σ1)) m' = cells') as Hbuf.
    { unfold buffer. simpl. rewrite lookup_delete_ne by done. by rewrite lookup_insert_eq. }
    split_and!; try done.
    unfold wf. rewrite Hbuf. simpl. split_and!; try done.
    + apply lookup_delete_None. right. subst σ1.
      rewrite !lookup_insert_ne; [done|apply alloc_addr_nonnull..].
    + right. rewrite lookup_delete_ne by done. rewrite lookup_insert_eq. eauto.
    + by rewrite Hlen', length_replicate.
    + rewrite Hocc', Hocc0. change (Z.to_nat 0) with 0%nat. rewrite drop_0. lia.
    + rewrite Hus. destruct Hcase as [[? Hum]|(? & Hum & _)]; rewrite Hum in Hocc.
      * Z.div_mod_to_equations. lia.
      * transitivity (capacity_ m / 4 * 3); [lia|]. apply usable_mono. lia.
    + right. split_and!; try done; lia.
    + intros k v. unfold holds. rewrite Hbuf. apply Hent'.
Qed.

Lemma grow_spec fuel σ m :
  wf σ m → capacity_ m < 2 ^ 61 → (Z.to_nat (2 * capacity_ m + 32) <= fuel)%nat →
  ∃ m' σ', grow fuel m σ = Done (m', σ') ∧ wf σ' m' ∧
    capacity_ m' = (if capacity_ m =? 0 then 32 else 2 * capacity_ m) ∧
    length_ m' = length_ m ∧ usable_ m < usable_ m' ∧
    (∀ k v, holds σ' m' k v ↔ holds σ m k v).
Proof.
  intros Hwf Hcap Hfuel. pose proof Hwf as (_ & _ & _ & _ & _ & Hocc & Hcase).
  unfold grow.
  set (n := if capacity_ m =? 0 then 32 else u64 (2 * capacity_ m)).
  assert (n = (if capacity_ m =? 0 then 32 else 2 * capacity_ m) ∧
          capacity_ m < n ∧ 4 <= n < 2 ^ 62 ∧ usable_ m < n / 4 * 3) as (Hn & Hlt & Hn4 & Hus).
  { subst n. destruct Hcase as [[Hz Hu]|(Hc4 & Hu & _)].
    - rewrite Hz, Hu. change (0 =? 0) with true. cbv iota.
      split_and!; try done; lia.
    - replace (capacity_ m =? 0) with false by lia.
      rewrite u64_small by lia. rewrite Hu. split_and!; try done; try lia.
      Z.div_mod_to_equations. lia. }
  destruct (reserve_spec fuel σ m n) as (m' & σ' & Hrun & Hwf' & Hc' & Hl' & Hu' & Hent);
    try done.
  { destruct (capacity_ m =? 0); lia. }
  exists m', σ'. split_and!; try done; [congruence|lia].
Qed.

Lemma saved_wf σ m cells' len' :
  wf σ m → 0 < capacity_ m → List.length cells' = List.length (buffer σ m) →
  Forall slot_ok cells' → uniq cells' → rh m cells' →
  Z.of_nat (occupancy cells') <= len' <= usable_ m →
  wf (<[data_ m := cells']> σ) (mkMap (data_ m) (capacity_ m) len' (usable_ m) (shift_ m)) ∧
  buffer (<[data_ m := cells']> σ) (mkMap (data_ m) (capacity_ m) len' (usable_ m) (shift_ m))
    = cells'.
Proof.
  intros Hwf Hc Hlen' Hall' Hu' Hrh' Hocc'.
  pose proof Hwf as (Hnull & Hptr & Hlen & _ & _ & _ & Hcase).
  pose proof (wf_lookup _ _ Hwf Hc) as Hl.
  assert (buffer (<[data_ m := cells']> σ)
            (mkMap (data_ m) (capacity_ m) len' (usable_ m) (shift_ m)) = cells') as Hbuf.
  { unfold buffer. simpl. by rewrite lookup_insert_eq. }
  split; [|done]. unfold wf. rewrite Hbuf. simpl.
  split; [|split; [|split; [|split; [|split; [|split]]]]]; try done.
  - rewrite lookup_insert_ne; [done|]. intros H0. rewrite H0 in Hl. congruence.
  - right. rewrite lookup_insert_eq. eauto.
  - congruence.
  - destruct Hcase as [[? _]|(? & ? & ? & _)]; [lia|]. right. split_and!; try done; lia.
Qed.

Lemma insert_spec fuel σ m k v :
  wf σ m → capacity_ m < 2 ^ 61 → (Z.to_nat (2 * capacity_ m + 32) <= fuel)%nat →
  ∃ m' σ' placed, insert fuel m k v σ = Done ((m', placed), σ') ∧ wf σ' m' ∧
    length_ m' = length_ m + 1 ∧
    capacity_ m' =
      (if full m then (if capacity_ m =? 0 then 32 else 2 * capacity_ m) else capacity_ m) ∧
    (∀ k' v', holds σ' m' k' v' ↔ (k' = k ∧ v' = v) ∨ (k' ≠ k ∧ holds σ m k' v')).
Proof.
  intros Hwf Hcap Hfuel.
  assert (∃ m1 σ1, (if full m then grow fuel m else ret m) σ = Done (m1, σ1) ∧ wf σ1 m1 ∧
            length_ m1 = length_ m ∧ length_ m1 < usable_ m1 ∧
            capacity_ m1 =
              (if full m then (if capacity_ m =? 0 then 32 else 2 * capacity_ m)
               else capacity_ m) ∧
            (∀ k v, holds σ1 m1 k v ↔ holds σ m k v))
    as (m1 & σ1 & Hgrow & Hwf1 & Hl1 & Hlu & Hc1 & Hent1).
  { unfold full. destruct (Z.eqb_spec (length_ m) (usable_ m)) as [Hfull|Hnf].
    - destruct (grow_spec fuel σ m) as (m1 & σ1 & ? & ? & ? & ? & ? & ?); try done.
      exists m1, σ1. split_and!; try done. lia.
    - exists m, σ. pose proof Hwf as (_ & _ & _ & _ & _ & Hocc & _).
      split_and!; try done. lia. }
  pose proof Hwf1 as (_ & _ & Hlen & Hall & Hu & Hocc & Hcase).
  assert (4 <= capacity_ m1 < 2 ^ 62) as Hc4.
  { destruct Hcase as [[? ?]|[? _]]; [lia|done]. }
  pose proof (wf_geom _ _ Hwf1 ltac:(lia)) as Hg.
  pose proof (wf_rh _ _ Hwf1 ltac:(lia)) as Hrh.
  pose proof (wf_lookup _ _ Hwf1 ltac:(lia)) as Hl.
  assert (0 <= capacity_ m) as Hc0.
  { pose proof Hwf as (_ & _ & _ & _ & _ & _ & [[? _]|[? _]]); lia. }
  assert (Z.to_nat (capacity_ m1) <= fuel)%nat as Hfuel1.
  { rewrite Hc1. destruct (full m); [destruct (capacity_ m =? 0)|]; lia. }
  set (cells := buffer σ1 m1) in *.
  assert (0 <= ideal m1 (hash_ k) < capacity_ m1) as Hid.
  { apply ideal_range; [done|]. pose proof (hash__range k). lia. }
  assert (∃ cells' placed,
            insert_slot_loop fuel m1 cells (new_slot k v) (ideal m1 (hash_ k)) None 0
              = Done (cells', placed) ∧
            List.length cells' = List.length cells ∧ Forall slot_ok cells' ∧ rh m1 cells' ∧
            uniq cells' ∧ (occupancy cells' <= occupancy cells + 1)%nat ∧
            (∀ k' v', entry cells' k' v' ↔ (k' = k ∧ v' = v) ∨ (k' ≠ k ∧ entry cells k' v')))
    as (cells' & placed & Hrun & Hlen' & Hall' & Hrh' & Hu' & Hocc' & Hent').
  { destruct (entry_dec cells k) as [[v0 Hold]|Hfresh].
    - destruct (entry_index _ _ _ Hold) as (p & Hp & Hs).
      pose proof (ideal_range m1 _ Hg (tag_range cells p Hall)) as Hidp.
      assert (0 <= disp m1 cells p < capacity_ m1) as Hdp
        by (unfold disp; plain m1; split_ifs; lia).
      assert (tag cells p = hash_ k) as Htag by (unfold tag; by rewrite Hs).
      pose proof (insert_slot_loop_hit m1 cells p k v0 v None Hg Hlen Hall Hrh Hu ltac:(lia) Hs
                    (Z.to_nat (disp m1 cells p)) fuel ltac:(lia) ltac:(lia)) as Hrun.
      rewrite Z2Nat.id, Z.sub_diag, back_disp, Htag in Hrun by (done || lia).
      destruct (overwrite_spec m1 cells p k v0 v Hg Hlen Hall Hrh Hu ltac:(lia) Hs)
        as (? & ? & ? & ? & Ho & ?).
      eexists _, _. split; [exact Hrun|]. split_and!; try done. lia.
    - destruct (occupancy_empty_slot cells) as (e & He & Hempty).
      { assert (capacity_ m1 / 4 * 3 < capacity_ m1) by (Z.div_mod_to_equations; lia).
        destruct Hcase as [[? ?]|(_ & ? & _)]; lia. }
      destruct (insert_slot_loop_rh fuel m1 cells (new_slot k v) (ideal m1 (hash_ k)) None 0 e)
        as (cells' & placed & Hrun & Hlen' & Hall' & Hrh' & Hocc'); try done.
      + eauto.
      + rewrite new_slot_hash. by rewrite distance_self.
      + lia.
      + by intros Ho.
      + unfold cdist. split_ifs; lia.
      + unfold cdist. split_ifs; lia.
      + destruct (insert_slot_loop_fresh _ _ _ _ _ _ _ _ _ _ Hg Hlen Hall Hid Hu Hfresh Hrun)
          as (Hu' & Hent' & Hocc'').
        eexists _, _. split; [exact Hrun|]. split_and!; try done.
        intros k' v'. rewrite Hent'. split.
        * intros [Hold|[-> ->]]; [right|by left]. split; [|done].
          intros ->. by apply Hfresh in Hold.
        * intros [[-> ->]|[_ Hold]]; [by right|by left]. }
  unfold insert. unfold bind at 1. rewrite Hgrow.
  unfold bind at 1, insert_slot. unfold bind at 1. rewrite new_slot_hash, shr_Done by done.
  simpl. unfold bind at 1. rewrite (load_Done _ _ _ Hl).
  fold (ideal m1 (hash_ k)). unfold bind at 1. fold cells. rewrite Hrun. simpl.
  unfold bind at 1. rewrite save_Done by (rewrite Hl; eauto).
  unfold ret. simpl.
  assert (u64 (length_ m1 + 1) = length_ m1 + 1) as ->.
  { apply u64_small. destruct Hcase as [[? ?]|(_ & Hus & _)]; [lia|].
    assert (capacity_ m1 / 4 * 3 < capacity_ m1) by (Z.div_mod_to_equations; lia). lia. }
  destruct (saved_wf σ1 m1 cells' (length_ m1 + 1)) as [Hwf' Hbuf']; try done; try lia.
  eexists _, _, _. split; [done|]. split_and!; try done.
  - simpl. lia.
  - intros k' v'. unfold holds in *. rewrite Hbuf', Hent', <- (Hent1 k' v'). done.
Qed.

Lemma try_erase_hit fuel σ m k v p :
  wf σ m → 0 <= p < capacity_ m → slot_at (buffer σ m) p = new_slot k v →
  Must_Destruct = false →
  occupied (buffer σ m) (advance m p) → disp m (buffer σ m) (advance m p) ≠ 0 →
  (Z.to_nat (2 * capacity_ m) <= fuel)%nat →
  ∃ σ', try_erase fuel m k σ
        = Done ((mkMap (data_ m) (capacity_ m) (length_ m - 1) (usable_ m) (shift_ m), true),
                σ') ∧
    wf σ' (mkMap (data_ m) (capacity_ m) (length_ m - 1) (usable_ m) (shift_ m)) ∧
    (∀ k' v', holds σ' (mkMap (data_ m) (capacity_ m) (length_ m - 1) (usable_ m) (shift_ m))
                k' v' ↔ k' ≠ k ∧ holds σ m k' v').
Proof.
  intros Hwf Hp Hs HMD Hnext Hdnext Hfuel.
  assert (holds σ m k v) as Hh by (exists p; split; [lia|done]).
  destruct (holds_capacity _ _ _ _ Hwf Hh) as [Hl Hc].
  pose proof (wf_geom _ _ Hwf Hc) as Hg. pose proof (wf_rh _ _ Hwf Hc) as Hrh.
  pose proof Hwf as (_ & _ & Hlen & Hall & Hu & Hocc & Hcase).
  destruct (wf_empty_slot _ _ Hwf Hc) as (e & He & Hempty).
  assert (tag (buffer σ m) p = hash_ k) as Htag by (unfold tag; by rewrite Hs).
  pose proof (ideal_range m _ Hg (tag_range (buffer σ m) p Hall)) as Hidp.
  assert (0 <= disp m (buffer σ m) p < capacity_ m) as Hdp
    by (unfold disp; pose proof Hg as (? & _); plain m; split_ifs; lia).
  destruct (try_erase_loop_hit m (buffer σ m) p k v e Hg Hlen Hall Hrh Hu ltac:(lia) Hs He Hempty
              HMD Hnext Hdnext
              (Z.to_nat (disp m (buffer σ m) p)) fuel ltac:(lia) ltac:(lia))
    as (cells' & Hrun & Hlen' & Hall' & Hrh' & Hu' & Hocc' & Hent').
  rewrite Z2Nat.id, Z.sub_diag, back_disp, Htag in Hrun by (done || lia).
  unfold try_erase, empty. replace (length_ m =? 0) with false by lia.
  unfold bind at 1. rewrite shr_Done by done. simpl.
  unfold bind at 1. rewrite (load_Done _ _ _ (wf_lookup _ _ Hwf Hc)).
  fold (ideal m (hash_ k)). unfold bind at 1. rewrite Hrun. simpl.
  unfold bind at 1. rewrite save_Done by (rewrite (wf_lookup _ _ Hwf Hc); eauto).
  assert (length_ m < 2 ^ 62) as Hl62.
  { destruct Hcase as [[? ?]|(? & Hus & _)]; [lia|].
    assert (capacity_ m / 4 * 3 < capacity_ m) by (Z.div_mod_to_equations; lia). lia. }
  unfold ret. rewrite u64_small by lia.
  destruct (saved_wf σ m cells' (length_ m - 1)) as [Hwf' Hbuf']; try done; try lia.
  eexists. split; [done|]. split; [done|].
  intros k' v'. unfold holds. by rewrite Hbuf', Hent'.
Qed.

Lemma try_erase_kept fuel σ m k v p :
  wf σ m → 0 <= p < capacity_ m → slot_at (buffer σ m) p = new_slot k v →
  (¬ occupied (buffer σ m) (advance m p) ∨ disp m (buffer σ m) (advance m p) = 0) →
  (Z.to_nat (capacity_ m) < fuel)%nat →
  try_erase fuel m k σ
  = Done ((mkMap (data_ m) (capacity_ m) (length_ m - 1) (usable_ m) (shift_ m), true),
          <[data_ m := <[Z.to_nat p := mkSlot (stale_tag (hash_ k)) None]> (buffer σ m)]> σ).
Proof.
  intros Hwf Hp Hs Hkeep Hfuel.
  assert (holds σ m k v) as Hh by (exists p; split; [lia|done]).
  destruct (holds_capacity _ _ _ _ Hwf Hh) as [Hl Hc].
  pose proof (wf_geom _ _ Hwf Hc) as Hg. pose proof (wf_rh _ _ Hwf Hc) as Hrh.
  pose proof Hwf as (_ & _ & Hlen & Hall & Hu & Hocc & Hcase).
  assert (tag (buffer σ m) p = hash_ k) as Htag by (unfold tag; by rewrite Hs).
  pose proof (ideal_range m _ Hg (tag_range (buffer σ m) p Hall)) as Hidp.
  assert (0 <= disp m (buffer σ m) p < capacity_ m) as Hdp
    by (unfold disp; pose proof Hg as (? & _); plain m; split_ifs; lia).
  pose proof (try_erase_loop_kept m (buffer σ m) p k v Hg Hlen Hall Hrh Hu ltac:(lia) Hs Hkeep
                (Z.to_nat (disp m (buffer σ m) p)) fuel ltac:(lia) ltac:(lia)) as Hrun.
  rewrite Z2Nat.id, Z.sub_diag, back_disp, Htag in Hrun by (done || lia).
  unfold try_erase, empty. replace (length_ m =? 0) with false by lia.
  unfold bind at 1. rewrite shr_Done by done. simpl.
  unfold bind at 1. rewrite (load_Done _ _ _ (wf_lookup _ _ Hwf Hc)).
  fold (ideal m (hash_ k)). unfold bind at 1. rewrite Hrun. simpl.
  unfold bind at 1. rewrite save_Done by (rewrite (wf_lookup _ _ Hwf Hc); eauto).
  assert (length_ m < 2 ^ 62) as Hl62.
  { destruct Hcase as [[? ?]|(? & Hus & _)]; [lia|].
    assert (capacity_ m / 4 * 3 < capacity_ m) by (Z.div_mod_to_equations; lia). lia. }
  unfold ret. by rewrite u64_small by lia.
Qed.

Lemma try_erase_miss fuel σ m k :
  wf σ m → (∀ v, ¬ holds σ m k v) → (Z.to_nat (capacity_ m) < fuel)%nat →
  try_erase fuel m k σ = Done ((m, false), σ).
Proof.
  intros Hwf Hfresh Hfuel. pose proof Hwf as (_ & _ & Hlen & Hall & Hu & Hocc & Hcase).
  unfold try_erase, empty. destruct (Z.eqb_spec (length_ m) 0) as [Hz|Hnz]; [done|].
  assert (0 < capacity_ m) as Hc.
  { destruct Hcase as [[? ?]|[? _]]; lia. }
  pose proof (wf_geom _ _ Hwf Hc) as Hg.
  unfold bind at 1. rewrite shr_Done by done. simpl.
  unfold bind at 1. rewrite (load_Done _ _ _ (wf_lookup _ _ Hwf Hc)).
  unfold bind at 1. rewrite try_erase_loop_miss; try done.
  - apply ideal_range; [done|]. pose proof (hash__range k). lia.
  - lia.
  - lia.
Qed.

Lemma erase_miss fuel σ m k :
  wf σ m → (∀ v, ¬ holds σ m k v) → (Z.to_nat (capacity_ m) < fuel)%nat →
  erase fuel m k σ = Abort.
Proof.
  intros Hwf Hfresh Hfuel. unfold erase, bind.
  by rewrite try_erase_miss.
Qed.


Lemma wf_empty_map σ : σ !! 0 = None → wf σ empty_map.
Proof.
  intros Hnull. unfold wf, buffer, empty_map. simpl. rewrite Hnull. simpl.
  split_and!; try done; try lia.
Qed.

Lemma new_spec σ c :
  σ !! 0 = None → 4 <= next_pow2 c < 2 ^ 62 →
  ∃ m σ', new c σ = Done (m, σ') ∧ wf σ' m ∧ capacity_ m = next_pow2 c ∧
    length_ m = 0 ∧ (∀ k v, ¬ holds σ' m k v).
Proof.
  intros Hnull Hc. unfold new, bind, alloc, ret. rewrite alloc_zeroed.
  set (p := alloc_addr σ (next_pow2 c)).
  set (m := mkMap p (next_pow2 c) 0 (u64 (next_pow2 c / 4 * 3)) (u64 (ctlz (next_pow2 c) + 1))).
  destruct (empty_table_spec m (Z.to_nat (next_pow2 c))) as (Hall0 & Hrh0 & Hu0 & Hocc0 & Hent0).
  assert (buffer (<[p := replicate (Z.to_nat (next_pow2 c)) empty_slot]> σ) m
          = replicate (Z.to_nat (next_pow2 c)) empty_slot) as Hbuf.
  { unfold buffer. simpl. by rewrite lookup_insert_eq. }
  assert (u64 (next_pow2 c / 4 * 3) = next_pow2 c / 4 * 3) as Hus.
  { apply u64_small. Z.div_mod_to_equations. lia. }
  eexists _, _. split; [done|]. fold m. split_and!; try done.
  - unfold wf. rewrite Hbuf. simpl.
    split; [|split; [|split; [|split; [|split; [|split]]]]]; try done.
    + rewrite lookup_insert_ne; [done|apply alloc_addr_nonnull].
    + right. rewrite lookup_insert_eq. eauto.
    + by rewrite length_replicate.
    + rewrite Hocc0, Hus. split; [simpl; lia|]. Z.div_mod_to_equations. lia.
    + right. split_and!; try done; lia.
  - intros k v. unfold holds. rewrite Hbuf. apply Hent0.
Qed.

(** ** Sequences of inserts *)

Inductive op : Type :=
| Insert (k : K) (v : V).

Definition step (fuel : nat) (m : Map) (o : op) : M (Slot K V) Map :=
  match o with
  | Insert k v => let* (m, _) := insert fuel m k v in ret m
  end.

Fixpoint run (fuel : nat) (ops : list op) (m : Map) : M (Slot K V) Map :=
  match ops with
  | [] => ret m
  | o :: ops => let* m := step fuel m o in run fuel ops m
  end.

Lemma step_spec fuel σ m o :
  wf σ m → capacity_ m < 2 ^ 61 → (Z.to_nat (2 * capacity_ m + 32) <= fuel)%nat →
  ∃ m' σ', step fuel m o σ = Done (m', σ') ∧ wf σ' m' ∧
    length_ m' <= length_ m + 1 ∧
    capacity_ m' <= Z.max (capacity_ m) (Z.max 32 (4 * (length_ m + 1))).
Proof.
  intros Hwf Hcap Hfuel. pose proof Hwf as (_ & _ & _ & _ & _ & Hocc & Hcase).
  destruct o as [k v]; simpl.
  destruct (insert_spec fuel σ m k v) as (m' & σ' & pl & Hrun & Hwf' & Hl' & Hc' & _);
    try done.
  exists m', σ'. unfold bind. rewrite Hrun. split_and!; try done; [lia|].
  rewrite Hc'. unfold full. destruct (Z.eqb_spec (length_ m) (usable_ m)) as [Hfull|]; [|lia].
  destruct (Z.eqb_spec (capacity_ m) 0); [lia|].
  destruct Hcase as [[? ?]|(? & Hus & _)]; [lia|].
  rewrite Hfull, Hus. Z.div_mod_to_equations. lia.
Qed.

Lemma run_spec fuel B : ∀ ops σ m,
  wf σ m → capacity_ m <= B →
  Z.max 32 (4 * (length_ m + Z.of_nat (List.length ops) + 1)) <= B → B < 2 ^ 61 →
  (Z.to_nat (2 * B + 32) <= fuel)%nat →
  ∃ m' σ', run fuel ops m σ = Done (m', σ') ∧ wf σ' m'.
Proof.
  induction ops as [|o ops IH]; intros σ m Hwf Hcap Hlen HB Hfuel.
  { by exists m, σ. }
  simpl in Hlen. pose proof Hwf as (_ & _ & _ & _ & _ & Hocc & Hcase).
  assert (0 <= capacity_ m) as Hc0 by (destruct Hcase as [[? _]|[? _]]; lia).
  destruct (step_spec fuel σ m o) as (m1 & σ1 & Hstep & Hwf1 & Hl1 & Hc1); try done; try lia.
  destruct (IH σ1 m1) as (m' & σ' & Hrun & Hwf'); try done; try lia.
  exists m', σ'. simpl. unfold bind. by rewrite Hstep.
Qed.





Lemma try_get_same fuel σ m σ' m' k :
  wf σ m → wf σ' m' → (∀ v, holds σ' m' k v ↔ holds σ m k v) →
  (Z.to_nat (capacity_ m) < fuel)%nat → (Z.to_nat (capacity_ m') < fuel)%nat →
  ∃ r, try_get fuel m k σ = Done (r, σ) ∧ try_get fuel m' k σ' = Done (r, σ').
Proof.
  intros Hwf Hwf' Hent Hfuel Hfuel'.
  destruct (entry_dec (buffer σ m) k) as [[v Hold]|Hfresh].
  - exists (Some v). split; apply try_get_hit; try done; try lia. by apply Hent.
  - exists None. split; apply try_get_miss; try done.
    intros v Hv%Hent. by apply (Hfresh v).
Qed.



Lemma wf_usable σ m : wf σ m → usable_ m = capacity_ m / 4 * 3.
Proof.
  intros (_ & _ & _ & _ & _ & _ & [[-> ->]|(_ & -> & _)]); done.
Qed.

(** C1 (what the code does instead): on a capacity-8 map, [insert(a, v1)],
    [insert(b, v2)], [insert(a, v3)] leave the two pairs ([a], [v3]) and
    ([b], [v2]) in the table and [try_get(a)] returns [v3], but [length()]
    is 3: [insert] adds one to [length_] on the overwrite path too. *)
Theorem insert_existing_key_increments_length fuel σ (a b : K) (v1 v2 v3 : V) :
  a ≠ b → σ !! 0 = None → (48 <= fuel)%nat →
  ∃ m0 σ0 m1 p1 σ1 m2 p2 σ2 m3 p3 σ3,
    new 8 σ = Done (m0, σ0) ∧
    insert fuel m0 a v1 σ0 = Done ((m1, p1), σ1) ∧
    insert fuel m1 b v2 σ1 = Done ((m2, p2), σ2) ∧
    insert fuel m2 a v3 σ2 = Done ((m3, p3), σ3) ∧
    (∀ k v, holds σ3 m3 k v ↔ (k = a ∧ v = v3) ∨ (k = b ∧ v = v2)) ∧
    try_get fuel m3 a σ3 = Done (Some v3, σ3) ∧
    length m3 = 3.
Proof.
  intros Hab Hnull Hfuel.
  assert (next_pow2 8 = 8) as Hp2 by done.
  destruct (new_spec σ 8 Hnull) as (m0 & σ0 & Hnew & Hwf0 & Hc0 & Hl0 & Hent0);
    [rewrite Hp2; lia|].
  rewrite Hp2 in Hc0. pose proof (wf_usable _ _ Hwf0) as Hu0. rewrite Hc0 in Hu0.
  destruct (insert_spec fuel σ0 m0 a v1 Hwf0) as (m1 & σ1 & p1 & Hi1 & Hwf1 & Hl1 & Hc1 & Hent1);
    [lia..|].
  unfold full in Hc1. rewrite Hl0, Hu0, Hc0 in Hc1. simpl in Hc1.
  pose proof (wf_usable _ _ Hwf1) as Hu1. rewrite Hc1 in Hu1.
  destruct (insert_spec fuel σ1 m1 b v2 Hwf1) as (m2 & σ2 & p2 & Hi2 & Hwf2 & Hl2 & Hc2 & Hent2);
    [lia..|].
  unfold full in Hc2. rewrite Hl1, Hl0, Hu1, Hc1 in Hc2. simpl in Hc2.
  pose proof (wf_usable _ _ Hwf2) as Hu2. rewrite Hc2 in Hu2.
  destruct (insert_spec fuel σ2 m2 a v3 Hwf2) as (m3 & σ3 & p3 & Hi3 & Hwf3 & Hl3 & Hc3 & Hent3);
    [lia..|].
  unfold full in Hc3. rewrite Hl2, Hl1, Hl0, Hu2, Hc2 in Hc3. simpl in Hc3.
  assert (∀ k v, holds σ3 m3 k v ↔ (k = a ∧ v = v3) ∨ (k = b ∧ v = v2)) as Hent.
  { intros k v. rewrite Hent3, Hent2, Hent1. split.
    - intros [?|[Hka [[-> ->]|[Hkb [[-> ->]|[_ H0]]]]]]; [by left|by right|done|].
      by apply Hent0 in H0.
    - intros [[-> ->]|[-> ->]]; [by left|]. right. split; [done|]. by left. }
  exists m0, σ0, m1, p1, σ1, m2, p2, σ2, m3, p3, σ3. split_and!; try done.
  - apply try_get_hit; [done| |lia]. apply Hent. by left.
  - unfold length. lia.
Qed.

End zeroed.

End map.
End Map.

(** * Moving containers *)


(** * Concrete containers *)

(** Keys are 64-bit integers that hash to themselves. *)
Definition id_hash (k : Z) : Z := u64 k.

Lemma id_hash_range k : 0 <= id_hash k < 2 ^ 64.
Proof. unfold id_hash, u64. apply Z.mod_pos_bound. lia. Qed.

(** An allocator that returns zeroed memory. *)
Definition zeroed (K V : Type) : Allocator (Map.Slot K V) :=
  filling_allocator Map.empty_slot.

Lemma zeroed_cells K V (σ : store (Map.Slot K V)) n :
  @alloc_cells _ (zeroed K V) σ n = replicate (Z.to_nat n) Map.empty_slot.
Proof. done. Qed.

(** An allocator that returns memory filled with a stale tag. *)
Definition stale : Allocator (Map.Slot Z Z) :=
  filling_allocator (Map.mkSlot 7 None).

Definition heap_allocator : Allocator (option Z) := filling_allocator None.

(** ** A clone loses entries *)

(** C2 (what the code does instead): for a key or value type that is not
    trivial, [clone()] copies the slots at the indices below [length_], not
    below [capacity_].  A capacity-8 map whose only key has the ideal index
    5 is cloned into a map of length 1 that holds nothing: [try_get] finds
    the key in the original and not in the clone. *)
Theorem clone_drops_entries :
  ∃ m c σ,
    (let* m := Map.new (Allocator0 := zeroed Z string) 8 in
     let* (m, _) := Map.insert (Allocator0 := zeroed Z string) id_hash 16 m
                      (5 * 2 ^ 61) "five"%string in
     let* c := Map.clone (Allocator0 := zeroed Z string) id_hash false m in
     ret (m, c)) ∅ = Done ((m, c), σ) ∧
    Map.try_get id_hash 16 m (5 * 2 ^ 61) σ = Done (Some "five"%string, σ) ∧
    Map.try_get id_hash 16 c (5 * 2 ^ 61) σ = Done (None, σ) ∧
    Map.length c = 1 ∧
    Forall (λ s, Map.hash s = Map.EMPTY_SLOT) (Map.buffer σ c).
Proof.
  eexists _, _, _. split; [vm_compute; reflexivity|].
  split_and!; try (vm_compute; reflexivity).
  unfold Map.buffer. cbn. repeat constructor.
Qed.

(** ** Erasing probes past an empty slot *)

(** C3 (what the code does instead): the loop of [try_erase] has no test for
    an empty slot.  In the clone of a map whose two keys have the ideal
    index 7, the first key is lost (see C2) and the second sits at index 0
    behind the empty slot 7: [try_get] stops at the empty slot and reports
    the key absent, [try_erase] walks past it, finds the key, destroys its
    slot and returns true, whatever tag the destroyed slot then shows. *)
Theorem try_erase_probes_past_empty_slot (stale_tag : Map.Stale) :
  ∃ c σ c' σ',
    (let* m := Map.new (Allocator0 := zeroed Z string) 8 in
     let* (m, _) := Map.insert (Allocator0 := zeroed Z string) id_hash 16 m
                      (7 * 2 ^ 61) "x"%string in
     let* (m, _) := Map.insert (Allocator0 := zeroed Z string) id_hash 16 m
                      (7 * 2 ^ 61 + 2) "y"%string in
     Map.clone (Allocator0 := zeroed Z string) id_hash false m) ∅ = Done (c, σ) ∧
    Map.tag (Map.buffer σ c) 7 = Map.EMPTY_SLOT ∧
    Map.ideal c (Map.hash_ id_hash (7 * 2 ^ 61 + 2)) = 7 ∧
    Map.try_get id_hash 16 c (7 * 2 ^ 61 + 2) σ = Done (None, σ) ∧
    Map.try_erase id_hash true stale_tag 16 c (7 * 2 ^ 61 + 2) σ = Done ((c', true), σ').
Proof.
  eexists _, _, _, _. split; [vm_compute; reflexivity|].
  split_and!; vm_compute; reflexivity.
Qed.

(** ** Displacements that decrease *)


(** ** The running distance after a swap *)

(** The table [0, 2, 2^62, 2^62 + 2, -, -, -, -]: two keys of ideal index 0
    and two of ideal index 2, as four inserts into a capacity-8 map leave
    them. *)
Definition swap_table : list (Map.Slot Z Z) :=
  [Map.new_slot id_hash 0 10; Map.new_slot id_hash 2 11;
   Map.new_slot id_hash (2 ^ 62) 12; Map.new_slot id_hash (2 ^ 62 + 2) 13;
   Map.empty_slot; Map.empty_slot; Map.empty_slot; Map.empty_slot].

Definition swap_map : Map.Map := Map.mkMap 1 8 4 6 61.

(** C5, as the spec words it, fails: inserting a third key of ideal index 0
    into [swap_table], the source leaves the evicted key [2^62] behind
    [2^62 + 2], while a loop that keeps the running [dist] after the swap
    would evict [2^62 + 2] as well. *)
Lemma insert_slot_same_dist_differs :
  (let* m := Map.new (Allocator0 := zeroed Z Z) 8 in
   let* m := Map.run (Allocator0 := zeroed Z Z) id_hash 96
               [Map.Insert 0 10; Map.Insert 2 11; Map.Insert (2 ^ 62) 12;
                Map.Insert (2 ^ 62 + 2) 13] m in
   let* cells := load (Map.data_ m) in
   ret (m, cells)) ∅ = Done ((swap_map, swap_table), {[1 := swap_table]}) ∧
  Map.insert_slot_loop 16 swap_map swap_table (Map.new_slot id_hash 4 14) 0 None 0
  ≠ Map.insert_slot_loop_same_dist 16 swap_map swap_table (Map.new_slot id_hash 4 14)
      0 None 0.
Proof.
  split; [vm_compute; reflexivity|]. vm_compute. discriminate.
Qed.

(** ** A map constructed over stale memory *)

(** C9, as the spec words it, fails: the constructor writes no slot, so over
    memory that the allocator did not zero no slot of the new map is
    [EMPTY_SLOT]; and a capacity of 2 gives [usable_ = (2 / 4) * 3 = 0], not
    [2 * 3 / 4 = 1]. *)
Lemma new_map_slots_not_empty :
  (∃ m σ, Map.new (Allocator0 := stale) 8 ∅ = Done (m, σ) ∧
          Forall (λ s, Map.hash s ≠ Map.EMPTY_SLOT) (Map.buffer σ m)) ∧
  (∃ m σ, Map.new (Allocator0 := zeroed Z Z) 2 ∅ = Done (m, σ) ∧
          Map.capacity_ m = 2 ∧ Map.usable_ m = 0 ∧ Map.capacity_ m * 3 / 4 = 1).
Proof.
  split.
  - eexists _, _. split; [vm_compute; reflexivity|].
    unfold Map.buffer. cbn. repeat constructor; discriminate.
  - eexists _, _. split; [vm_compute; reflexivity|]. split_and!; reflexivity.
Qed.

(** ** Growing into stale memory *)


(** ** Moving a map onto itself *)


(** ** A map of capacity 1 *)

Definition full_table : list (Map.Slot Z Z) :=
  [Map.new_slot id_hash 0 10; Map.new_slot id_hash 2 11].

Definition swapped_table : list (Map.Slot Z Z) :=
  [Map.new_slot id_hash 4 12; Map.new_slot id_hash 2 11].

Definition full_map : Map.Map := Map.mkMap 2 2 2 0 63.

(** Once the two slots are taken, the probe for a third key goes round the
    table for ever, exchanging the entry it carries with the one at index 0
    on every turn. *)
Lemma insert_slot_loop_diverges fuel :
  Map.insert_slot_loop fuel full_map swapped_table (Map.new_slot id_hash 0 10)
    1 (Some 0) 1 = Timeout ∧
  Map.insert_slot_loop fuel full_map swapped_table (Map.new_slot id_hash 0 10)
    0 (Some 0) 2 = Timeout ∧
  Map.insert_slot_loop fuel full_map full_table (Map.new_slot id_hash 4 12)
    1 (Some 0) 1 = Timeout ∧
  Map.insert_slot_loop fuel full_map full_table (Map.new_slot id_hash 4 12)
    0 (Some 0) 2 = Timeout.
Proof.
  induction fuel as [|fuel (IH1 & IH2 & IH3 & IH4)]; [done|].
  split_and!.
  - exact IH2.
  - exact IH3.
  - exact IH4.
  - exact IH1.
Qed.

(** C10 (what the code does instead): [Map(1)] has [usable_ = 0]; its first
    insert grows it to capacity 2, whose [usable_] is 0 again, and from then
    on [length_ == usable_] never holds, so the map never grows.  After two
    inserts [length_ = 2 > usable_ = 0] and no slot is empty; a third insert
    never returns. *)
Theorem capacity_one_map_overfills :
  (let* m := Map.new (Allocator0 := zeroed Z Z) 1 in
   let* (m, _) := Map.insert (Allocator0 := zeroed Z Z) id_hash 16 m 0 10 in
   let* (m, _) := Map.insert (Allocator0 := zeroed Z Z) id_hash 16 m 2 11 in
   ret m) ∅ = Done (full_map, {[2 := full_table]}) ∧
  Map.length_ full_map > Map.usable_ full_map ∧
  Forall (λ s, Map.hash s ≠ Map.EMPTY_SLOT) full_table ∧
  ∀ fuel, Map.insert (Allocator0 := zeroed Z Z) id_hash fuel full_map 4 12
            {[2 := full_table]} = Timeout.
Proof.
  split; [vm_compute; reflexivity|]. split; [done|].
  split; [repeat constructor; discriminate|].
  intros fuel.
  assert (Map.insert_slot_loop fuel full_map full_table (Map.new_slot id_hash 4 12) 0 None 0
          = Timeout) as Hloop.
  { destruct fuel as [|[|[|fuel]]]; try done.
    destruct (insert_slot_loop_diverges fuel) as (H & _). exact H. }
  unfold Map.insert, Map.insert_slot.
  change (Map.full full_map) with false. cbv iota.
  unfold bind at 1. unfold ret at 1. unfold bind at 1. unfold bind at 1.
  change (lift (Map.shr (Map.hash (Map.new_slot id_hash 4 12)) (Map.shift_ full_map))
            {[2 := full_table]}) with (Done (0, ({[2 := full_table]} : store (Map.Slot Z Z)))).
  cbv iota beta. unfold bind at 1.
  change (load (Map.data_ full_map) ({[2 := full_table]} : store (Map.Slot Z Z)))
    with (Done (full_table, ({[2 := full_table]} : store (Map.Slot Z Z)))).
  cbv iota beta. unfold bind at 1. rewrite Hloop. done.
Qed.

(** * The theorems at concrete containers *)

(** [swap_map] over [swap_table] is what [Map(8)] and four inserts build. *)
Lemma swap_map_built :
  (let* m := Map.new (Allocator0 := zeroed Z Z) 8 in
   Map.run (Allocator0 := zeroed Z Z) id_hash 160
     [Map.Insert 0 10; Map.Insert 2 11; Map.Insert (2 ^ 62) 12;
      Map.Insert (2 ^ 62 + 2) 13] m) ∅ = Done (swap_map, {[1 := swap_table]}).
Proof. vm_compute. reflexivity. Qed.

Lemma swap_map_wf : Map.wf id_hash {[1 := swap_table]} swap_map.
Proof.
  pose proof swap_map_built as Hrun. unfold bind in Hrun.
  destruct (Map.new_spec id_hash id_hash_range (zeroed_cells Z Z) ∅ 8)
    as (m0 & σ0 & Hnew & Hwf0 & Hc0 & Hl0 & _); [done|by vm_compute|].
  rewrite Hnew in Hrun.
  change (next_pow2 8) with 8 in Hc0.
  destruct (Map.run_spec id_hash id_hash_range (zeroed_cells Z Z) 160 64
              [Map.Insert 0 10; Map.Insert 2 11; Map.Insert (2 ^ 62) 12;
               Map.Insert (2 ^ 62 + 2) 13] σ0 m0)
    as (m' & σ' & Hrun' & Hwf'); [done|lia|simpl; lia|lia|simpl; lia|].
  rewrite Hrun' in Hrun. by injection Hrun as -> ->.
Qed.




Lemma insert_existing_key_increments_length_witness :
  ∃ m0 σ0 m1 p1 σ1 m2 p2 σ2 m3 p3 σ3,
    Map.new (Allocator0 := zeroed Z string) 8 ∅ = Done (m0, σ0) ∧
    Map.insert (Allocator0 := zeroed Z string) id_hash 48 m0 1 "one"%string σ0 = Done ((m1, p1), σ1) ∧
    Map.insert (Allocator0 := zeroed Z string) id_hash 48 m1 2 "two"%string σ1 = Done ((m2, p2), σ2) ∧
    Map.insert (Allocator0 := zeroed Z string) id_hash 48 m2 1 "three"%string σ2 = Done ((m3, p3), σ3) ∧
    (∀ k v, Map.holds id_hash σ3 m3 k v ↔
            (k = 1 ∧ v = "three"%string) ∨ (k = 2 ∧ v = "two"%string)) ∧
    Map.try_get id_hash 48 m3 1 σ3 = Done (Some "three"%string, σ3) ∧
    Map.length m3 = 3.
Proof.
  apply (Map.insert_existing_key_increments_length id_hash id_hash_range
           (zeroed_cells Z string) 48 ∅ 1 2).
  - lia.
  - reflexivity.
  - lia.
Defined.

Lemma insert_slot_swap_resets_dist_witness :
  Map.distance swap_map 2 2 < 2 ∧
  Map.insert_slot_loop 16 swap_map swap_table (Map.new_slot id_hash 4 14) 2 None 2 =
    let! cells' := cell_set swap_table 2 (Map.moved (Map.new_slot id_hash 4 14)) in
    Map.insert_slot_loop 15 swap_map cells' (Map.moved (Map.new_slot id_hash (2 ^ 62) 12))
      (Map.advance swap_map 2) (Some (default 2 None))
      (u64 (Map.distance swap_map 2 2 + 1)).
Proof.
  split; [vm_compute; reflexivity|].
  apply (Map.insert_slot_swap_resets_dist 15 swap_map swap_table
           (Map.new_slot id_hash 4 14) 2 None 2 (Map.new_slot id_hash (2 ^ 62) 12) 2).
  - reflexivity.
  - vm_compute. lia.
  - reflexivity.
  - reflexivity.
  - vm_compute. reflexivity.
Defined.

Definition heap_ops : list (Heap.op (T := Z)) :=
  [Heap.Push 5; Heap.Push 3; Heap.Push 8; Heap.Push 1; Heap.Pop; Heap.Push 4;
   Heap.Pop; Heap.Push 3].

Lemma heap_order_invariant_witness :
  Heap.valid 0 heap_ops ∧
  ∃ h' σ', Heap.run (Allocator0 := heap_allocator) Z.ltb false 16 heap_ops
             Heap.empty_heap ∅ = Done (h', σ') ∧
    Heap.heap_ordered Z.ltb (Heap.buffer σ' h') (Heap.length_ h') ∧
    Heap.mirror Z.ltb heap_ops (Heap.live ∅ Heap.empty_heap) (Heap.live σ' h') ∧
    (0 < Heap.length_ h' →
     ∃ m, Heap.top h' σ' = Done (m, σ') ∧ Heap.is_min Z.ltb m (Heap.live σ' h')).
Proof.
  split; [simpl; lia|].
  apply (Heap.heap_order_invariant Z.ltb false).
  - intros x y. lia.
  - intros x y z. lia.
  - unfold Heap.wf, Heap.filled. simpl. split_and!; (reflexivity || lia || auto).
  - intros i Hi. simpl in Hi. lia.
  - simpl. lia.
  - simpl. lia.
  - simpl. lia.
Defined.






(** * Further properties of the heap *)

Module HeapFacts.

(** The loop of [explicit Heap(Ss&&... init)]: the fold [(push(init), ...)]. *)
Fixpoint push_all {T} `{!Allocator (option T)} (lt : T → T → bool) (fuel : nat)
    (init : list T) (h : Heap.Heap) : M (option T) Heap.Heap :=
  match init with
  | [] => ret h
  | x :: init => let* h := Heap.push lt fuel h x in push_all lt fuel init h
  end.

(** [explicit Heap(Ss&&... init)]: [reserve(sizeof...(Ss))] on the default
    members, then one push per argument. *)
Definition of_list {T} `{!Allocator (option T)} (lt : T → T → bool) (fuel : nat)
    (init : list T) : M (option T) Heap.Heap :=
  let* h := Heap.reserve Heap.empty_heap (Z.of_nat (List.length init)) in
  push_all lt fuel init h.

Section heap_properties.
Context {T : Type}.
Variable lt : T → T → bool.
Variable Must_Destruct : bool.
Context `{!Allocator (option T)}.
Hypothesis lt_asym : ∀ x y, lt x y = true → lt y x = false.
Hypothesis le_trans : ∀ x y z, lt y x = false → lt z y = false → lt z x = false.

(** Takes a successful monadic run apart, one [bind] at a time. *)
Local Ltac unbind :=
  repeat match goal with
  | H : context [match ?x with _ => _ end] |- _ =>
      destruct x eqn:?; try discriminate; simplify_eq
  end.

(** A push into a heap that is not full stays in the buffer it has. *)
Lemma push_in_place fuel σ h v h' σ' :
  Heap.full h = false → Heap.push lt fuel h v σ = Done (h', σ') →
  Heap.data_ h' = Heap.data_ h ∧ Heap.capacity_ h' = Heap.capacity_ h ∧
  ∀ q, q ≠ Heap.data_ h → σ' !! q = σ !! q.
Proof.
  intros Hfull Hrun. unfold Heap.push in Hrun. rewrite Hfull in Hrun.
  unfold bind, ret, load, lift, save in Hrun. unbind. simpl.
  split_and!; try done.
  intros q Hq. by rewrite lookup_insert_ne.
Qed.

Lemma push_room_spec fuel σ h v :
  Heap.wf σ h → Heap.ordered lt σ h → Heap.length_ h < Heap.capacity_ h →
  Heap.capacity_ h < 2 ^ 62 → (Z.to_nat (Heap.length_ h) < fuel)%nat →
  ∃ h' σ', Heap.push lt fuel h v σ = Done (h', σ') ∧
    Heap.wf σ' h' ∧ Heap.ordered lt σ' h' ∧
    Heap.data_ h' = Heap.data_ h ∧ Heap.capacity_ h' = Heap.capacity_ h ∧
    Heap.length_ h' = Heap.length_ h + 1 ∧
    Heap.live σ' h' ≡ₚ Some v :: Heap.live σ h ∧
    ∀ q, q ≠ Heap.data_ h → σ' !! q = σ !! q.
Proof.
  intros Hwf Hord Hroom Hcap Hfuel.
  destruct (Heap.push_spec lt lt_asym le_trans fuel σ h v)
    as (h' & σ' & Hrun & Hwf' & Hord' & Hl' & Hperm & _); try done.
  destruct (push_in_place fuel σ h v h' σ') as (Hd & Hc & Hframe); try done.
  { unfold Heap.full. lia. }
  by exists h', σ'.
Qed.

Lemma push_full_step fuel σ h v h1 σ1 :
  Heap.full h = true → Heap.grow h σ = Done (h1, σ1) → Heap.full h1 = false →
  Heap.push lt fuel h v σ = Heap.push lt fuel h1 v σ1.
Proof.
  intros Hfull Hgrow Hfull1. unfold Heap.push. rewrite Hfull, Hfull1.
  unfold bind at 1. rewrite Hgrow. done.
Qed.

Lemma push_all_spec fuel : ∀ xs σ h,
  Heap.wf σ h → Heap.ordered lt σ h →
  Heap.length_ h + Z.of_nat (List.length xs) <= Heap.capacity_ h →
  Heap.capacity_ h < 2 ^ 62 →
  (Z.to_nat (Heap.length_ h) + List.length xs <= fuel)%nat →
  ∃ h' σ', push_all lt fuel xs h σ = Done (h', σ') ∧
    Heap.wf σ' h' ∧ Heap.ordered lt σ' h' ∧
    Heap.data_ h' = Heap.data_ h ∧ Heap.capacity_ h' = Heap.capacity_ h ∧
    Heap.length_ h' = Heap.length_ h + Z.of_nat (List.length xs) ∧
    Heap.live σ' h' ≡ₚ (Some <$> xs) ++ Heap.live σ h ∧
    ∀ q, q ≠ Heap.data_ h → σ' !! q = σ !! q.
Proof.
  induction xs as [|x xs IH]; intros σ h Hwf Hord Hroom Hcap Hfuel.
  { exists h, σ. simpl. split_and!; try done. lia. }
  simpl in Hroom, Hfuel.
  pose proof Hwf as (_ & _ & _ & Hr & _).
  destruct (push_room_spec fuel σ h x)
    as (h1 & σ1 & Hrun & Hwf1 & Hord1 & Hd1 & Hc1 & Hl1 & Hperm1 & Hframe1);
    try done; try lia.
  destruct (IH σ1 h1) as (h' & σ' & Hrun' & Hwf' & Hord' & Hd' & Hc' & Hl' & Hperm' & Hframe');
    try done; try lia.
  exists h', σ'. simpl. unfold bind. rewrite Hrun. split_and!; try done; try congruence.
  - lia.
  - rewrite Hperm', Hperm1. simpl. by rewrite Permutation_middle.
  - intros q Hq. rewrite Hframe' by congruence. by apply Hframe1.
Qed.

Lemma wf_top σ h :
  Heap.wf σ h → Heap.ordered lt σ h → 0 < Heap.length_ h →
  ∃ m, Heap.top h σ = Done (m, σ) ∧ Some m ∈ Heap.live σ h ∧
       Heap.is_min lt m (Heap.live σ h).
Proof.
  intros Hwf Hord Hlen. pose proof Hwf as (_ & _ & _ & _ & _ & Hf).
  destruct (Hf 0 ltac:(lia)) as [m Hm]. exists m. split_and!.
  - by apply Heap.top_Done.
  - unfold Heap.live. apply list_elem_of_lookup. exists 0%nat.
    rewrite lookup_take_lt by lia. by apply (Heap.lookup_val_Some _ 0).
  - by apply Heap.top_is_min.
Qed.

(** X14: [push] with room left.  A push into a heap with
    [length < capacity] returns, adds the element, keeps the order, and
    stays in the buffer the heap has: [data_] and [capacity_] are unchanged
    (no reallocation) and no other buffer of the store is touched. *)
Theorem push_with_room_keeps_buffer fuel σ h v :
  Heap.wf σ h → Heap.ordered lt σ h → Heap.length_ h < Heap.capacity_ h →
  Heap.capacity_ h < 2 ^ 62 → (Z.to_nat (Heap.length_ h) < fuel)%nat →
  ∃ h' σ', Heap.push lt fuel h v σ = Done (h', σ') ∧
    Heap.wf σ' h' ∧ Heap.ordered lt σ' h' ∧
    Heap.data_ h' = Heap.data_ h ∧ Heap.capacity_ h' = Heap.capacity_ h ∧
    Heap.length_ h' = Heap.length_ h + 1 ∧
    Heap.live σ' h' ≡ₚ Some v :: Heap.live σ h ∧
    ∀ q, q ≠ Heap.data_ h → σ' !! q = σ !! q.
Proof.
  intros Hwf Hord Hroom Hcap Hfuel.
  destruct (push_room_spec fuel σ h v) as (h' & σ' & Hrun & Hrest); try done.
  by exists h', σ'.
Qed.

(** X15: [push] on a full heap.  The capacity doubles (8 for a heap without a
    buffer), the elements move to a fresh buffer, the old buffer is freed,
    and the new element is added in heap order. *)
Theorem push_on_full_heap_reallocates fuel σ h v :
  Heap.wf σ h → Heap.ordered lt σ h → Heap.length_ h = Heap.capacity_ h →
  Heap.capacity_ h < 2 ^ 61 → (Z.to_nat (Heap.length_ h) < fuel)%nat →
  ∃ h' σ', Heap.push lt fuel h v σ = Done (h', σ') ∧
    Heap.wf σ' h' ∧ Heap.ordered lt σ' h' ∧
    Heap.capacity_ h' = (if Heap.capacity_ h =? 0 then 8 else 2 * Heap.capacity_ h) ∧
    Heap.length_ h' = Heap.length_ h + 1 ∧
    Heap.live σ' h' ≡ₚ Some v :: Heap.live σ h ∧
    Heap.data_ h' ≠ Heap.data_ h ∧ σ !! Heap.data_ h' = None ∧
    σ' !! Heap.data_ h = None ∧
    ∀ q, q ≠ Heap.data_ h → q ≠ Heap.data_ h' → σ' !! q = σ !! q.
Proof.
  intros Hwf Hord Hfull Hcap Hfuel.
  pose proof Hwf as (Hnull & Hptr & Hlen & Hr & Hc & Hf).
  set (n := if Heap.capacity_ h =? 0 then 8 else 2 * Heap.capacity_ h).
  assert (Heap.capacity_ h < n < 2 ^ 62) as Hn.
  { subst n. destruct (Z.eqb_spec (Heap.capacity_ h) 0); lia. }
  assert (Heap.grow h σ
          = Done (Heap.mkHeap (alloc_addr σ n) (Heap.length_ h) n, Heap.reserved σ h n))
    as Hgrow.
  { unfold Heap.grow.
    replace (if Heap.capacity_ h =? 0 then 8 else u64 (2 * Heap.capacity_ h)) with n.
    - apply Heap.reserve_Done; [done|lia].
    - subst n. destruct (Heap.capacity_ h =? 0); [done|]. rewrite u64_small; lia. }
  set (h1 := Heap.mkHeap (alloc_addr σ n) (Heap.length_ h) n) in *.
  set (σ1 := Heap.reserved σ h n) in *.
  assert (Heap.wf σ1 h1) as Hwf1 by (apply Heap.reserved_wf; [done|lia]).
  assert (Heap.live σ1 h1 = Heap.live σ h) as Hlive1 by by apply Heap.reserved_live.
  assert (Heap.ordered lt σ1 h1) as Hord1 by by apply (Heap.live_ordered lt σ h).
  destruct (push_room_spec fuel σ1 h1 v)
    as (h' & σ' & Hrun & Hwf' & Hord' & Hd' & Hc' & Hl' & Hperm' & Hframe');
    try done; simpl; try lia.
  exists h', σ'. rewrite (push_full_step fuel σ h v h1 σ1); try done;
    [|unfold Heap.full; lia|unfold Heap.full; simpl; lia].
  pose proof (Heap.heap_wf_fresh σ h n Hwf) as Hfresh.
  split_and!; try done.
  - by rewrite Hperm', Hlive1.
  - by rewrite Hd'.
  - rewrite Hd'. apply alloc_addr_fresh.
  - rewrite Hframe' by (simpl; congruence). subst σ1. unfold Heap.reserved.
    apply lookup_delete_eq.
  - intros q Hq Hq'. rewrite Hframe' by congruence. subst σ1. unfold Heap.reserved.
    rewrite lookup_delete_ne by done. rewrite lookup_insert_ne; [done|].
    rewrite Hd' in Hq'. simpl in Hq'. congruence.
Qed.

Lemma heap_reserve_spec σ h n :
  Heap.wf σ h → n < 2 ^ 63 →
  ∃ h' σ', Heap.reserve h n σ = Done (h', σ') ∧
    Heap.wf σ' h' ∧ Heap.length_ h' = Heap.length_ h ∧
    Heap.capacity_ h' = Z.max (Heap.capacity_ h) n ∧
    Heap.live σ' h' = Heap.live σ h ∧
    (n <= Heap.capacity_ h → h' = h ∧ σ' = σ) ∧
    (Heap.capacity_ h < n →
       σ !! Heap.data_ h' = None ∧ σ' !! Heap.data_ h = None ∧
       ∀ q, q ≠ Heap.data_ h → q ≠ Heap.data_ h' → σ' !! q = σ !! q).
Proof.
  intros Hwf Hn. destruct (Z.le_gt_cases n (Heap.capacity_ h)) as [Hle|Hgt].
  - exists h, σ. rewrite Heap.reserve_noop by done.
    split_and!; try done; [lia|lia].
  - exists (Heap.mkHeap (alloc_addr σ n) (Heap.length_ h) n), (Heap.reserved σ h n).
    rewrite Heap.reserve_Done by done.
    pose proof (Heap.reserved_live σ h n Hwf) as Hlive.
    pose proof (Heap.heap_wf_fresh σ h n Hwf) as Hfresh.
    split_and!; try done.
    + apply Heap.reserved_wf; [done|lia].
    + simpl. lia.
    + lia.
    + intros _. simpl. split_and!.
      * apply alloc_addr_fresh.
      * unfold Heap.reserved. apply lookup_delete_eq.
      * intros q Hq Hq'. unfold Heap.reserved.
        rewrite lookup_delete_ne by done. by rewrite lookup_insert_ne.
Qed.

(** X17: [reserve].  A request within the capacity changes nothing; a larger
    one moves the elements, in the same array order, to a fresh buffer of
    exactly the requested capacity and frees the old buffer. *)
Theorem heap_reserve_keeps_elements σ h n :
  Heap.wf σ h → n < 2 ^ 63 →
  ∃ h' σ', Heap.reserve h n σ = Done (h', σ') ∧
    Heap.wf σ' h' ∧ Heap.length_ h' = Heap.length_ h ∧
    Heap.capacity_ h' = Z.max (Heap.capacity_ h) n ∧
    Heap.live σ' h' = Heap.live σ h ∧
    (Heap.ordered lt σ h → Heap.ordered lt σ' h') ∧
    (n <= Heap.capacity_ h → h' = h ∧ σ' = σ) ∧
    (Heap.capacity_ h < n →
       σ !! Heap.data_ h' = None ∧ σ' !! Heap.data_ h = None ∧
       ∀ q, q ≠ Heap.data_ h → q ≠ Heap.data_ h' → σ' !! q = σ !! q).
Proof.
  intros Hwf Hn.
  destruct (heap_reserve_spec σ h n Hwf Hn)
    as (h' & σ' & Hrun & Hwf' & Hl' & Hc' & Hlive' & Hnoop & Hmove).
  exists h', σ'. split_and!; try done.
  by apply Heap.live_ordered.
Qed.

(** X18: [Heap::clone].  The clone has the length, the capacity and the
    elements of the original, in the same array order, in a buffer of its
    own; the original and every other buffer are left as they were. *)
Theorem heap_clone_is_independent_copy σ h :
  Heap.wf σ h →
  ∃ c σ', Heap.clone h σ = Done (c, σ') ∧
    Heap.wf σ' c ∧ Heap.length_ c = Heap.length_ h ∧
    Heap.capacity_ c = Heap.capacity_ h ∧
    Heap.live σ' c = Heap.live σ h ∧
    (Heap.ordered lt σ h → Heap.ordered lt σ' c) ∧
    Heap.data_ c ≠ Heap.data_ h ∧ σ !! Heap.data_ c = None ∧
    ∀ q, q ≠ Heap.data_ c → σ' !! q = σ !! q.
Proof.
  intros Hwf. pose proof Hwf as (Hnull & Hptr & Hlen & Hr & Hc & Hf).
  set (n := Heap.capacity_ h). set (p := alloc_addr σ n).
  set (cells := Heap.live σ h ++ drop (Z.to_nat (Heap.length_ h)) (alloc_cells σ n)).
  pose proof (Heap.heap_wf_fresh σ h n Hwf) as Hfresh.
  assert (Heap.clone h σ = Done (Heap.mkHeap p (Heap.length_ h) n, <[p := cells]> σ)) as Hrun.
  { unfold Heap.clone. unfold bind at 1. unfold alloc at 1. fold n. fold p.
    unfold bind at 1.
    destruct (Heap.load_live_Done σ h (<[p := alloc_cells σ n]> σ) Hwf)
      as (src & -> & Hsrc & Htake).
    { intros _. by rewrite lookup_insert_ne. }
    unfold bind at 1, load at 1. rewrite lookup_insert_eq.
    unfold bind at 1. rewrite Heap.copy_prefix_Done; [|lia|rewrite alloc_cells_length; lia].
    simpl. unfold bind at 1, save at 1. rewrite lookup_insert_eq.
    unfold ret. rewrite insert_insert_eq, Htake. done. }
  assert (Heap.buffer (<[p := cells]> σ) (Heap.mkHeap p (Heap.length_ h) n) = cells) as Hbuf.
  { by apply Heap.buffer_saved. }
  assert (Heap.live (<[p := cells]> σ) (Heap.mkHeap p (Heap.length_ h) n) = Heap.live σ h)
    as Hlive.
  { unfold Heap.live at 1. rewrite Hbuf. simpl. subst cells.
    rewrite take_app_length'; [done|]. symmetry. by apply Heap.length_live. }
  exists (Heap.mkHeap p (Heap.length_ h) n), (<[p := cells]> σ).
  split_and!; try done.
  - unfold Heap.wf. rewrite Hbuf. simpl. split_and!.
    + rewrite lookup_insert_ne; [done|apply alloc_addr_nonnull].
    + right. rewrite lookup_insert_eq. eauto.
    + subst cells. rewrite length_app, Heap.length_live, length_drop, alloc_cells_length by done.
      lia.
    + lia.
    + lia.
    + lia.
    + intros i Hi. subst cells.
      rewrite Heap.val_app_l by (rewrite Heap.length_live by done; lia).
      rewrite Heap.buffer_live_val by lia. by apply Hf.
  - by apply Heap.live_ordered.
  - apply alloc_addr_fresh.
  - intros q Hq. simpl in Hq. by rewrite lookup_insert_ne.
Qed.

(** X19: [Heap::clear].  The heap becomes empty and keeps its buffer and its
    capacity; only the cells of its own live prefix are written, and none
    when the elements need no destructor. *)
Theorem heap_clear_keeps_buffer (σ : store (option T)) h :
  Heap.wf σ h →
  ∃ σ', Heap.clear Must_Destruct h σ
        = Done (Heap.mkHeap (Heap.data_ h) 0 (Heap.capacity_ h), σ') ∧
    Heap.wf σ' (Heap.mkHeap (Heap.data_ h) 0 (Heap.capacity_ h)) ∧
    Heap.live σ' (Heap.mkHeap (Heap.data_ h) 0 (Heap.capacity_ h)) = [] ∧
    (∀ q, q ≠ Heap.data_ h → σ' !! q = σ !! q) ∧
    drop (Z.to_nat (Heap.length_ h)) (Heap.buffer σ' h)
      = drop (Z.to_nat (Heap.length_ h)) (Heap.buffer σ h) ∧
    (Must_Destruct = false → σ' = σ).
Proof.
  intros Hwf. pose proof Hwf as (Hnull & Hptr & Hlen & Hr & Hc & Hf).
  assert (Heap.wf σ (Heap.mkHeap (Heap.data_ h) 0 (Heap.capacity_ h))) as Hwf0.
  { unfold Heap.wf, Heap.buffer in *. simpl. split_and!; try done; try lia.
    intros i Hi. lia. }
  unfold Heap.clear, Heap.destroy_live.
  destruct (Must_Destruct && negb (Heap.length_ h =? 0)) eqn:Hcase.
  - apply andb_true_iff in Hcase as [-> Hnz]. apply negb_true_iff in Hnz.
    assert (0 < Heap.capacity_ h) as Hpos by lia.
    pose proof (Heap.heap_wf_lookup σ h Hwf Hpos) as Hl.
    set (data := replicate (Z.to_nat (Heap.length_ h)) None
                   ++ drop (Z.to_nat (Heap.length_ h)) (Heap.buffer σ h)).
    exists (<[Heap.data_ h := data]> σ).
    unfold bind at 1. unfold bind at 1. unfold load. rewrite Hl.
    replace (Heap.length_ h <=? Z.of_nat (List.length (Heap.buffer σ h))) with true by lia.
    unfold save. rewrite Hl. fold data. unfold ret.
    split_and!; try done.
    + apply (Heap.heap_saved_wf σ h); simpl; try done; try lia.
      * subst data. rewrite length_app, length_replicate, length_drop. lia.
      * intros i Hi. lia.
    + intros q Hq. by rewrite lookup_insert_ne.
    + rewrite (Heap.buffer_saved σ (Heap.data_ h) h data) by done. subst data.
      rewrite drop_app_length'; [done|]. by rewrite length_replicate.
  - exists σ. unfold bind, ret. split_and!; done.
Qed.

(** X20: [~Heap()].  The destructor returns, leaves the all-zero heap, frees
    the heap's buffer and touches no other buffer. *)
Theorem heap_destructor_releases_buffer (σ : store (option T)) h :
  Heap.wf σ h →
  ∃ σ', Heap.destructor Must_Destruct h σ = Done (Heap.mkHeap 0 0 0, σ') ∧
    σ' !! Heap.data_ h = None ∧
    ∀ q, q ≠ Heap.data_ h → σ' !! q = σ !! q.
Proof.
  intros Hwf. pose proof Hwf as (Hnull & Hptr & Hlen & Hr & Hc & Hf).
  assert (Heap.destructible σ h) as Hd.
  { destruct (Z.eq_dec (Heap.length_ h) 0) as [Hz|Hnz]; [by left|right].
    exists (Heap.buffer σ h). split; [apply Heap.heap_wf_lookup; [done|lia]|lia]. }
  destruct (Heap.heap_destructor_Done Must_Destruct σ h Hd) as (σ' & Hrun & Hframe).
  exists σ'. split_and!; try done.
  revert Hrun. unfold Heap.destructor, bind, ret, free. intros Hrun. unbind.
  apply lookup_delete_eq.
Qed.

(** X16: [top] and [pop].  On a non-empty heap [top()] returns an element of
    the heap that no element is below, and [pop()] takes exactly that
    element away, keeping the order, the buffer and the capacity. *)
Theorem pop_removes_what_top_returns fuel σ h :
  Heap.wf σ h → Heap.ordered lt σ h → 0 < Heap.length_ h →
  (Z.to_nat (Heap.length_ h) <= fuel)%nat →
  ∃ x h' σ', Heap.top h σ = Done (x, σ) ∧
    Heap.is_min lt x (Heap.live σ h) ∧
    Heap.pop lt Must_Destruct fuel h σ = Done (h', σ') ∧
    Heap.live σ h ≡ₚ Some x :: Heap.live σ' h' ∧
    Heap.wf σ' h' ∧ Heap.ordered lt σ' h' ∧
    Heap.length_ h' = Heap.length_ h - 1 ∧
    Heap.data_ h' = Heap.data_ h ∧ Heap.capacity_ h' = Heap.capacity_ h ∧
    ∀ q, q ≠ Heap.data_ h → is_Some (σ !! q) → σ' !! q = σ !! q.
Proof.
  intros Hwf Hord Hlen Hfuel.
  destruct (Heap.pop_spec lt Must_Destruct lt_asym le_trans fuel σ h)
    as (h' & σ' & x & Hrun & Hwf' & Hord' & Hl' & Hd' & Hc' & Hx & Hperm & Hframe);
    try done.
  exists x, h', σ'. split_and!; try done.
  - by apply Heap.top_Done.
  - by apply Heap.top_is_min.
  - intros q Hq Hs. apply Hframe; [done|congruence|done].
Qed.

Lemma wf_empty_heap (σ : store (option T)) : σ !! 0 = None → Heap.wf σ Heap.empty_heap.
Proof.
  intros Hnull. unfold Heap.wf, Heap.buffer, Heap.empty_heap. simpl. rewrite Hnull. simpl.
  split_and!; try done; try lia; try (by left). intros i Hi. lia.
Qed.

(** X21: [explicit Heap(Ss&&... init)].  The heap built from the arguments
    holds exactly these elements in heap order, in a buffer of exactly
    [sizeof...(Ss)] cells, and its top is one of them that none is below. *)
Theorem heap_of_list_holds_arguments fuel (σ : store (option T)) init :
  σ !! 0 = None → Z.of_nat (List.length init) < 2 ^ 62 →
  (List.length init <= fuel)%nat →
  ∃ h σ', of_list lt fuel init σ = Done (h, σ') ∧
    Heap.wf σ' h ∧ Heap.ordered lt σ' h ∧
    Heap.length_ h = Z.of_nat (List.length init) ∧
    Heap.capacity_ h = Z.of_nat (List.length init) ∧
    Heap.live σ' h ≡ₚ Some <$> init ∧
    (init ≠ [] →
       ∃ m, Heap.top h σ' = Done (m, σ') ∧ m ∈ init ∧ ∀ y, y ∈ init → lt y m = false) ∧
    ∀ q, is_Some (σ !! q) → σ' !! q = σ !! q.
Proof.
  intros Hnull Hlen Hfuel. set (n := Z.of_nat (List.length init)) in *.
  pose proof (wf_empty_heap σ Hnull) as Hwf0.
  destruct (heap_reserve_spec σ Heap.empty_heap n Hwf0 ltac:(lia))
    as (h0 & σ0 & Hres & Hwf1 & Hl1 & Hc1 & Hlive1 & Hnoop & Hmove).
  simpl in Hl1, Hc1, Hnoop, Hmove.
  assert (Heap.live σ0 h0 = []) as Hnil.
  { unfold Heap.live. rewrite Hl1. by rewrite take_0. }
  assert (Heap.ordered lt σ0 h0) as Hord1.
  { intros i Hi. rewrite Hl1 in Hi. lia. }
  destruct (push_all_spec fuel init σ0 h0)
    as (h & σ' & Hrun & Hwf' & Hord' & Hd' & Hc' & Hl' & Hperm' & Hframe');
    try done; try lia.
  exists h, σ'. unfold of_list, bind. fold n. rewrite Hres.
  rewrite Hnil, app_nil_r in Hperm'.
  split_and!; try done; try lia.
  - intros Hne.
    destruct (wf_top σ' h Hwf' Hord') as (m & Htop & Hin & Hmin).
    { destruct init; [done|]. subst n. simpl in *. lia. }
    exists m. split; [done|]. unfold Heap.is_min in Hmin.
    split.
    + rewrite Hperm' in Hin. apply list_elem_of_fmap in Hin as (y & [= ->] & Hy). done.
    + intros y Hy. apply Hmin. rewrite Hperm'. apply list_elem_of_fmap. eauto.
  - intros q Hq.
    assert (q ≠ 0) as Hq0. { intros ->. rewrite Hnull in Hq. by destruct Hq. }
    destruct (Z.le_gt_cases n 0) as [Hle|Hgt].
    + destruct (Hnoop Hle) as [-> ->]. by apply Hframe'.
    + destruct (Hmove Hgt) as (Hfresh & _ & Hframe0).
      assert (q ≠ Heap.data_ h0) as Hq1.
      { intros ->. rewrite Hfresh in Hq. by destruct Hq. }
      rewrite Hframe' by done. by apply Hframe0.
Qed.

(** X22: [explicit Heap(u64 capacity)].  The new heap is empty, with a fresh
    buffer of the requested capacity; pushing up to [capacity] elements
    never reallocates: [data_] and [capacity_] stay what the constructor
    set, and the heap holds the pushed elements in heap order. *)
Theorem heap_new_serves_capacity_pushes fuel (σ : store (option T)) c xs :
  σ !! 0 = None → 0 <= c < 2 ^ 62 → Z.of_nat (List.length xs) <= c →
  (List.length xs <= fuel)%nat →
  ∃ h0 σ0 h σ', Heap.new c σ = Done (h0, σ0) ∧
    Heap.length_ h0 = 0 ∧ Heap.capacity_ h0 = c ∧ σ !! Heap.data_ h0 = None ∧
    push_all lt fuel xs h0 σ0 = Done (h, σ') ∧
    Heap.data_ h = Heap.data_ h0 ∧ Heap.capacity_ h = c ∧
    Heap.length_ h = Z.of_nat (List.length xs) ∧
    Heap.wf σ' h ∧ Heap.ordered lt σ' h ∧
    Heap.live σ' h ≡ₚ Some <$> xs ∧
    ∀ q, is_Some (σ !! q) → σ' !! q = σ !! q.
Proof.
  intros Hnull Hc Hlen Hfuel. set (p := alloc_addr σ c).
  set (h0 := Heap.mkHeap p 0 c). set (σ0 := <[p := alloc_cells σ c]> σ).
  assert (Heap.wf σ0 h0) as Hwf0.
  { unfold Heap.wf, Heap.buffer. subst h0 σ0. simpl. rewrite lookup_insert_eq. simpl.
    split_and!.
    - rewrite lookup_insert_ne; [done|apply alloc_addr_nonnull].
    - right. eauto.
    - apply alloc_cells_length.
    - lia.
    - lia.
    - lia.
    - intros i Hi. lia. }
  assert (Heap.live σ0 h0 = []) as Hnil by done.
  assert (Heap.ordered lt σ0 h0) as Hord0.
  { intros i Hi. simpl in Hi. lia. }
  destruct (push_all_spec fuel xs σ0 h0)
    as (h & σ' & Hrun & Hwf' & Hord' & Hd' & Hc' & Hl' & Hperm' & Hframe');
    try done; simpl; try lia.
  exists h0, σ0, h, σ'. rewrite Hnil, app_nil_r in Hperm'. simpl in Hl'.
  split_and!; try done.
  - apply alloc_addr_fresh.
  - intros q Hq.
    assert (q ≠ p) as Hqp.
    { intros ->. subst p. rewrite alloc_addr_fresh in Hq. by destruct Hq. }
    rewrite Hframe' by done. subst σ0. by rewrite lookup_insert_ne.
Qed.

End heap_properties.
End HeapFacts.

(** * Further properties of the map *)

Module MapFacts.

(** The reference a map is mirrored against: a finite map that an insert
    updates. *)
Fixpoint model {K V} `{Countable K} (ops : list (Map.op (K := K) (V := V)))
    (r : gmap K V) : gmap K V :=
  match ops with
  | [] => r
  | Map.Insert k v :: ops => model ops (<[k := v]> r)
  end.

(** The fold [(insert(init.first, init.second), ...)] of
    [explicit Map(Ss&&... init)]. *)
Fixpoint insert_all {K V} `{EqDecision K} `{!Allocator (Map.Slot K V)}
    (hash_of : K → Z) (fuel : nat) (init : list (K * V)) (m : Map.Map)
  : M (Map.Slot K V) Map.Map :=
  match init with
  | [] => ret m
  | (k, v) :: init =>
      let* (m, _) := Map.insert hash_of fuel m k v in
      insert_all hash_of fuel init m
  end.

(** [explicit Map(Ss&&... init)]: the inserts run on the default members. *)
Definition of_pairs {K V} `{EqDecision K} `{!Allocator (Map.Slot K V)}
    (hash_of : K → Z) (fuel : nat) (init : list (K * V)) : M (Map.Slot K V) Map.Map :=
  insert_all hash_of fuel init Map.empty_map.

(** ** Iterators *)

(** An iterator is the index [count_] into the slots of its map. *)

(** [Iterator::skip] *)
Fixpoint skip {K V} (fuel : nat) (m : Map.Map) (cells : list (Map.Slot K V))
    (count : Z) : result Z :=
  match fuel with
  | O => Timeout
  | S fuel =>
      if count <? Map.capacity_ m then
        let! s := cell_at cells count in
        if Map.hash s =? Map.EMPTY_SLOT then skip fuel m cells (u64 (count + 1))
        else Done count
      else Done count
  end.

(** [Iterator(M& map, u64 count)] *)
Definition iterator {K V} (fuel : nat) (m : Map.Map) (cells : list (Map.Slot K V))
    (count : Z) : result Z :=
  skip fuel m cells count.

(** [begin()] and [end()] *)
Definition begin {K V} (fuel : nat) (m : Map.Map) (cells : list (Map.Slot K V))
  : result Z :=
  iterator fuel m cells 0.

Definition end_ {K V} (fuel : nat) (m : Map.Map) (cells : list (Map.Slot K V))
  : result Z :=
  iterator fuel m cells (Map.capacity_ m).

(** [operator++] *)
Definition incr {K V} (fuel : nat) (m : Map.Map) (cells : list (Map.Slot K V))
    (count : Z) : result Z :=
  skip fuel m cells (u64 (count + 1)).

(** [operator*]: the pair stored in the slot. *)
Definition deref {K V} (cells : list (Map.Slot K V)) (count : Z) : result (K * V) :=
  let! s := cell_at cells count in
  match Map.data s with
  | Some kv => Done kv
  | None => Fault
  end.

(** [for(auto it = begin(); !(it == end()); ++it)], collecting [*it]. *)
Fixpoint visit {K V} (n fuel : nat) (m : Map.Map) (cells : list (Map.Slot K V))
    (it last : Z) : result (list (K * V)) :=
  if it =? last then Done [] else
  match n with
  | O => Timeout
  | S n =>
      let! kv := deref cells it in
      let! it := incr fuel m cells it in
      let! rest := visit n fuel m cells it last in
      Done (kv :: rest)
  end.

Definition items {K V} (fuel : nat) (m : Map.Map) : M (Map.Slot K V) (list (K * V)) :=
  let* cells := (if Map.capacity_ m =? 0 then ret [] else load (Map.data_ m)) in
  lift (let! first := begin fuel m cells in
        let! last := end_ fuel m cells in
        visit fuel fuel m cells first last).

(** The pairs of the occupied slots, in index order. *)
Definition entries {K V} (cells : list (Map.Slot K V)) : list (K * V) :=
  omap (λ s, if Map.hash s =? Map.EMPTY_SLOT then None else Map.data s) cells.

Section map_properties.
Context {K V : Type} `{Countable K}.
Variable hash_of : K → Z.
Variable Must_Destruct : bool.
Variable stale_tag : Map.Stale.
Context `{!Allocator (Map.Slot K V)}.
Hypothesis hash_of_range : ∀ k, 0 <= hash_of k < 2 ^ 64.

Local Ltac unbind H :=
  repeat match type of H with
  | context [match ?x with _ => _ end] => destruct x eqn:?; try discriminate H
  end.

Lemma wf_capacity_nonneg (σ : store (Map.Slot K V)) m :
  Map.wf hash_of σ m → 0 <= Map.capacity_ m.
Proof. intros (_ & _ & _ & _ & _ & _ & [[? _]|[? _]]); lia. Qed.

Lemma holds_functional (σ : store (Map.Slot K V)) m k v v' :
  Map.wf hash_of σ m → Map.holds hash_of σ m k v → Map.holds hash_of σ m k v' → v = v'.
Proof.
  intros (_ & _ & _ & _ & Hu & _) (i & Hi & Hs) (j & Hj & Hs').
  pose proof (Hu i j k v v' Hi Hj Hs Hs') as ->. rewrite Hs in Hs'.
  by apply Map.new_slot_inj in Hs' as [_ ?].
Qed.

Lemma try_get_exact fuel (σ : store (Map.Slot K V)) m k :
  Map.wf hash_of σ m → (Z.to_nat (Map.capacity_ m) < fuel)%nat →
  ∃ r, Map.try_get hash_of fuel m k σ = Done (r, σ) ∧
       ∀ v, r = Some v ↔ Map.holds hash_of σ m k v.
Proof.
  intros Hwf Hfuel.
  destruct (Map.entry_dec hash_of hash_of_range (Map.buffer σ m) k) as [[v Hv]|Hno].
  - exists (Some v). split; [apply Map.try_get_hit; try done; lia|].
    intros v'. split; [by intros [= <-]|].
    intros Hv'. f_equal. by eapply holds_functional.
  - exists None. split; [by apply Map.try_get_miss|].
    intros v. split; [done|]. intros Hv. by destruct (Hno v).
Qed.

(** X2: lookups.  On a well-formed map [try_get(k)] returns the value [v]
    exactly when the table holds the pair ([k], [v]) and nothing when no
    pair has the key; [contains] and [get] agree with it, [get] of a key
    that is not there dies, and none of them changes the map. *)
Theorem lookup_is_exact fuel (σ : store (Map.Slot K V)) m k :
  Map.wf hash_of σ m → (Z.to_nat (Map.capacity_ m) < fuel)%nat →
  ∃ r, Map.try_get hash_of fuel m k σ = Done (r, σ) ∧
    (∀ v, r = Some v ↔ Map.holds hash_of σ m k v) ∧
    Map.contains hash_of fuel m k σ = Done (bool_decide (is_Some r), σ) ∧
    Map.get hash_of fuel m k σ
      = match r with Some v => Done (v, σ) | None => Abort end.
Proof.
  intros Hwf Hfuel.
  destruct (try_get_exact fuel σ m k Hwf Hfuel) as (r & Hrun & Hr).
  exists r. split_and!; try done.
  - unfold Map.contains, bind. by rewrite Hrun.
  - unfold Map.get, bind. rewrite Hrun. by destruct r.
Qed.

(** X23: [hash_].  The tag of a key is a 64-bit value with bit 0 set, so it
    is never [EMPTY_SLOT]; forcing the bit changes no shift by one or more
    bits, so a key's bucket is the one its hash selects. *)
Theorem hash_tag_is_never_empty k s :
  1 <= s →
  Map.hash_ hash_of k ≠ Map.EMPTY_SLOT ∧
  0 < Map.hash_ hash_of k < 2 ^ 64 ∧
  Z.testbit (Map.hash_ hash_of k) 0 = true ∧
  Z.shiftr (Map.hash_ hash_of k) s = Z.shiftr (hash_of k) s.
Proof.
  intros Hs. pose proof (Map.hash__range hash_of hash_of_range k) as Hr.
  split_and!; try lia.
  - unfold Map.EMPTY_SLOT. lia.
  - unfold Map.hash_. rewrite Z.lor_spec. apply orb_true_r.
  - unfold Map.hash_. rewrite Z.shiftr_lor.
    replace (Z.shiftr 1 s) with 0; [apply Z.lor_0_r|].
    symmetry. rewrite Z.shiftr_div_pow2 by lia. apply Z.div_small.
    assert (2 ^ 1 <= 2 ^ s) by (apply Z.pow_le_mono_r; lia). lia.
Qed.

(** X6: a key that is not there.  On a well-formed map that holds no pair
    with the key, [try_erase] returns false and leaves the map and the
    store as they are, and [erase] dies. *)
Theorem erase_of_absent_key fuel (σ : store (Map.Slot K V)) m k :
  Map.wf hash_of σ m → (∀ v, ¬ Map.holds hash_of σ m k v) →
  (Z.to_nat (Map.capacity_ m) < fuel)%nat →
  Map.try_erase hash_of Must_Destruct stale_tag fuel m k σ = Done ((m, false), σ) ∧
  Map.erase hash_of Must_Destruct stale_tag fuel m k σ = Abort.
Proof.
  intros Hwf Hno Hfuel. split.
  - by apply Map.try_erase_miss.
  - by apply Map.erase_miss.
Qed.

(** X27: erasing a key whose slot the back-shift leaves alone.  On a
    well-formed map, when the slot after the slot of [k] is empty or holds
    an entry at its ideal index, [try_erase(k)] returns true and takes one
    off [length_], and [fix_up] moves nothing: the buffer differs from what
    it was only in the slot of [k], which holds no pair any more and whose
    tag is the one that a destroyed slot shows.  No other buffer is
    touched.  [erase(k)] returns the same map. *)
Theorem try_erase_leaves_destroyed_slot fuel (σ : store (Map.Slot K V)) m k v p :
  Map.wf hash_of σ m → 0 <= p < Map.capacity_ m →
  Map.slot_at (Map.buffer σ m) p = Map.new_slot hash_of k v →
  (¬ Map.occupied (Map.buffer σ m) (Map.advance m p) ∨
   Map.disp m (Map.buffer σ m) (Map.advance m p) = 0) →
  (Z.to_nat (Map.capacity_ m) < fuel)%nat →
  let m' := Map.mkMap (Map.data_ m) (Map.capacity_ m) (Map.length_ m - 1)
              (Map.usable_ m) (Map.shift_ m) in
  let σ' := <[Map.data_ m :=
               <[Z.to_nat p := Map.mkSlot (stale_tag (Map.hash_ hash_of k)) None]>
                 (Map.buffer σ m)]> σ in
  Map.try_erase hash_of Must_Destruct stale_tag fuel m k σ = Done ((m', true), σ') ∧
  Map.erase hash_of Must_Destruct stale_tag fuel m k σ = Done (m', σ') ∧
  Map.slot_at (Map.buffer σ' m') p = Map.mkSlot (stale_tag (Map.hash_ hash_of k)) None ∧
  (∀ j, 0 <= j → j ≠ p →
     Map.slot_at (Map.buffer σ' m') j = Map.slot_at (Map.buffer σ m) j) ∧
  ∀ q, q ≠ Map.data_ m → σ' !! q = σ !! q.
Proof.
  intros Hwf Hp Hs Hkeep Hfuel m' σ'.
  pose proof (Map.try_erase_kept hash_of Must_Destruct stale_tag hash_of_range
                fuel σ m k v p Hwf Hp Hs Hkeep Hfuel) as Hrun.
  pose proof Hwf as (_ & _ & Hlen & _).
  assert (Map.buffer σ' m'
          = <[Z.to_nat p := Map.mkSlot (stale_tag (Map.hash_ hash_of k)) None]>
              (Map.buffer σ m)) as Hbuf.
  { unfold Map.buffer at 1. subst σ' m'. simpl. by rewrite lookup_insert_eq. }
  split_and!.
  - exact Hrun.
  - unfold Map.erase, bind. by rewrite Hrun.
  - rewrite Hbuf, Map.slot_at_insert by lia. by rewrite Z.eqb_refl.
  - intros j Hj Hne. rewrite Hbuf, Map.slot_at_insert by lia.
    by replace (j =? p) with false by lia.
  - intros q Hq. subst σ'. by rewrite lookup_insert_ne.
Qed.

Section zeroed.
Hypothesis alloc_zeroed :
  ∀ σ n, alloc_cells σ n = replicate (Z.to_nat n) (Map.empty_slot : Map.Slot K V).

(** X3: insert, then look up.  After [insert(k, v)] on a well-formed map
    [try_get(k)] returns [v], whether the key was new or overwritten, and
    every other key is answered as before the insert. *)
Theorem insert_then_lookup fuel (σ : store (Map.Slot K V)) m k v :
  Map.wf hash_of σ m → Map.capacity_ m < 2 ^ 61 →
  (Z.to_nat (2 * Map.capacity_ m + 32) < fuel)%nat →
  ∃ m' placed σ', Map.insert hash_of fuel m k v σ = Done ((m', placed), σ') ∧
    Map.wf hash_of σ' m' ∧
    Map.try_get hash_of fuel m' k σ' = Done (Some v, σ') ∧
    Map.contains hash_of fuel m' k σ' = Done (true, σ') ∧
    Map.get hash_of fuel m' k σ' = Done (v, σ') ∧
    ∀ k', k' ≠ k →
      ∃ r, Map.try_get hash_of fuel m k' σ = Done (r, σ) ∧
           Map.try_get hash_of fuel m' k' σ' = Done (r, σ').
Proof.
  intros Hwf Hcap Hfuel. pose proof (wf_capacity_nonneg σ m Hwf) as Hc0.
  destruct (Map.insert_spec hash_of hash_of_range alloc_zeroed fuel σ m k v)
    as (m' & σ' & placed & Hrun & Hwf' & Hl' & Hc' & Hent); try done; [lia|].
  assert (Map.capacity_ m' <= 2 * Map.capacity_ m + 32) as Hcb.
  { rewrite Hc'. destruct (Map.full m), (Map.capacity_ m =? 0); lia. }
  assert (Map.try_get hash_of fuel m' k σ' = Done (Some v, σ')) as Hget.
  { apply Map.try_get_hit; try done; [|lia]. apply Hent. by left. }
  exists m', placed, σ'. split_and!; try done.
  - unfold Map.contains, bind. by rewrite Hget.
  - unfold Map.get, bind. by rewrite Hget.
  - intros k' Hk'. apply Map.try_get_same; try done; try lia.
    intros v'. rewrite Hent. split; [|by right]. by intros [[? _]|[_ ?]].
Qed.

(** X5: erasing a key whose slot the back-shift overwrites.  On a
    well-formed map whose pairs need no destructor, when the slot after the
    slot of [k] holds an entry away from its ideal index, [fix_up] assigns
    that entry to the slot of [k] (and so on along the run).  [try_erase(k)]
    then returns true, takes one off [length_], keeps the buffer and the
    capacity and leaves a well-formed map; afterwards the key is not found
    and every other key is answered as before.  [erase(k)] returns the same
    map. *)
Theorem try_erase_removes_key fuel (σ : store (Map.Slot K V)) m k v p :
  Map.wf hash_of σ m → 0 <= p < Map.capacity_ m →
  Map.slot_at (Map.buffer σ m) p = Map.new_slot hash_of k v →
  Map.occupied (Map.buffer σ m) (Map.advance m p) →
  Map.disp m (Map.buffer σ m) (Map.advance m p) ≠ 0 →
  (Z.to_nat (2 * Map.capacity_ m) < fuel)%nat →
  ∃ m' σ', Map.try_erase hash_of false stale_tag fuel m k σ = Done ((m', true), σ') ∧
    Map.erase hash_of false stale_tag fuel m k σ = Done (m', σ') ∧
    Map.wf hash_of σ' m' ∧
    Map.data_ m' = Map.data_ m ∧ Map.capacity_ m' = Map.capacity_ m ∧
    Map.length_ m' = Map.length_ m - 1 ∧
    Map.try_get hash_of fuel m' k σ' = Done (None, σ') ∧
    ∀ k', k' ≠ k →
      ∃ r, Map.try_get hash_of fuel m k' σ = Done (r, σ) ∧
           Map.try_get hash_of fuel m' k' σ' = Done (r, σ').
Proof.
  intros Hwf Hp Hs Hnext Hdnext Hfuel. pose proof (wf_capacity_nonneg σ m Hwf) as Hc0.
  destruct (Map.try_erase_hit hash_of false stale_tag hash_of_range fuel σ m k v p)
    as (σ' & Hrun & Hwf' & Hent); try done; [lia|].
  eexists _, σ'. split; [exact Hrun|]. split_and!; try done.
  - unfold Map.erase, bind. by rewrite Hrun.
  - apply Map.try_get_miss; try done; [|simpl; lia].
    intros v' Hv'. apply Hent in Hv' as [? _]. done.
  - intros k' Hk'. apply Map.try_get_same; try done; simpl; try lia.
    intros v'. rewrite Hent. split; [by intros [_ ?]|done].
Qed.

Lemma step_holds fuel (σ : store (Map.Slot K V)) m o :
  Map.wf hash_of σ m → Map.capacity_ m < 2 ^ 61 →
  (Z.to_nat (2 * Map.capacity_ m + 32) <= fuel)%nat →
  ∃ m' σ', Map.step hash_of fuel m o σ = Done (m', σ') ∧ Map.wf hash_of σ' m' ∧
    Map.length_ m' <= Map.length_ m + 1 ∧
    Map.capacity_ m' <= Z.max (Map.capacity_ m) (Z.max 32 (4 * (Map.length_ m + 1))) ∧
    ∀ k v, Map.holds hash_of σ' m' k v ↔
      match o with
      | Map.Insert k0 v0 => (k = k0 ∧ v = v0) ∨ (k ≠ k0 ∧ Map.holds hash_of σ m k v)
      end.
Proof.
  intros Hwf Hcap Hfuel. pose proof (wf_capacity_nonneg σ m Hwf) as Hc0.
  destruct (Map.step_spec hash_of hash_of_range alloc_zeroed fuel σ m o)
    as (m' & σ' & Hstep & Hwf' & Hl' & Hc'); try done.
  exists m', σ'. split_and!; try done.
  destruct o as [k0 v0]; simpl in Hstep.
  destruct (Map.insert_spec hash_of hash_of_range alloc_zeroed fuel σ m k0 v0)
    as (m1 & σ1 & pl & Hrun & _ & _ & _ & Hent); try done.
  unfold bind in Hstep. rewrite Hrun in Hstep. injection Hstep as <- <-. done.
Qed.

Lemma run_model fuel B : ∀ ops (σ : store (Map.Slot K V)) m (r : gmap K V),
  Map.wf hash_of σ m → (∀ k v, Map.holds hash_of σ m k v ↔ r !! k = Some v) →
  Map.capacity_ m <= B →
  Z.max 32 (4 * (Map.length_ m + Z.of_nat (List.length ops) + 1)) <= B → B < 2 ^ 61 →
  (Z.to_nat (2 * B + 32) <= fuel)%nat →
  ∃ m' σ', Map.run hash_of fuel ops m σ = Done (m', σ') ∧ Map.wf hash_of σ' m' ∧
    Map.capacity_ m' <= B ∧
    ∀ k v, Map.holds hash_of σ' m' k v ↔ model ops r !! k = Some v.
Proof.
  induction ops as [|o ops IH]; intros σ m r Hwf Hr Hcap Hlen HB Hfuel.
  { by exists m, σ. }
  simpl in Hlen. pose proof (wf_capacity_nonneg σ m Hwf) as Hc0.
  destruct (step_holds fuel σ m o) as (m1 & σ1 & Hstep & Hwf1 & Hl1 & Hc1 & Hent1);
    try done; try lia.
  destruct o as [k0 v0]; simpl.
  destruct (IH σ1 m1 (<[k0 := v0]> r)) as (m' & σ' & Hrun & Hwf' & Hcap' & Hent');
    try done; try lia.
  { intros k v. rewrite Hent1, Hr, lookup_insert. case_decide as Hk.
    - subst k0. split; [intros [[_ ->]|[? _]]; done|]. intros [= ->]. by left.
    - split; [intros [[-> _]|[_ ?]]; done|]. intros Hv. right. split; [congruence|done]. }
  exists m', σ'. unfold bind. simpl in Hstep. unfold bind in Hstep.
  destruct (Map.insert hash_of fuel m k0 v0 σ) as [[[m2 p2] σ2]| | |]; try done.
  simpl in Hstep. injection Hstep as -> ->. done.
Qed.

(** X1: the map against a reference.  Starting from a well-formed map that
    holds the pairs of the finite map [r], any sequence of inserts returns,
    and the table then holds exactly the pairs of the reference updated by
    the same inserts; [try_get] answers every key with the reference's
    lookup. *)
Theorem map_mirrors_reference fuel B ops (σ : store (Map.Slot K V)) m (r : gmap K V) :
  Map.wf hash_of σ m → (∀ k v, Map.holds hash_of σ m k v ↔ r !! k = Some v) →
  Map.capacity_ m <= B →
  Z.max 32 (4 * (Map.length_ m + Z.of_nat (List.length ops) + 1)) <= B → B < 2 ^ 61 →
  (Z.to_nat (2 * B + 32) <= fuel)%nat →
  ∃ m' σ', Map.run hash_of fuel ops m σ = Done (m', σ') ∧
    (∀ k v, Map.holds hash_of σ' m' k v ↔ model ops r !! k = Some v) ∧
    ∀ k, Map.try_get hash_of fuel m' k σ' = Done (model ops r !! k, σ').
Proof.
  intros Hwf Hr Hcap Hlen HB Hfuel.
  destruct (run_model fuel B ops σ m r) as (m' & σ' & Hrun & Hwf' & Hcap' & Hent');
    try done.
  exists m', σ'. split_and!; try done.
  intros k. pose proof (wf_capacity_nonneg σ' m' Hwf') as Hc0.
  destruct (model ops r !! k) as [v|] eqn:Hk.
  - apply Map.try_get_hit; try done; [by apply Hent'|lia].
  - apply Map.try_get_miss; try done; [|lia].
    intros v Hv. apply Hent' in Hv. congruence.
Qed.

(** X7: the load bound.  Starting from a well-formed map (capacity 0 or at
    least 4), after any sequence of inserts the number of entries is at
    most [length_], [length_] is at most [usable_ = (capacity_ / 4) * 3],
    and a table that has a buffer has an empty slot. *)
Theorem load_stays_below_usable fuel B ops (σ : store (Map.Slot K V)) m :
  Map.wf hash_of σ m → Map.capacity_ m <= B →
  Z.max 32 (4 * (Map.length_ m + Z.of_nat (List.length ops) + 1)) <= B → B < 2 ^ 61 →
  (Z.to_nat (2 * B + 32) <= fuel)%nat →
  ∃ m' σ', Map.run hash_of fuel ops m σ = Done (m', σ') ∧
    Z.of_nat (Map.occupancy (Map.buffer σ' m')) <= Map.length_ m' ∧
    Map.length_ m' <= Map.usable_ m' ∧
    Map.usable_ m' = Map.capacity_ m' / 4 * 3 ∧
    List.length (Map.buffer σ' m') = Z.to_nat (Map.capacity_ m') ∧
    (0 < Map.capacity_ m' →
       Map.usable_ m' < Map.capacity_ m' ∧
       ∃ e, 0 <= e < Map.capacity_ m' ∧ Map.tag (Map.buffer σ' m') e = Map.EMPTY_SLOT).
Proof.
  intros Hwf Hcap Hlen HB Hfuel.
  destruct (Map.run_spec hash_of hash_of_range alloc_zeroed fuel B ops σ m)
    as (m' & σ' & Hrun & Hwf'); try done.
  pose proof Hwf' as (_ & _ & Hbl & _ & _ & [Ho Hu] & _).
  pose proof (Map.wf_usable hash_of σ' m' Hwf') as Hus.
  exists m', σ'. split_and!; try done.
  intros Hpos. split.
  - rewrite Hus. Z.div_mod_to_equations. lia.
  - by apply (Map.wf_empty_slot hash_of).
Qed.

(** X8: [reserve] beyond the capacity.  The table is rebuilt in a fresh
    buffer of exactly the requested capacity (no rounding to a power of
    two), with [usable_ = (n / 4) * 3]; the old buffer is freed, the pairs
    held are the same and every key is answered as before. *)
Theorem reserve_rehashes_into_requested_capacity fuel
    (σ : store (Map.Slot K V)) m n :
  Map.wf hash_of σ m → Map.capacity_ m < n → 4 <= n < 2 ^ 62 →
  (Z.to_nat n < fuel)%nat →
  ∃ m' σ', Map.reserve fuel m n σ = Done (m', σ') ∧
    Map.wf hash_of σ' m' ∧
    Map.capacity_ m' = n ∧ Map.usable_ m' = n / 4 * 3 ∧
    Map.length_ m' = Map.length_ m ∧
    σ !! Map.data_ m' = None ∧ σ' !! Map.data_ m = None ∧
    (∀ k v, Map.holds hash_of σ' m' k v ↔ Map.holds hash_of σ m k v) ∧
    ∀ k, ∃ r, Map.try_get hash_of fuel m k σ = Done (r, σ) ∧
              Map.try_get hash_of fuel m' k σ' = Done (r, σ').
Proof.
  intros Hwf Hn Hn4 Hfuel. pose proof (wf_capacity_nonneg σ m Hwf) as Hc0.
  destruct (Map.reserve_spec hash_of hash_of_range alloc_zeroed fuel σ m n)
    as (m' & σ' & Hrun & Hwf' & Hc' & Hl' & Hu' & Hent); try done; [lia|].
  exists m', σ'. split_and!; try done.
  - revert Hrun. unfold Map.reserve. replace (n <=? Map.capacity_ m) with false by lia.
    unfold bind, alloc, ret, free. intros Hrun. unbind Hrun.
    injection Hrun as Hm Hσ. subst m'. simpl. apply alloc_addr_fresh.
  - revert Hrun. unfold Map.reserve. replace (n <=? Map.capacity_ m) with false by lia.
    unfold bind, alloc, ret, free. intros Hrun. unbind Hrun.
    injection Hrun as Hm Hσ. subst σ'. apply lookup_delete_eq.
  - intros k. apply Map.try_get_same; try done; lia.
Qed.

Lemma destroy_slots_spec (md : bool) : ∀ (n : nat) (cells : list (Map.Slot K V)) i,
  0 <= i → i + Z.of_nat n = Z.of_nat (List.length cells) →
  (∀ j, i <= j < Z.of_nat (List.length cells) →
     Map.slot_ok hash_of (Map.slot_at cells j)) →
  ∃ cells', Map.destroy_slots md stale_tag cells i n = Done cells' ∧
    List.length cells' = List.length cells ∧
    ∀ j, 0 <= j < Z.of_nat (List.length cells) →
      Map.slot_at cells' j =
        if j <? i then Map.slot_at cells j
        else Map.mkSlot (stale_tag (Map.hash (Map.slot_at cells j))) None.
Proof.
  induction n as [|n IH]; intros cells i Hi Hin Hok.
  { exists cells. split_and!; try done. intros j Hj. by replace (j <? i) with true by lia. }
  cbn [Map.destroy_slots]. rewrite Map.cell_at_Done by lia. cbn [rbind].
  assert (Map.destruct_slot md stale_tag (Map.slot_at cells i)
          = Done (Map.mkSlot (stale_tag (Map.hash (Map.slot_at cells i))) None)) as ->.
  { unfold Map.destruct_slot. destruct (Hok i ltac:(lia)) as [Hz|(k & v & Hs)].
    - by rewrite Hz, Z.eqb_refl, andb_false_r.
    - rewrite Hs. simpl. by destruct (md && _). }
  cbn [rbind]. rewrite Map.set_Done by lia. cbn [rbind].
  set (d := Map.mkSlot (stale_tag (Map.hash (Map.slot_at cells i))) None).
  destruct (IH (<[Z.to_nat i := d]> cells) (i + 1)) as (cells' & Hrun & Hlen' & Hslots).
  - lia.
  - rewrite length_insert. lia.
  - intros j Hj. rewrite length_insert in Hj. rewrite Map.slot_at_insert by lia.
    replace (j =? i) with false by lia. apply Hok. lia.
  - exists cells'. rewrite Hrun. split_and!; [done|by rewrite Hlen', length_insert|].
    intros j Hj. rewrite Hslots by (rewrite length_insert; lia).
    rewrite Map.slot_at_insert by lia.
    destruct (Z.eqb_spec j i) as [->|Hne].
    + replace (i <? i + 1) with true by lia. by replace (i <? i) with false by lia.
    + destruct (Z.ltb_spec j (i + 1)), (Z.ltb_spec j i); try lia; done.
Qed.

(** X9: [Map::clear] of pairs that need no destructor.  The map keeps its
    buffer, capacity, [usable_] and [shift_]; the [memset] makes every slot
    [EMPTY_SLOT] and [length_] becomes 0, so the map is well formed, holds
    nothing and answers every lookup with "absent"; no other buffer is
    touched. *)
Theorem clear_empties_every_slot (σ : store (Map.Slot K V)) m :
  Map.wf hash_of σ m →
  let m' := Map.mkMap (Map.data_ m) (Map.capacity_ m) 0 (Map.usable_ m) (Map.shift_ m) in
  ∃ σ', Map.clear false stale_tag m σ = Done (m', σ') ∧
    Map.wf hash_of σ' m' ∧
    Map.buffer σ' m' = replicate (Z.to_nat (Map.capacity_ m)) Map.empty_slot ∧
    (∀ k v, ¬ Map.holds hash_of σ' m' k v) ∧
    (∀ fuel k, Map.try_get hash_of fuel m' k σ' = Done (None, σ')) ∧
    ∀ q, q ≠ Map.data_ m → σ' !! q = σ !! q.
Proof.
  intros Hwf m'. pose proof Hwf as (Hnull & Hptr & Hlen & Hall & Hu & [Ho Hus] & Hcase).
  pose proof (wf_capacity_nonneg σ m Hwf) as Hc0.
  destruct (Map.empty_table_spec (V := V) hash_of hash_of_range m' (Z.to_nat (Map.capacity_ m)))
    as (Hall0 & Hrh0 & Hu0 & Hocc0 & Hent0).
  unfold Map.clear, Map.wipe.
  destruct (Z.eqb_spec (Map.capacity_ m) 0) as [Hz|Hnz].
  - exists σ. unfold bind, ret. fold m'.
    assert (Map.buffer σ m' = []) as Hbuf.
    { change (Map.buffer σ m') with (Map.buffer σ m).
      apply nil_length_inv. rewrite Hlen, Hz. done. }
    split_and!; try done.
    + unfold Map.wf. change (Map.buffer σ m') with (Map.buffer σ m). subst m'. simpl.
      split_and!; try done; try lia.
    + rewrite Hbuf, Hz. done.
    + intros k v (i & Hi & Hs). rewrite Hbuf in Hs. unfold Map.slot_at in Hs.
      rewrite lookup_nil in Hs. simpl in Hs. by apply Map.empty_not_new in Hs.
  - assert (0 < Map.capacity_ m) as Hpos by lia.
    pose proof (Map.wf_lookup hash_of σ m Hwf Hpos) as Hl.
    set (cells := replicate (Z.to_nat (Map.capacity_ m)) (Map.empty_slot : Map.Slot K V)).
    exists (<[Map.data_ m := cells]> σ).
    unfold bind at 1. unfold bind at 1. unfold load. rewrite Hl.
    replace (Map.capacity_ m <=? Z.of_nat (List.length (Map.buffer σ m))) with true by lia.
    unfold save. rewrite Hl.
    rewrite drop_ge by lia. rewrite app_nil_r. fold cells. unfold ret. fold m'.
    assert (List.length cells = List.length (Map.buffer σ m)) as Hlc.
    { subst cells. rewrite length_replicate. lia. }
    assert (Map.rh m cells) as Hrhc by (intros i Hi; by apply Hrh0).
    assert (Z.of_nat (Map.occupancy cells) <= 0 <= Map.usable_ m) as Hoc.
    { subst cells. rewrite Hocc0. simpl. lia. }
    destruct (Map.saved_wf hash_of σ m cells 0 Hwf Hpos Hlc Hall0 Hu0 Hrhc Hoc)
      as (Hwf' & Hbuf').
    fold m' in Hwf', Hbuf'.
    split_and!; try done.
    + intros k v. unfold Map.holds. rewrite Hbuf'. apply Hent0.
    + intros q Hq. by rewrite lookup_insert_ne.
Qed.

(** X26: [Map::clear] of pairs that need a destructor.  Every slot is
    destroyed and nothing else is written: the map keeps its buffer,
    capacity, [usable_] and [shift_], [length_] becomes 0, and every lookup
    answers "absent" because [length_] is 0; no other buffer is touched.
    No slot holds a pair any more, and the tag of each slot is the one that
    a destroyed slot shows: [EMPTY_SLOT] only if the store made by
    [~Slot()] is kept. *)
Theorem clear_destroys_every_slot (σ : store (Map.Slot K V)) m :
  Map.wf hash_of σ m →
  let m' := Map.mkMap (Map.data_ m) (Map.capacity_ m) 0 (Map.usable_ m) (Map.shift_ m) in
  ∃ σ', Map.clear true stale_tag m σ = Done (m', σ') ∧
    List.length (Map.buffer σ' m') = Z.to_nat (Map.capacity_ m) ∧
    (∀ j, 0 <= j < Map.capacity_ m →
       Map.slot_at (Map.buffer σ' m') j
       = Map.mkSlot (stale_tag (Map.tag (Map.buffer σ m) j)) None) ∧
    (∀ fuel k, Map.try_get hash_of fuel m' k σ' = Done (None, σ')) ∧
    ∀ q, q ≠ Map.data_ m → σ' !! q = σ !! q.
Proof.
  intros Hwf m'. pose proof Hwf as (Hnull & Hptr & Hlen & Hall & Hu & [Ho Hus] & Hcase).
  pose proof (wf_capacity_nonneg σ m Hwf) as Hc0.
  unfold Map.clear.
  destruct (Z.eqb_spec (Map.capacity_ m) 0) as [Hz|Hnz].
  - exists σ. unfold bind, ret. fold m'. split_and!; try done. intros j Hj. lia.
  - assert (0 < Map.capacity_ m) as Hpos by lia.
    pose proof (Map.wf_lookup hash_of σ m Hwf Hpos) as Hl.
    destruct (destroy_slots_spec true (Z.to_nat (Map.capacity_ m)) (Map.buffer σ m) 0)
      as (cells' & Hrun & Hlen' & Hslots); [lia|lia| |].
    { intros j Hj. by apply Map.slot_at_ok. }
    exists (<[Map.data_ m := cells']> σ).
    unfold bind at 1. unfold bind at 1. unfold load. rewrite Hl.
    unfold bind at 1, lift. rewrite Hrun.
    unfold save. rewrite Hl. unfold ret. fold m'.
    assert (Map.buffer (<[Map.data_ m := cells']> σ) m' = cells') as Hbuf'.
    { unfold Map.buffer. subst m'. simpl. by rewrite lookup_insert_eq. }
    split_and!; try done.
    + rewrite Hbuf', Hlen'. done.
    + intros j Hj. rewrite Hbuf', Hslots by lia.
      by replace (j <? 0) with false by lia.
    + intros q Hq. by rewrite lookup_insert_ne.
Qed.

(** X10: [~Map()].  The destructor returns, leaves the all-zero map, frees the
    map's buffer and touches no other buffer. *)
Theorem map_destructor_releases_buffer (σ : store (Map.Slot K V)) m :
  Map.wf hash_of σ m →
  ∃ σ', Map.destructor Must_Destruct m σ = Done (Map.mkMap 0 0 0 0 0, σ') ∧
    σ' !! Map.data_ m = None ∧
    ∀ q, q ≠ Map.data_ m → σ' !! q = σ !! q.
Proof.
  intros Hwf. pose proof Hwf as (_ & _ & Hlen & _).
  pose proof (wf_capacity_nonneg σ m Hwf) as Hc0.
  assert (Map.destructible σ m) as Hd.
  { destruct (Z.eq_dec (Map.capacity_ m) 0) as [Hz|Hnz]; [by left|right].
    exists (Map.buffer σ m). split; [apply (Map.wf_lookup hash_of); [done|lia]|lia]. }
  destruct (Map.destructor_Done Must_Destruct σ m Hd) as (σ' & Hrun & Hframe).
  exists σ'. split_and!; try done.
  by eapply Map.destructor_frees.
Qed.

Lemma copy_slots_Done : ∀ (n : nat) (src dst : list (Map.Slot K V)) i,
  0 <= i → i + Z.of_nat n <= Z.of_nat (List.length src) →
  List.length dst = List.length src →
  ∃ dst', Map.copy_slots Done src dst i n = Done dst' ∧
    List.length dst' = List.length src ∧
    ∀ j : nat, dst' !! j =
      if decide (i <= Z.of_nat j < i + Z.of_nat n) then src !! j else dst !! j.
Proof.
  induction n as [|n IH]; intros src dst i Hi Hn Hlen.
  { exists dst. split_and!; try done. intros j. case_decide; [lia|done]. }
  simpl. rewrite Map.cell_at_Done by lia. simpl.
  rewrite Map.set_Done by lia. simpl.
  destruct (IH src (<[Z.to_nat i := Map.slot_at src i]> dst) (i + 1))
    as (dst' & Hrun & Hlen' & Hlook); try lia.
  { by rewrite length_insert. }
  exists dst'. split_and!; try done.
  intros j. rewrite Hlook. destruct (decide (j = Z.to_nat i)) as [->|Hne].
  - rewrite decide_False by lia. rewrite decide_True by lia.
    rewrite list_lookup_insert_eq by lia. unfold Map.slot_at.
    destruct (src !! Z.to_nat i) eqn:Hs; [done|].
    apply lookup_ge_None in Hs. lia.
  - rewrite list_lookup_insert_ne by done. repeat case_decide; try lia; done.
Qed.

(** X11: [Map::clone] of trivial keys and values.  When the capacity is a
    power of two, the clone is the [memcpy] of the whole table into a buffer
    of its own, whatever the allocator left in it: the clone has the fields
    and the slots of the original, holds the same pairs and answers every
    key as the original does; the original and every other buffer are
    untouched. *)
Theorem clone_of_trivial_map_copies_table (σ : store (Map.Slot K V)) m :
  Map.wf hash_of σ m → next_pow2 (Map.capacity_ m) = Map.capacity_ m →
  ∃ c σ', Map.clone hash_of true m σ = Done (c, σ') ∧
    Map.wf hash_of σ' c ∧
    Map.capacity_ c = Map.capacity_ m ∧ Map.length_ c = Map.length_ m ∧
    Map.usable_ c = Map.usable_ m ∧ Map.shift_ c = Map.shift_ m ∧
    Map.data_ c ≠ Map.data_ m ∧ σ !! Map.data_ c = None ∧
    Map.buffer σ' c = Map.buffer σ m ∧
    (∀ q, q ≠ Map.data_ c → σ' !! q = σ !! q) ∧
    (∀ k v, Map.holds hash_of σ' c k v ↔ Map.holds hash_of σ m k v) ∧
    ∀ fuel k, (Z.to_nat (Map.capacity_ m) < fuel)%nat →
      ∃ r, Map.try_get hash_of fuel m k σ = Done (r, σ) ∧
           Map.try_get hash_of fuel c k σ' = Done (r, σ').
Proof.
  intros Hwf Hp2. pose proof Hwf as (Hnull & Hptr & Hlen & Hall & Hu & Hocc & Hcase).
  assert (Map.capacity_ m ≠ 0) as Hnz.
  { intros Hz. rewrite Hz in Hp2. vm_compute in Hp2. discriminate. }
  destruct Hcase as [[? _]|(Hcap & Hus & Hsh & Hrh)]; [done|].
  set (cap := Map.capacity_ m) in *. set (p := alloc_addr σ cap).
  set (c := Map.mkMap p cap (Map.length_ m) (Map.usable_ m) (Map.shift_ m)).
  set (cells := Map.buffer σ m) in *.
  pose proof (Map.wf_fresh hash_of σ m cap Hwf) as Hfresh. fold p in Hfresh.
  pose proof (Map.wf_lookup hash_of σ m Hwf ltac:(lia)) as Hl. fold cells in Hl.
  destruct (copy_slots_Done (Z.to_nat cap) cells (alloc_cells σ cap) 0)
    as (dst & Hcopy & Hlen' & Hlook); try lia.
  { rewrite alloc_cells_length. lia. }
  assert (dst = cells) as ->.
  { apply list_eq. intros j. rewrite Hlook. case_decide as Hj; [done|].
    rewrite (lookup_ge_None_2 cells) by lia.
    apply lookup_ge_None_2. rewrite alloc_cells_length. lia. }
  assert (Map.clone hash_of true m σ = Done (c, <[p := cells]> σ)) as Hrun.
  { unfold Map.clone, Map.new. fold cap. rewrite Hp2.
    unfold bind at 1. unfold bind at 1. unfold alloc at 1. fold p. unfold ret at 1.
    simpl. replace (cap =? 0) with false by lia.
    unfold bind at 1, load at 1. rewrite lookup_insert_ne by done. rewrite Hl.
    unfold bind at 1, load at 1. rewrite lookup_insert_eq.
    unfold bind at 1, lift. rewrite Hcopy.
    unfold bind at 1, save at 1. rewrite lookup_insert_eq.
    unfold ret. rewrite insert_insert_eq. subst c. repeat f_equal.
    - rewrite Hus. apply u64_small. Z.div_mod_to_equations. lia.
    - done. }
  assert (Map.buffer (<[p := cells]> σ) c = cells) as Hbuf.
  { unfold Map.buffer. simpl. by rewrite lookup_insert_eq. }
  assert (Map.wf hash_of (<[p := cells]> σ) c) as Hwf'.
  { unfold Map.wf. rewrite Hbuf. simpl.
    split; [|split; [|split; [|split; [|split; [|split]]]]]; try done.
    - rewrite lookup_insert_ne; [done|apply alloc_addr_nonnull].
    - right. rewrite lookup_insert_eq. eauto.
    - right. split_and!; try done; lia. }
  assert (∀ k v, Map.holds hash_of (<[p := cells]> σ) c k v ↔ Map.holds hash_of σ m k v)
    as Hent.
  { intros k v. unfold Map.holds. by rewrite Hbuf. }
  exists c, (<[p := cells]> σ). split_and!; try done.
  - apply alloc_addr_fresh.
  - intros q Hq. simpl in Hq. by rewrite lookup_insert_ne.
  - intros fuel k Hfuel. apply Map.try_get_same; try done.
Qed.

Lemma drop_slot (cells : list (Map.Slot K V)) c :
  0 <= c < Z.of_nat (List.length cells) →
  drop (Z.to_nat c) cells = Map.slot_at cells c :: drop (Z.to_nat (c + 1)) cells.
Proof.
  intros Hc. replace (Z.to_nat (c + 1)) with (S (Z.to_nat c)) by lia.
  apply drop_S. unfold Map.slot_at.
  destruct (cells !! Z.to_nat c) eqn:Hs; [done|].
  apply lookup_ge_None in Hs. lia.
Qed.

Lemma entries_cons (s : Map.Slot K V) cells :
  entries (s :: cells) =
    match (if Map.hash s =? Map.EMPTY_SLOT then None else Map.data s) with
    | Some kv => kv :: entries cells
    | None => entries cells
    end.
Proof. done. Qed.

Lemma skip_spec (m : Map.Map) (cells : list (Map.Slot K V)) fuel : ∀ c,
  List.length cells = Z.to_nat (Map.capacity_ m) → Map.capacity_ m < 2 ^ 62 →
  0 <= c <= Map.capacity_ m → (Z.to_nat (Map.capacity_ m - c) < fuel)%nat →
  ∃ c', skip fuel m cells c = Done c' ∧ c <= c' <= Map.capacity_ m ∧
    entries (drop (Z.to_nat c) cells) = entries (drop (Z.to_nat c') cells) ∧
    (c' < Map.capacity_ m → Map.tag cells c' ≠ 0).
Proof.
  induction fuel as [|fuel IH]; intros c Hlen Hcap Hc Hfuel; [lia|].
  simpl. destruct (Z.ltb_spec c (Map.capacity_ m)) as [Hlt|Hge].
  - rewrite Map.cell_at_Done by lia. simpl. unfold Map.EMPTY_SLOT.
    destruct (Z.eqb_spec (Map.hash (Map.slot_at cells c)) 0) as [Hz|Hnz].
    + rewrite u64_small by lia.
      destruct (IH (c + 1)) as (c' & Hrun & Hc' & Hent & Hocc); try done; try lia.
      exists c'. split_and!; try done; try lia.
      rewrite <- Hent, (drop_slot cells c) by lia. rewrite entries_cons.
      unfold Map.EMPTY_SLOT. rewrite Hz. done.
    + exists c. split_and!; try done; lia.
  - exists c. split_and!; try done; lia.
Qed.

Lemma visit_spec (m : Map.Map) (cells : list (Map.Slot K V)) fuel n : ∀ it,
  List.length cells = Z.to_nat (Map.capacity_ m) → Map.capacity_ m < 2 ^ 62 →
  Forall (Map.slot_ok hash_of) cells →
  0 <= it <= Map.capacity_ m → (it < Map.capacity_ m → Map.tag cells it ≠ 0) →
  (Z.to_nat (Map.capacity_ m - it) <= n)%nat → (Z.to_nat (Map.capacity_ m) < fuel)%nat →
  visit n fuel m cells it (Map.capacity_ m) = Done (entries (drop (Z.to_nat it) cells)).
Proof.
  revert n. induction n as [|n IH]; intros it Hlen Hcap Hall Hit Hocc Hn Hfuel.
  - simpl. replace (it =? Map.capacity_ m) with true by lia.
    rewrite drop_ge by lia. done.
  - simpl. destruct (Z.eqb_spec it (Map.capacity_ m)) as [->|Hne].
    { rewrite drop_ge by lia. done. }
    unfold deref. rewrite Map.cell_at_Done by lia. simpl.
    destruct (Map.slot_ok_occupied hash_of (Map.slot_at cells it)) as (k & v & Hs).
    { by apply Map.slot_at_ok. }
    { apply Hocc. lia. }
    rewrite Hs. simpl. unfold incr. rewrite u64_small by lia.
    destruct (skip_spec m cells fuel (it + 1)) as (c' & Hrun & Hc' & Hent & Hocc');
      try done; try lia.
    rewrite Hrun. simpl. rewrite IH; try done; try lia. simpl.
    rewrite (drop_slot cells it) by lia. rewrite entries_cons, Hs. simpl.
    rewrite Hent. replace (Map.hash_ hash_of k =? Map.EMPTY_SLOT) with false; [done|].
    pose proof (Map.hash__range hash_of hash_of_range k). unfold Map.EMPTY_SLOT. lia.
Qed.

Lemma entries_entry (cells : list (Map.Slot K V)) k v :
  Forall (Map.slot_ok hash_of) cells →
  (k, v) ∈ entries cells ↔ Map.entry hash_of cells k v.
Proof.
  intros Hall. unfold entries. rewrite list_elem_of_omap. split.
  - intros (s & Hs & Hf). apply list_elem_of_lookup in Hs as (i & Hi).
    exists (Z.of_nat i). split; [lia|]. unfold Map.slot_at. rewrite Nat2Z.id, Hi. simpl.
    destruct (Z.eqb_spec (Map.hash s) Map.EMPTY_SLOT) as [|Hnz]; [done|].
    rewrite Forall_lookup in Hall.
    destruct (Map.slot_ok_occupied hash_of s (Hall i s Hi) Hnz) as (k' & v' & ->).
    simpl in Hf. by injection Hf as -> ->.
  - intros (i & Hi & Hs). exists (Map.new_slot hash_of k v). split.
    + apply list_elem_of_lookup. exists (Z.to_nat i). unfold Map.slot_at in Hs.
      destruct (cells !! Z.to_nat i) as [s|]; simpl in Hs; [by subst|].
      by apply Map.empty_not_new in Hs.
    + simpl. replace (Map.hash_ hash_of k =? Map.EMPTY_SLOT) with false; [done|].
      pose proof (Map.hash__range hash_of hash_of_range k). unfold Map.EMPTY_SLOT. lia.
Qed.

Lemma entries_length (cells : list (Map.Slot K V)) :
  Forall (Map.slot_ok hash_of) cells → List.length (entries cells) = Map.occupancy cells.
Proof.
  induction 1 as [|s cells Hs Hall IH]; [done|].
  rewrite Map.occupancy_cons, entries_cons.
  unfold Map.EMPTY_SLOT. destruct (Z.eqb_spec (Map.hash s) 0) as [Hz|Hnz].
  - rewrite Map.weight_empty by done. simpl. done.
  - rewrite Map.weight_occupied by done.
    destruct (Map.slot_ok_occupied hash_of s Hs Hnz) as (k & v & ->). simpl. by rewrite IH.
Qed.

Lemma entries_NoDup (cells : list (Map.Slot K V)) :
  Forall (Map.slot_ok hash_of) cells → Map.uniq hash_of cells →
  NoDup (entries cells).*1.
Proof.
  induction 1 as [|s cells Hs Hall IH]; intros Hu; [constructor|].
  assert (∀ i, 0 <= i → Map.slot_at (s :: cells) (i + 1) = Map.slot_at cells i) as Hshift.
  { intros i Hi. unfold Map.slot_at. by replace (Z.to_nat (i + 1)) with (S (Z.to_nat i)) by lia. }
  assert (Map.uniq hash_of cells) as Hu'.
  { intros i j k v v' Hi Hj Hsi Hsj.
    rewrite <- Hshift in Hsi, Hsj by done.
    pose proof (Hu (i + 1) (j + 1) k v v' ltac:(lia) ltac:(lia) Hsi Hsj). lia. }
  rewrite entries_cons.
  unfold Map.EMPTY_SLOT. destruct (Z.eqb_spec (Map.hash s) 0) as [Hz|Hnz]; [by apply IH|].
  destruct (Map.slot_ok_occupied hash_of s Hs Hnz) as (k & v & ->). simpl.
  constructor; [|by apply IH].
  intros Hin. apply list_elem_of_fmap in Hin as ([k' v'] & Hk & Hin). simpl in Hk. subst k'.
  apply entries_entry in Hin as (i & Hi & Hsi); [|done].
  rewrite <- Hshift in Hsi by done.
  pose proof (Hu 0 (i + 1) k v v' ltac:(lia) ltac:(lia) eq_refl Hsi). lia.
Qed.

(** X12: iteration.  Walking a well-formed map from [begin()] to [end()]
    returns, leaves the store alone and visits the pairs of the occupied
    slots in index order: every pair the map holds is visited, nothing else
    is, no key comes twice, and the number of pairs visited is the number of
    occupied slots. *)
Theorem iteration_visits_each_entry_once fuel (σ : store (Map.Slot K V)) m :
  Map.wf hash_of σ m → (Z.to_nat (Map.capacity_ m) < fuel)%nat →
  ∃ l, items fuel m σ = Done (l, σ) ∧
    l = entries (Map.buffer σ m) ∧
    (∀ k v, (k, v) ∈ l ↔ Map.holds hash_of σ m k v) ∧
    NoDup l.*1 ∧
    List.length l = Map.occupancy (Map.buffer σ m).
Proof.
  intros Hwf Hfuel. pose proof Hwf as (Hnull & Hptr & Hlen & Hall & Hu & Hocc & Hcase).
  pose proof (wf_capacity_nonneg σ m Hwf) as Hc0.
  assert (Map.capacity_ m < 2 ^ 62) as Hcap by (destruct Hcase as [[? _]|[? _]]; lia).
  exists (entries (Map.buffer σ m)). split_and!; try done.
  - assert ((if Map.capacity_ m =? 0 then ret [] else load (Map.data_ m)) σ
            = Done (Map.buffer σ m, σ)) as Hload.
    { destruct (Z.eqb_spec (Map.capacity_ m) 0) as [Hz|Hnz].
      - unfold ret. f_equal. f_equal. symmetry. apply nil_length_inv. rewrite Hlen, Hz. done.
      - apply Map.load_Done. apply (Map.wf_lookup hash_of); [done|lia]. }
    unfold items, bind. rewrite Hload. unfold lift, begin, end_, iterator.
    destruct (skip_spec m (Map.buffer σ m) fuel 0) as (c & Hrun & Hc & Hent & Hoc);
      try done; try lia.
    destruct (skip_spec m (Map.buffer σ m) fuel (Map.capacity_ m))
      as (c' & Hrun' & Hc' & _); try done; try lia.
    assert (c' = Map.capacity_ m) as -> by lia.
    rewrite Hrun, Hrun'. simpl.
    rewrite visit_spec; try done; try lia.
    by rewrite <- Hent.
  - intros k v. by apply entries_entry.
  - by apply entries_NoDup.
  - by apply entries_length.
Qed.

(** ** The reference that [insert] returns *)

Local Ltac split_ifs :=
  repeat match goal with
  | H : context [if ?a <=? ?b then _ else _] |- _ => destruct (Z.leb_spec a b)
  | H : context [if ?a =? ?b then _ else _] |- _ => destruct (Z.eqb_spec a b)
  | |- context [if ?a <=? ?b then _ else _] => destruct (Z.leb_spec a b)
  | |- context [if ?a =? ?b then _ else _] => destruct (Z.eqb_spec a b)
  end.

(** The probe of [insert_slot] writes between its starting index and the
    first empty slot only: a slot farther from the empty slot [e] than the
    starting index keeps its contents. *)
Lemma insert_slot_loop_frame fuel : ∀ m (cells : list (Map.Slot K V)) slot idx placement
    dist e cells' placed,
  Map.geom m → List.length cells = Z.to_nat (Map.capacity_ m) →
  0 <= idx < Map.capacity_ m → 0 <= e < Map.capacity_ m → Map.tag cells e = 0 →
  Map.insert_slot_loop fuel m cells slot idx placement dist = Done (cells', placed) →
  ∀ j, 0 <= j < Map.capacity_ m →
    Map.cdist (Map.capacity_ m) e idx < Map.cdist (Map.capacity_ m) e j →
    Map.slot_at cells' j = Map.slot_at cells j.
Proof.
  induction fuel as [|fuel IH];
    intros m cells slot idx placement dist e cells' placed Hg Hlen Hidx He Hempty Hrun j Hj Hfar;
    [done|].
  pose proof Hg as (Hcap & _ & _).
  assert (j ≠ idx) as Hji by (intros ->; lia).
  simpl in Hrun. rewrite Map.cell_at_Done in Hrun by lia. simpl in Hrun.
  fold (Map.tag cells idx) in Hrun. unfold Map.EMPTY_SLOT in Hrun.
  destruct (Z.eqb_spec (Map.tag cells idx) 0) as [Hz|Hnz].
  { rewrite Map.set_Done in Hrun by lia. simpl in Hrun. injection Hrun as <- <-.
    rewrite Map.slot_at_insert by lia. by replace (j =? idx) with false by lia. }
  assert (e ≠ idx) as Hne by (intros ->; done).
  assert (0 <= Map.advance m idx < Map.capacity_ m ∧
          Map.cdist (Map.capacity_ m) e (Map.advance m idx)
            < Map.cdist (Map.capacity_ m) e idx) as [Hadv Hless].
  { rewrite Map.advance_succ by lia. unfold Map.succ, Map.cdist in *. split_ifs; lia. }
  destruct (Map.same_entry (Map.slot_at cells idx) slot) as [same| | |]; try done.
  simpl in Hrun. destruct same.
  { rewrite Map.set_Done in Hrun by lia. simpl in Hrun. injection Hrun as <- <-.
    rewrite Map.slot_at_insert by lia. by replace (j =? idx) with false by lia. }
  rewrite Map.shr_Done in Hrun by done. simpl in Hrun.
  destruct (Map.distance m idx (Z.shiftr (Map.tag cells idx) (Map.shift_ m)) <? dist).
  - rewrite Map.set_Done in Hrun by lia. simpl in Hrun.
    assert (Map.cdist (Map.capacity_ m) e (Map.advance m idx)
            < Map.cdist (Map.capacity_ m) e j) as Hfar1 by lia.
    assert (List.length (<[Z.to_nat idx := Map.moved slot]> cells)
            = Z.to_nat (Map.capacity_ m)) as Hlen1 by by rewrite length_insert.
    assert (Map.tag (<[Z.to_nat idx := Map.moved slot]> cells) e = 0) as Hempty1.
    { rewrite Map.tag_insert by lia. by replace (e =? idx) with false by lia. }
    rewrite (IH _ _ _ _ _ _ e _ _ Hg Hlen1 Hadv He Hempty1 Hrun j Hj Hfar1).
    rewrite Map.slot_at_insert by lia. by replace (j =? idx) with false by lia.
  - assert (Map.cdist (Map.capacity_ m) e (Map.advance m idx)
            < Map.cdist (Map.capacity_ m) e j) as Hfar1 by lia.
    apply (IH _ _ _ _ _ _ e _ _ Hg Hlen Hadv He Hempty Hrun j Hj Hfar1).
Qed.

Lemma insert_slot_loop_placed fuel : ∀ m (cells : list (Map.Slot K V)) k v idx placement
    dist e cells' placed,
  Map.geom m → List.length cells = Z.to_nat (Map.capacity_ m) →
  Forall (Map.slot_ok hash_of) cells → 0 <= idx < Map.capacity_ m →
  Map.uniq hash_of cells → (∀ v', ¬ Map.entry hash_of cells k v') →
  0 <= e < Map.capacity_ m → Map.tag cells e = 0 →
  Map.insert_slot_loop fuel m cells (Map.new_slot hash_of k v) idx placement dist
    = Done (cells', placed) →
  match placement with
  | Some q => placed = q
  | None => 0 <= placed < Map.capacity_ m ∧
            Map.slot_at cells' placed = Map.new_slot hash_of k v
  end.
Proof.
  induction fuel as [|fuel IH];
    intros m cells k v idx placement dist e cells' placed Hg Hlen Hall Hidx Hu Hfresh
      He Hempty Hrun; [done|].
  pose proof Hg as (Hcap & _ & _).
  pose proof Hrun as Hrun0.
  simpl in Hrun. rewrite Map.cell_at_Done in Hrun by lia. simpl in Hrun.
  pose proof (Map.slot_at_ok hash_of cells idx Hall) as Hcur.
  fold (Map.tag cells idx) in Hrun. unfold Map.EMPTY_SLOT in Hrun.
  destruct (Z.eqb_spec (Map.tag cells idx) 0) as [Hz|Hnz].
  { rewrite Map.moved_new_slot in Hrun by done.
    rewrite Map.set_Done in Hrun by lia. simpl in Hrun.
    injection Hrun as <- <-. destruct placement as [q|]; [done|]. simpl.
    split; [lia|]. rewrite Map.slot_at_insert by lia. by rewrite Z.eqb_refl. }
  destruct (Map.slot_ok_occupied hash_of _ Hcur Hnz) as (kc & vc & Hcureq).
  rewrite Hcureq, Map.same_entry_new in Hrun. simpl in Hrun.
  case_bool_decide as Hsame.
  { destruct Hsame as [_ ->]. exfalso. apply (Hfresh vc). exists idx. split; [lia|done]. }
  rewrite Map.shr_Done in Hrun by done. simpl in Hrun.
  assert (e ≠ idx) as Hne by (intros ->; done).
  assert (0 <= Map.advance m idx < Map.capacity_ m ∧
          Map.cdist (Map.capacity_ m) e (Map.advance m idx)
            < Map.cdist (Map.capacity_ m) e idx) as [Hadv Hless].
  { rewrite Map.advance_succ by lia. unfold Map.succ, Map.cdist in *. split_ifs; lia. }
  assert (kc ≠ k) as Hkc.
  { intros ->. apply (Hfresh vc). exists idx. split; [lia|done]. }
  destruct (Map.distance m idx (Z.shiftr (Map.tag cells idx) (Map.shift_ m)) <? dist).
  - rewrite Map.moved_new_slot in Hrun by done.
    rewrite Map.set_Done in Hrun by lia. simpl in Hrun.
    rewrite Map.moved_occupied in Hrun by by apply Map.new_slot_occupied.
    assert (Map.tag (<[Z.to_nat idx := Map.new_slot hash_of k v]> cells) e = 0) as Hempty'.
    { rewrite Map.tag_insert by lia. by replace (e =? idx) with false by lia. }
    pose proof Hrun as Hplaced.
    eapply (IH _ _ _ _ _ _ _ e) in Hplaced; try done.
    + simpl in Hplaced. subst placed. destruct placement as [q|]; [done|]. simpl.
      split; [lia|].
      assert (List.length (<[Z.to_nat idx := Map.new_slot hash_of k v]> cells)
              = Z.to_nat (Map.capacity_ m)) as Hlen1 by by rewrite length_insert.
      rewrite (insert_slot_loop_frame _ _ _ _ _ _ _ e _ _ Hg Hlen1
                 Hadv He Hempty' Hrun idx Hidx Hless).
      rewrite Map.slot_at_insert by lia. by rewrite Z.eqb_refl.
    + by rewrite length_insert.
    + apply Map.Forall_ok_insert; [done|apply Map.new_slot_ok].
    + apply Map.uniq_insert; [lia|done|].
      intros i v' Hi _ Hs. apply (Hfresh v'). by exists i.
    + intros v' (i & Hi & Hs). rewrite Map.slot_at_insert in Hs by lia.
      destruct (Z.eqb_spec i idx) as [->|Hnei].
      * by apply Map.new_slot_inj in Hs as [-> _].
      * assert (i = idx); [|done]. eapply Hu; eauto. lia.
  - eapply (IH _ _ _ _ _ _ _ e) in Hrun; done.
Qed.

(** X4: the reference that [insert] returns.  The slot that the returned
    [V&] designates lies inside the table and holds the inserted key with
    the inserted value, whether the key was new, was overwritten, or was
    placed by evicting other entries. *)
Theorem insert_returns_slot_of_value fuel (σ : store (Map.Slot K V)) m k v :
  Map.wf hash_of σ m → Map.capacity_ m < 2 ^ 61 →
  (Z.to_nat (2 * Map.capacity_ m + 32) <= fuel)%nat →
  ∃ m' placed σ', Map.insert hash_of fuel m k v σ = Done ((m', placed), σ') ∧
    0 <= placed < Map.capacity_ m' ∧
    cell_at (Map.buffer σ' m') placed = Done (Map.new_slot hash_of k v) ∧
    (let! s := cell_at (Map.buffer σ' m') placed in Map.second s) = Done v.
Proof.
  intros Hwf Hcap Hfuel. pose proof (wf_capacity_nonneg σ m Hwf) as Hc0.
  destruct (Map.insert_spec hash_of hash_of_range alloc_zeroed fuel σ m k v)
    as (m' & σ' & placed & Hrun & Hwf' & _); try done.
  exists m', placed, σ'. split; [done|].
  assert (∃ m1 σ1, (if Map.full m then Map.grow fuel m else ret m) σ = Done (m1, σ1) ∧
            Map.wf hash_of σ1 m1 ∧ 0 < Map.capacity_ m1 ∧
            (Z.to_nat (Map.capacity_ m1) <= fuel)%nat)
    as (m1 & σ1 & Hgrow & Hwf1 & Hpos & Hfuel1).
  { unfold Map.full. destruct (Z.eqb_spec (Map.length_ m) (Map.usable_ m)) as [Hfull|Hnf].
    - destruct (Map.grow_spec hash_of hash_of_range alloc_zeroed fuel σ m)
        as (m1 & σ1 & ? & ? & Hc1 & ? & ? & ?); try done.
      exists m1, σ1. split_and!; try done.
      + rewrite Hc1. destruct (Z.eqb_spec (Map.capacity_ m) 0); lia.
      + rewrite Hc1. destruct (Z.eqb_spec (Map.capacity_ m) 0); lia.
    - exists m, σ. pose proof Hwf as (_ & _ & _ & _ & _ & Hocc & Hcase).
      split_and!; try done; [|lia].
      destruct Hcase as [[? ?]|[? _]]; lia. }
  pose proof Hwf1 as (_ & _ & Hlen & Hall & Hu & Hocc & Hcase).
  pose proof (Map.wf_geom hash_of _ _ Hwf1 Hpos) as Hg.
  pose proof (Map.wf_rh hash_of _ _ Hwf1 Hpos) as Hrh.
  pose proof (Map.wf_lookup hash_of _ _ Hwf1 Hpos) as Hl.
  assert (Map.capacity_ m1 < 2 ^ 62) as Hc62 by (destruct Hg as (? & _); lia).
  set (cells := Map.buffer σ1 m1) in *.
  assert (0 <= Map.ideal m1 (Map.hash_ hash_of k) < Map.capacity_ m1) as Hid.
  { apply Map.ideal_range; [done|]. pose proof (Map.hash__range hash_of hash_of_range k). lia. }
  revert Hrun. unfold Map.insert. unfold bind at 1. rewrite Hgrow.
  unfold bind at 1, Map.insert_slot. unfold bind at 1.
  rewrite Map.new_slot_hash, Map.shr_Done by done.
  simpl. unfold bind at 1. rewrite (Map.load_Done _ _ _ Hl).
  fold (Map.ideal m1 (Map.hash_ hash_of k)). unfold bind at 1. fold cells.
  destruct (Map.insert_slot_loop fuel m1 cells (Map.new_slot hash_of k v)
              (Map.ideal m1 (Map.hash_ hash_of k)) None 0)
    as [[cells' pl]| | |] eqn:Hloop; simpl; try done.
  unfold bind at 1. rewrite Map.save_Done by (rewrite Hl; eauto).
  unfold ret. intros [= <- <- <-].
  assert (Map.buffer (<[Map.data_ m1 := cells']> σ1)
            (Map.mkMap (Map.data_ m1) (Map.capacity_ m1) (u64 (Map.length_ m1 + 1))
               (Map.usable_ m1) (Map.shift_ m1)) = cells') as Hbuf.
  { unfold Map.buffer. simpl. by rewrite lookup_insert_eq. }
  rewrite Hbuf. simpl.
  assert (0 <= pl < Map.capacity_ m1 ∧ Map.slot_at cells' pl = Map.new_slot hash_of k v
          ∧ List.length cells' = List.length cells) as (Hpl & Hslot & Hlen').
  { destruct (Map.entry_dec hash_of hash_of_range cells k) as [[v0 Hold]|Hfresh].
    - destruct (Map.entry_index hash_of hash_of_range _ _ _ Hold) as (p & Hp & Hs).
      pose proof (Map.ideal_range m1 _ Hg (Map.tag_range hash_of hash_of_range cells p Hall))
        as Hidp.
      assert (0 <= Map.disp m1 cells p < Map.capacity_ m1) as Hdp.
      { unfold Map.disp. rewrite Map.distance_cdist by lia. unfold Map.cdist. split_ifs; lia. }
      assert (Map.tag cells p = Map.hash_ hash_of k) as Htag
        by (unfold Map.tag; by rewrite Hs).
      pose proof (Map.insert_slot_loop_hit hash_of hash_of_range m1 cells p k v0 v None
                    Hg Hlen Hall Hrh Hu ltac:(lia) Hs
                    (Z.to_nat (Map.disp m1 cells p)) fuel ltac:(lia) ltac:(lia)) as Hhit.
      rewrite Z2Nat.id, Z.sub_diag, (Map.back_disp hash_of), Htag in Hhit by (done || lia).
      rewrite Hhit in Hloop. injection Hloop as <- <-.
      split_and!; [lia|lia| |by rewrite length_insert].
      rewrite Map.slot_at_insert by lia. by rewrite Z.eqb_refl.
    - destruct (Map.wf_empty_slot hash_of σ1 m1 Hwf1 Hpos) as (e & He & Hempty).
      fold cells in Hempty.
      pose proof (insert_slot_loop_placed fuel m1 cells k v _ None 0 e cells' pl
                    Hg Hlen Hall Hid Hu Hfresh He Hempty Hloop) as [? ?].
      destruct (Map.insert_slot_loop_rh hash_of hash_of_range fuel m1 cells
                  (Map.new_slot hash_of k v) (Map.ideal m1 (Map.hash_ hash_of k)) None 0 e)
        as (cells2 & pl2 & Hrun2 & Hlen2 & _); try done.
      + eauto.
      + rewrite Map.new_slot_hash. by rewrite Map.distance_self.
      + by intros Ho.
      + unfold Map.cdist. split_ifs; lia.
      + unfold Map.cdist. split_ifs; lia.
      + rewrite Hrun2 in Hloop. injection Hloop as <- <-. done. }
  assert (cell_at cells' pl = Done (Map.new_slot hash_of k v)) as Hcell.
  { rewrite Map.cell_at_Done by lia. by rewrite Hslot. }
  split_and!; try done; try lia.
  by rewrite Hcell.
Qed.

Lemma insert_all_run fuel : ∀ (init : list (K * V)) m (σ : store (Map.Slot K V)),
  insert_all hash_of fuel init m σ
  = Map.run hash_of fuel ((λ kv, Map.Insert kv.1 kv.2) <$> init) m σ.
Proof.
  induction init as [|[k v] init IH]; intros m σ; [done|].
  simpl. unfold bind.
  destruct (Map.insert hash_of fuel m k v σ) as [[[m1 p1] σ1]| | |]; simpl; auto.
Qed.

Lemma model_inserts : ∀ (init : list (K * V)) (r : gmap K V),
  model ((λ kv, Map.Insert kv.1 kv.2) <$> init) r
  = foldl (λ r kv, <[kv.1 := kv.2]> r) r init.
Proof. induction init as [|[k v] init IH]; intros r; [done|]. simpl. apply IH. Qed.

(** X13: [explicit Map(Ss&&... init)].  The map built from a list of pairs
    answers every key with the value of the last pair that has the key,
    and with "absent" for a key of no pair. *)
Theorem map_of_pairs_holds_last_values fuel (σ : store (Map.Slot K V))
    (init : list (K * V)) :
  σ !! 0 = None → 4 * Z.of_nat (List.length init) + 32 < 2 ^ 61 →
  (Z.to_nat (8 * Z.of_nat (List.length init) + 100) <= fuel)%nat →
  ∃ m σ', of_pairs hash_of fuel init σ = Done (m, σ') ∧
    ∀ k, Map.try_get hash_of fuel m k σ'
         = Done (foldl (λ r kv, <[kv.1 := kv.2]> r) (∅ : gmap K V) init !! k, σ').
Proof.
  intros Hnull Hlen Hfuel.
  set (ops := (λ kv : K * V, Map.Insert kv.1 kv.2) <$> init).
  set (B := 4 * Z.of_nat (List.length init) + 32).
  assert (Map.wf hash_of σ Map.empty_map) as Hwf0 by by apply Map.wf_empty_map.
  assert (∀ k v, Map.holds hash_of σ Map.empty_map k v ↔ (∅ : gmap K V) !! k = Some v)
    as Hent0.
  { intros k v. rewrite lookup_empty. split; [|done].
    intros Hh.
    destruct (Map.holds_capacity hash_of hash_of_range σ Map.empty_map k v Hwf0 Hh)
      as [Hpos _].
    simpl in Hpos. lia. }
  assert (Map.capacity_ Map.empty_map <= B) as Hcb by (simpl; lia).
  assert (Z.max 32 (4 * (Map.length_ Map.empty_map + Z.of_nat (List.length ops) + 1)) <= B)
    as Hmax.
  { subst ops B. rewrite length_fmap. simpl. lia. }
  assert (B < 2 ^ 61) as HB by lia.
  assert (Z.to_nat (2 * B + 32) <= fuel)%nat as Hf by lia.
  destruct (run_model fuel B ops σ Map.empty_map ∅ Hwf0 Hent0 Hcb Hmax HB Hf)
    as (m & σ' & Hrun & Hwf' & Hcap' & Hent').
  exists m, σ'. unfold of_pairs. rewrite insert_all_run. split; [done|].
  intros k. rewrite <- model_inserts. fold ops.
  pose proof (wf_capacity_nonneg σ' m Hwf') as Hc0.
  destruct (model ops ∅ !! k) as [v|] eqn:Hk.
  - apply Map.try_get_hit; try done; [by apply Hent'|lia].
  - apply Map.try_get_miss; try done; [|lia].
    intros v Hv. apply Hent' in Hv. congruence.
Qed.

(** X24: [grow].  One call doubles the capacity (32 for a map without a
    buffer), recomputes [usable_ = (capacity_ / 4) * 3], which strictly
    increases, and keeps [length_] and the pairs held. *)
Theorem grow_doubles_capacity fuel (σ : store (Map.Slot K V)) m :
  Map.wf hash_of σ m → Map.capacity_ m < 2 ^ 61 →
  (Z.to_nat (2 * Map.capacity_ m + 32) <= fuel)%nat →
  ∃ m' σ', Map.grow fuel m σ = Done (m', σ') ∧ Map.wf hash_of σ' m' ∧
    Map.capacity_ m' = (if Map.capacity_ m =? 0 then 32 else 2 * Map.capacity_ m) ∧
    Map.usable_ m' = Map.capacity_ m' / 4 * 3 ∧ Map.usable_ m < Map.usable_ m' ∧
    Map.length_ m' = Map.length_ m ∧ Map.length_ m' < Map.usable_ m' ∧
    ∀ k v, Map.holds hash_of σ' m' k v ↔ Map.holds hash_of σ m k v.
Proof.
  intros Hwf Hcap Hfuel.
  destruct (Map.grow_spec hash_of hash_of_range alloc_zeroed fuel σ m)
    as (m' & σ' & Hrun & Hwf' & Hc' & Hl' & Hu' & Hent); try done.
  pose proof Hwf as (_ & _ & _ & _ & _ & [_ Hlu] & _).
  exists m', σ'. split_and!; try done.
  - by apply (Map.wf_usable hash_of σ').
  - lia.
Qed.

(** X25: [explicit Map(u64 capacity)] over zeroed memory.  When the rounded
    capacity is at least 4, the new map is well formed: its buffer is fresh,
    has [capacity_] slots, all [EMPTY_SLOT], it holds no pair, and the
    buffers that were live are untouched. *)
Theorem constructed_map_is_well_formed (σ : store (Map.Slot K V)) c :
  σ !! 0 = None → 4 <= next_pow2 c < 2 ^ 62 →
  ∃ m σ', Map.new c σ = Done (m, σ') ∧ Map.wf hash_of σ' m ∧
    Map.capacity_ m = next_pow2 c ∧ Map.length_ m = 0 ∧
    Map.usable_ m = next_pow2 c / 4 * 3 ∧
    σ !! Map.data_ m = None ∧
    Map.buffer σ' m = replicate (Z.to_nat (next_pow2 c)) Map.empty_slot ∧
    (∀ k v, ¬ Map.holds hash_of σ' m k v) ∧
    ∀ q, q ≠ Map.data_ m → σ' !! q = σ !! q.
Proof.
  intros Hnull Hc.
  destruct (Map.new_spec hash_of hash_of_range alloc_zeroed σ c Hnull Hc)
    as (m & σ' & Hrun & Hwf' & Hc' & Hl' & Hent).
  exists m, σ'. split_and!; try done.
  - rewrite <- Hc'. by apply (Map.wf_usable hash_of σ').
  - revert Hrun. unfold Map.new, bind, alloc, ret. intros [= <- <-]. simpl.
    apply alloc_addr_fresh.
  - revert Hrun. unfold Map.new, bind, alloc, ret. intros [= <- <-].
    unfold Map.buffer. simpl. by rewrite lookup_insert_eq, alloc_zeroed.
  - revert Hrun. unfold Map.new, bind, alloc, ret. intros [= <- <-]. simpl.
    intros q Hq. by rewrite lookup_insert_ne.
Qed.

End zeroed.

End map_properties.
End MapFacts.

(** * The further properties at concrete containers *)

Lemma ltb_asym (x y : Z) : (x <? y) = true → (y <? x) = false.
Proof. lia. Qed.

Lemma ltb_le_trans (x y z : Z) : (y <? x) = false → (z <? y) = false → (z <? x) = false.
Proof. lia. Qed.

(** A heap of three elements in a buffer of four cells, and a full heap. *)
Definition small_heap : Heap.Heap := Heap.mkHeap 1 3 4.
Definition small_store : store (option Z) := {[1 := [Some 1; Some 3; Some 2; None]]}.
Definition packed_heap : Heap.Heap := Heap.mkHeap 1 2 2.
Definition packed_store : store (option Z) := {[1 := [Some 1; Some 3]]}.

Lemma small_heap_wf : Heap.wf small_store small_heap.
Proof.
  unfold Heap.wf. split_and!; try done.
  - right. by eexists.
  - intros i Hi. simpl in Hi.
    assert (i = 0 ∨ i = 1 ∨ i = 2) as [->|[->| ->]] by lia; by eexists.
Qed.

Lemma small_heap_ordered : Heap.ordered Z.ltb small_store small_heap.
Proof.
  intros i Hi. simpl in Hi.
  assert (i = 1 ∨ i = 2) as [->| ->] by lia; intros x y [= <-] [= <-]; done.
Qed.

Lemma packed_heap_wf : Heap.wf packed_store packed_heap.
Proof.
  unfold Heap.wf. split_and!; try done.
  - right. by eexists.
  - intros i Hi. simpl in Hi.
    assert (i = 0 ∨ i = 1) as [->| ->] by lia; by eexists.
Qed.

Lemma packed_heap_ordered : Heap.ordered Z.ltb packed_store packed_heap.
Proof.
  intros i Hi. simpl in Hi.
  assert (i = 1) as -> by lia. intros x y [= <-] [= <-]. done.
Qed.

Lemma push_with_room_keeps_buffer_witness :
  ∃ h' σ', Heap.push (Allocator0 := heap_allocator) Z.ltb 8 small_heap 0 small_store
             = Done (h', σ') ∧
    Heap.wf σ' h' ∧ Heap.ordered Z.ltb σ' h' ∧
    Heap.data_ h' = Heap.data_ small_heap ∧ Heap.capacity_ h' = Heap.capacity_ small_heap ∧
    Heap.length_ h' = Heap.length_ small_heap + 1 ∧
    Heap.live σ' h' ≡ₚ Some 0 :: Heap.live small_store small_heap ∧
    ∀ q, q ≠ Heap.data_ small_heap → σ' !! q = small_store !! q.
Proof.
  apply (HeapFacts.push_with_room_keeps_buffer Z.ltb ltb_asym ltb_le_trans).
  - exact small_heap_wf.
  - exact small_heap_ordered.
  - simpl. lia.
  - simpl. lia.
  - simpl. lia.
Defined.

Lemma push_on_full_heap_reallocates_witness :
  ∃ h' σ', Heap.push (Allocator0 := heap_allocator) Z.ltb 8 packed_heap 0 packed_store
             = Done (h', σ') ∧
    Heap.wf σ' h' ∧ Heap.ordered Z.ltb σ' h' ∧
    Heap.capacity_ h' =
      (if Heap.capacity_ packed_heap =? 0 then 8 else 2 * Heap.capacity_ packed_heap) ∧
    Heap.length_ h' = Heap.length_ packed_heap + 1 ∧
    Heap.live σ' h' ≡ₚ Some 0 :: Heap.live packed_store packed_heap ∧
    Heap.data_ h' ≠ Heap.data_ packed_heap ∧ packed_store !! Heap.data_ h' = None ∧
    σ' !! Heap.data_ packed_heap = None ∧
    ∀ q, q ≠ Heap.data_ packed_heap → q ≠ Heap.data_ h' → σ' !! q = packed_store !! q.
Proof.
  apply (HeapFacts.push_on_full_heap_reallocates Z.ltb ltb_asym ltb_le_trans).
  - exact packed_heap_wf.
  - exact packed_heap_ordered.
  - reflexivity.
  - simpl. lia.
  - simpl. lia.
Defined.

Lemma pop_removes_what_top_returns_witness :
  ∃ x h' σ', Heap.top small_heap small_store = Done (x, small_store) ∧
    Heap.is_min Z.ltb x (Heap.live small_store small_heap) ∧
    Heap.pop Z.ltb false 8 small_heap small_store = Done (h', σ') ∧
    Heap.live small_store small_heap ≡ₚ Some x :: Heap.live σ' h' ∧
    Heap.wf σ' h' ∧ Heap.ordered Z.ltb σ' h' ∧
    Heap.length_ h' = Heap.length_ small_heap - 1 ∧
    Heap.data_ h' = Heap.data_ small_heap ∧ Heap.capacity_ h' = Heap.capacity_ small_heap ∧
    ∀ q, q ≠ Heap.data_ small_heap → is_Some (small_store !! q) → σ' !! q = small_store !! q.
Proof.
  apply (HeapFacts.pop_removes_what_top_returns Z.ltb false ltb_asym ltb_le_trans).
  - exact small_heap_wf.
  - exact small_heap_ordered.
  - simpl. lia.
  - simpl. lia.
Defined.

Lemma heap_reserve_keeps_elements_witness :
  ∃ h' σ', Heap.reserve (Allocator0 := heap_allocator) small_heap 10 small_store
             = Done (h', σ') ∧
    Heap.wf σ' h' ∧ Heap.length_ h' = Heap.length_ small_heap ∧
    Heap.capacity_ h' = Z.max (Heap.capacity_ small_heap) 10 ∧
    Heap.live σ' h' = Heap.live small_store small_heap ∧
    (Heap.ordered Z.ltb small_store small_heap → Heap.ordered Z.ltb σ' h') ∧
    (10 <= Heap.capacity_ small_heap → h' = small_heap ∧ σ' = small_store) ∧
    (Heap.capacity_ small_heap < 10 →
       small_store !! Heap.data_ h' = None ∧ σ' !! Heap.data_ small_heap = None ∧
       ∀ q, q ≠ Heap.data_ small_heap → q ≠ Heap.data_ h' → σ' !! q = small_store !! q).
Proof.
  apply (HeapFacts.heap_reserve_keeps_elements Z.ltb).
  - exact small_heap_wf.
  - lia.
Defined.

Lemma heap_clone_is_independent_copy_witness :
  ∃ c σ', Heap.clone (Allocator0 := heap_allocator) small_heap small_store = Done (c, σ') ∧
    Heap.wf σ' c ∧ Heap.length_ c = Heap.length_ small_heap ∧
    Heap.capacity_ c = Heap.capacity_ small_heap ∧
    Heap.live σ' c = Heap.live small_store small_heap ∧
    (Heap.ordered Z.ltb small_store small_heap → Heap.ordered Z.ltb σ' c) ∧
    Heap.data_ c ≠ Heap.data_ small_heap ∧ small_store !! Heap.data_ c = None ∧
    ∀ q, q ≠ Heap.data_ c → σ' !! q = small_store !! q.
Proof.
  apply (HeapFacts.heap_clone_is_independent_copy Z.ltb).
  exact small_heap_wf.
Defined.

Lemma heap_clear_keeps_buffer_witness :
  ∃ σ', Heap.clear true small_heap small_store
        = Done (Heap.mkHeap (Heap.data_ small_heap) 0 (Heap.capacity_ small_heap), σ') ∧
    Heap.wf σ' (Heap.mkHeap (Heap.data_ small_heap) 0 (Heap.capacity_ small_heap)) ∧
    Heap.live σ' (Heap.mkHeap (Heap.data_ small_heap) 0 (Heap.capacity_ small_heap)) = [] ∧
    (∀ q, q ≠ Heap.data_ small_heap → σ' !! q = small_store !! q) ∧
    drop (Z.to_nat (Heap.length_ small_heap)) (Heap.buffer σ' small_heap)
      = drop (Z.to_nat (Heap.length_ small_heap)) (Heap.buffer small_store small_heap) ∧
    (true = false → σ' = small_store).
Proof.
  apply (HeapFacts.heap_clear_keeps_buffer true).
  exact small_heap_wf.
Defined.

Lemma heap_destructor_releases_buffer_witness :
  ∃ σ', Heap.destructor true small_heap small_store = Done (Heap.mkHeap 0 0 0, σ') ∧
    σ' !! Heap.data_ small_heap = None ∧
    ∀ q, q ≠ Heap.data_ small_heap → σ' !! q = small_store !! q.
Proof.
  apply (HeapFacts.heap_destructor_releases_buffer true).
  exact small_heap_wf.
Defined.

Lemma heap_of_list_holds_arguments_witness :
  ∃ h σ', HeapFacts.of_list (Allocator0 := heap_allocator) Z.ltb 8 [5; 3; 8; 1] ∅
            = Done (h, σ') ∧
    Heap.wf σ' h ∧ Heap.ordered Z.ltb σ' h ∧
    Heap.length_ h = Z.of_nat (List.length [5; 3; 8; 1]) ∧
    Heap.capacity_ h = Z.of_nat (List.length [5; 3; 8; 1]) ∧
    Heap.live σ' h ≡ₚ Some <$> [5; 3; 8; 1] ∧
    ([5; 3; 8; 1] ≠ [] →
       ∃ m, Heap.top h σ' = Done (m, σ') ∧ m ∈ [5; 3; 8; 1] ∧
            ∀ y, y ∈ [5; 3; 8; 1] → (y <? m) = false) ∧
    ∀ q, is_Some ((∅ : store (option Z)) !! q) → σ' !! q = (∅ : store (option Z)) !! q.
Proof.
  apply (HeapFacts.heap_of_list_holds_arguments Z.ltb ltb_asym ltb_le_trans).
  - reflexivity.
  - simpl. lia.
  - simpl. lia.
Defined.

Lemma heap_new_serves_capacity_pushes_witness :
  ∃ h0 σ0 h σ', Heap.new (Allocator0 := heap_allocator) 4 ∅ = Done (h0, σ0) ∧
    Heap.length_ h0 = 0 ∧ Heap.capacity_ h0 = 4 ∧
    (∅ : store (option Z)) !! Heap.data_ h0 = None ∧
    HeapFacts.push_all (Allocator0 := heap_allocator) Z.ltb 8 [5; 3; 8] h0 σ0
      = Done (h, σ') ∧
    Heap.data_ h = Heap.data_ h0 ∧ Heap.capacity_ h = 4 ∧
    Heap.length_ h = Z.of_nat (List.length [5; 3; 8]) ∧
    Heap.wf σ' h ∧ Heap.ordered Z.ltb σ' h ∧
    Heap.live σ' h ≡ₚ Some <$> [5; 3; 8] ∧
    ∀ q, is_Some ((∅ : store (option Z)) !! q) → σ' !! q = (∅ : store (option Z)) !! q.
Proof.
  apply (HeapFacts.heap_new_serves_capacity_pushes Z.ltb ltb_asym ltb_le_trans).
  - reflexivity.
  - lia.
  - simpl. lia.
  - simpl. lia.
Defined.

(** The capacity-8 map [swap_map] in its store. *)
Definition swap_store : store (Map.Slot Z Z) := {[1 := swap_table]}.

Lemma swap_map_lacks_4 v : ¬ Map.holds id_hash swap_store swap_map 4 v.
Proof.
  intros (i & Hi & Hs).
  change (Map.buffer swap_store swap_map) with swap_table in Hs.
  unfold Map.slot_at in Hs. apply (f_equal Map.hash) in Hs.
  destruct (Z.to_nat i) as [|[|[|[|[|[|[|[|n]]]]]]]]; simpl in Hs; vm_compute in Hs;
    discriminate.
Qed.

Lemma empty_map_holds_nothing (k v : Z) :
  Map.holds id_hash (∅ : store (Map.Slot Z Z)) Map.empty_map k v ↔
  (∅ : gmap Z Z) !! k = Some v.
Proof.
  rewrite lookup_empty. split; [|done]. intros (i & Hi & Hs).
  change (Map.buffer ∅ Map.empty_map) with (@nil (Map.Slot Z Z)) in Hs.
  unfold Map.slot_at in Hs. rewrite lookup_nil in Hs.
  by apply (Map.empty_not_new id_hash id_hash_range) in Hs.
Qed.

Definition repeated_inserts : list (Map.op (K := Z) (V := Z)) :=
  [Map.Insert 0 10; Map.Insert 2 11; Map.Insert 0 12; Map.Insert (2 ^ 62) 13;
   Map.Insert 2 14].

Lemma map_mirrors_reference_witness :
  ∃ m' σ', Map.run (Allocator0 := zeroed Z Z) id_hash 160 repeated_inserts Map.empty_map ∅
             = Done (m', σ') ∧
    (∀ k v, Map.holds id_hash σ' m' k v ↔ MapFacts.model repeated_inserts ∅ !! k = Some v) ∧
    ∀ k, Map.try_get id_hash 160 m' k σ' = Done (MapFacts.model repeated_inserts ∅ !! k, σ').
Proof.
  apply (MapFacts.map_mirrors_reference id_hash id_hash_range (zeroed_cells Z Z) 160 64).
  - apply Map.wf_empty_map. reflexivity.
  - exact empty_map_holds_nothing.
  - simpl. lia.
  - simpl. lia.
  - lia.
  - simpl. lia.
Defined.

Lemma lookup_is_exact_witness :
  ∃ r, Map.try_get id_hash 9 swap_map 2 swap_store = Done (r, swap_store) ∧
    (∀ v, r = Some v ↔ Map.holds id_hash swap_store swap_map 2 v) ∧
    Map.contains id_hash 9 swap_map 2 swap_store = Done (bool_decide (is_Some r), swap_store) ∧
    Map.get id_hash 9 swap_map 2 swap_store
      = match r with Some v => Done (v, swap_store) | None => Abort end.
Proof.
  apply (MapFacts.lookup_is_exact id_hash id_hash_range).
  - exact swap_map_wf.
  - simpl. lia.
Defined.

Lemma insert_then_lookup_witness :
  ∃ m' placed σ', Map.insert (Allocator0 := zeroed Z Z) id_hash 64 swap_map 4 14 swap_store
                    = Done ((m', placed), σ') ∧
    Map.wf id_hash σ' m' ∧
    Map.try_get id_hash 64 m' 4 σ' = Done (Some 14, σ') ∧
    Map.contains id_hash 64 m' 4 σ' = Done (true, σ') ∧
    Map.get id_hash 64 m' 4 σ' = Done (14, σ') ∧
    ∀ k', k' ≠ 4 →
      ∃ r, Map.try_get id_hash 64 swap_map k' swap_store = Done (r, swap_store) ∧
           Map.try_get id_hash 64 m' k' σ' = Done (r, σ').
Proof.
  apply (MapFacts.insert_then_lookup id_hash id_hash_range (zeroed_cells Z Z)).
  - exact swap_map_wf.
  - simpl. lia.
  - simpl. lia.
Defined.

Lemma insert_returns_slot_of_value_witness :
  ∃ m' placed σ', Map.insert (Allocator0 := zeroed Z Z) id_hash 64 swap_map 4 14 swap_store
                    = Done ((m', placed), σ') ∧
    0 <= placed < Map.capacity_ m' ∧
    cell_at (Map.buffer σ' m') placed = Done (Map.new_slot id_hash 4 14) ∧
    (let! s := cell_at (Map.buffer σ' m') placed in Map.second s) = Done 14.
Proof.
  apply (MapFacts.insert_returns_slot_of_value id_hash id_hash_range (zeroed_cells Z Z)).
  - exact swap_map_wf.
  - simpl. lia.
  - simpl. lia.
Defined.

Lemma try_erase_removes_key_witness :
  ∃ m' σ', Map.try_erase id_hash false (λ tag, tag) 32 swap_map 0 swap_store
             = Done ((m', true), σ') ∧
    Map.erase id_hash false (λ tag, tag) 32 swap_map 0 swap_store = Done (m', σ') ∧
    Map.wf id_hash σ' m' ∧
    Map.data_ m' = Map.data_ swap_map ∧ Map.capacity_ m' = Map.capacity_ swap_map ∧
    Map.length_ m' = Map.length_ swap_map - 1 ∧
    Map.try_get id_hash 32 m' 0 σ' = Done (None, σ') ∧
    ∀ k', k' ≠ 0 →
      ∃ r, Map.try_get id_hash 32 swap_map k' swap_store = Done (r, swap_store) ∧
           Map.try_get id_hash 32 m' k' σ' = Done (r, σ').
Proof.
  apply (MapFacts.try_erase_removes_key id_hash (λ tag, tag) id_hash_range 32 swap_store
           swap_map 0 10 0).
  - exact swap_map_wf.
  - simpl. lia.
  - reflexivity.
  - vm_compute. discriminate.
  - vm_compute. discriminate.
  - simpl. lia.
Defined.

Lemma try_erase_leaves_destroyed_slot_witness :
  let m' := Map.mkMap (Map.data_ swap_map) (Map.capacity_ swap_map)
              (Map.length_ swap_map - 1) (Map.usable_ swap_map) (Map.shift_ swap_map) in
  let σ' := <[Map.data_ swap_map :=
               <[Z.to_nat 3 := Map.mkSlot (Map.hash_ id_hash (2 ^ 62 + 2)) None]>
                 (Map.buffer swap_store swap_map)]> swap_store in
  Map.try_erase id_hash false (λ tag, tag) 9 swap_map (2 ^ 62 + 2) swap_store
    = Done ((m', true), σ') ∧
  Map.erase id_hash false (λ tag, tag) 9 swap_map (2 ^ 62 + 2) swap_store = Done (m', σ') ∧
  Map.slot_at (Map.buffer σ' m') 3 = Map.mkSlot (Map.hash_ id_hash (2 ^ 62 + 2)) None ∧
  (∀ j, 0 <= j → j ≠ 3 →
     Map.slot_at (Map.buffer σ' m') j = Map.slot_at (Map.buffer swap_store swap_map) j) ∧
  ∀ q, q ≠ Map.data_ swap_map → σ' !! q = swap_store !! q.
Proof.
  apply (MapFacts.try_erase_leaves_destroyed_slot id_hash false (λ tag, tag) id_hash_range
           9 swap_store swap_map (2 ^ 62 + 2) 13 3).
  - exact swap_map_wf.
  - simpl. lia.
  - reflexivity.
  - left. intros Hocc. apply Hocc. reflexivity.
  - simpl. lia.
Defined.

Lemma erase_of_absent_key_witness :
  Map.try_erase id_hash false (λ tag, tag) 9 swap_map 4 swap_store
    = Done ((swap_map, false), swap_store) ∧
  Map.erase id_hash false (λ tag, tag) 9 swap_map 4 swap_store = Abort.
Proof.
  apply (MapFacts.erase_of_absent_key id_hash false (λ tag, tag) id_hash_range).
  - exact swap_map_wf.
  - exact swap_map_lacks_4.
  - simpl. lia.
Defined.

Lemma load_stays_below_usable_witness :
  ∃ m' σ', Map.run (Allocator0 := zeroed Z Z) id_hash 160 repeated_inserts swap_map swap_store
             = Done (m', σ') ∧
    Z.of_nat (Map.occupancy (Map.buffer σ' m')) <= Map.length_ m' ∧
    Map.length_ m' <= Map.usable_ m' ∧
    Map.usable_ m' = Map.capacity_ m' / 4 * 3 ∧
    List.length (Map.buffer σ' m') = Z.to_nat (Map.capacity_ m') ∧
    (0 < Map.capacity_ m' →
       Map.usable_ m' < Map.capacity_ m' ∧
       ∃ e, 0 <= e < Map.capacity_ m' ∧ Map.tag (Map.buffer σ' m') e = Map.EMPTY_SLOT).
Proof.
  apply (MapFacts.load_stays_below_usable id_hash id_hash_range (zeroed_cells Z Z) 160 64).
  - exact swap_map_wf.
  - simpl. lia.
  - simpl. lia.
  - lia.
  - simpl. lia.
Defined.

Lemma reserve_rehashes_into_requested_capacity_witness :
  ∃ m' σ', Map.reserve (Allocator0 := zeroed Z Z) 21 swap_map 20 swap_store = Done (m', σ') ∧
    Map.wf id_hash σ' m' ∧
    Map.capacity_ m' = 20 ∧ Map.usable_ m' = 20 / 4 * 3 ∧
    Map.length_ m' = Map.length_ swap_map ∧
    swap_store !! Map.data_ m' = None ∧ σ' !! Map.data_ swap_map = None ∧
    (∀ k v, Map.holds id_hash σ' m' k v ↔ Map.holds id_hash swap_store swap_map k v) ∧
    ∀ k, ∃ r, Map.try_get id_hash 21 swap_map k swap_store = Done (r, swap_store) ∧
              Map.try_get id_hash 21 m' k σ' = Done (r, σ').
Proof.
  apply (MapFacts.reserve_rehashes_into_requested_capacity id_hash id_hash_range
           (zeroed_cells Z Z)).
  - exact swap_map_wf.
  - simpl. lia.
  - lia.
  - simpl. lia.
Defined.

Lemma clear_empties_every_slot_witness :
  let m' := Map.mkMap (Map.data_ swap_map) (Map.capacity_ swap_map) 0
              (Map.usable_ swap_map) (Map.shift_ swap_map) in
  ∃ σ', Map.clear false (λ tag, tag) swap_map swap_store = Done (m', σ') ∧
    Map.wf id_hash σ' m' ∧
    Map.buffer σ' m' = replicate (Z.to_nat (Map.capacity_ swap_map)) Map.empty_slot ∧
    (∀ k v, ¬ Map.holds id_hash σ' m' k v) ∧
    (∀ fuel k, Map.try_get id_hash fuel m' k σ' = Done (None, σ')) ∧
    ∀ q, q ≠ Map.data_ swap_map → σ' !! q = swap_store !! q.
Proof.
  apply (MapFacts.clear_empties_every_slot id_hash (λ tag, tag) id_hash_range).
  exact swap_map_wf.
Defined.

Lemma clear_destroys_every_slot_witness :
  let m' := Map.mkMap (Map.data_ swap_map) (Map.capacity_ swap_map) 0
              (Map.usable_ swap_map) (Map.shift_ swap_map) in
  ∃ σ', Map.clear true (λ tag, tag) swap_map swap_store = Done (m', σ') ∧
    List.length (Map.buffer σ' m') = Z.to_nat (Map.capacity_ swap_map) ∧
    (∀ j, 0 <= j < Map.capacity_ swap_map →
       Map.slot_at (Map.buffer σ' m') j
       = Map.mkSlot (Map.tag (Map.buffer swap_store swap_map) j) None) ∧
    (∀ fuel k, Map.try_get id_hash fuel m' k σ' = Done (None, σ')) ∧
    ∀ q, q ≠ Map.data_ swap_map → σ' !! q = swap_store !! q.
Proof.
  apply (MapFacts.clear_destroys_every_slot id_hash (λ tag, tag)).
  exact swap_map_wf.
Defined.

Lemma map_destructor_releases_buffer_witness :
  ∃ σ', Map.destructor true swap_map swap_store = Done (Map.mkMap 0 0 0 0 0, σ') ∧
    σ' !! Map.data_ swap_map = None ∧
    ∀ q, q ≠ Map.data_ swap_map → σ' !! q = swap_store !! q.
Proof.
  apply (MapFacts.map_destructor_releases_buffer id_hash true).
  exact swap_map_wf.
Defined.

Lemma clone_of_trivial_map_copies_table_witness :
  ∃ c σ', Map.clone (Allocator0 := stale) id_hash true swap_map swap_store = Done (c, σ') ∧
    Map.wf id_hash σ' c ∧
    Map.capacity_ c = Map.capacity_ swap_map ∧ Map.length_ c = Map.length_ swap_map ∧
    Map.usable_ c = Map.usable_ swap_map ∧ Map.shift_ c = Map.shift_ swap_map ∧
    Map.data_ c ≠ Map.data_ swap_map ∧ swap_store !! Map.data_ c = None ∧
    Map.buffer σ' c = Map.buffer swap_store swap_map ∧
    (∀ q, q ≠ Map.data_ c → σ' !! q = swap_store !! q) ∧
    (∀ k v, Map.holds id_hash σ' c k v ↔ Map.holds id_hash swap_store swap_map k v) ∧
    ∀ fuel k, (Z.to_nat (Map.capacity_ swap_map) < fuel)%nat →
      ∃ r, Map.try_get id_hash fuel swap_map k swap_store = Done (r, swap_store) ∧
           Map.try_get id_hash fuel c k σ' = Done (r, σ').
Proof.
  apply (MapFacts.clone_of_trivial_map_copies_table id_hash id_hash_range).
  - exact swap_map_wf.
  - reflexivity.
Defined.

Lemma iteration_visits_each_entry_once_witness :
  ∃ l, MapFacts.items 9 swap_map swap_store = Done (l, swap_store) ∧
    l = MapFacts.entries (Map.buffer swap_store swap_map) ∧
    (∀ k v, (k, v) ∈ l ↔ Map.holds id_hash swap_store swap_map k v) ∧
    NoDup l.*1 ∧
    List.length l = Map.occupancy (Map.buffer swap_store swap_map).
Proof.
  apply (MapFacts.iteration_visits_each_entry_once id_hash id_hash_range).
  - exact swap_map_wf.
  - simpl. lia.
Defined.

Lemma map_of_pairs_holds_last_values_witness :
  ∃ m σ', MapFacts.of_pairs (Allocator0 := zeroed Z Z) id_hash 200
            [(0, 10); (2, 11); (0, 12)] ∅ = Done (m, σ') ∧
    ∀ k, Map.try_get id_hash 200 m k σ'
         = Done (foldl (λ r kv, <[kv.1 := kv.2]> r) (∅ : gmap Z Z)
                   [(0, 10); (2, 11); (0, 12)] !! k, σ').
Proof.
  apply (MapFacts.map_of_pairs_holds_last_values id_hash id_hash_range (zeroed_cells Z Z)).
  - reflexivity.
  - simpl. lia.
  - simpl. lia.
Defined.

Lemma hash_tag_is_never_empty_witness :
  Map.hash_ id_hash 6 ≠ Map.EMPTY_SLOT ∧
  0 < Map.hash_ id_hash 6 < 2 ^ 64 ∧
  Z.testbit (Map.hash_ id_hash 6) 0 = true ∧
  Z.shiftr (Map.hash_ id_hash 6) 61 = Z.shiftr (id_hash 6) 61.
Proof.
  apply (MapFacts.hash_tag_is_never_empty id_hash id_hash_range).
  lia.
Defined.

Lemma grow_doubles_capacity_witness :
  ∃ m' σ', Map.grow (Allocator0 := zeroed Z Z) 64 swap_map swap_store = Done (m', σ') ∧
    Map.wf id_hash σ' m' ∧
    Map.capacity_ m' =
      (if Map.capacity_ swap_map =? 0 then 32 else 2 * Map.capacity_ swap_map) ∧
    Map.usable_ m' = Map.capacity_ m' / 4 * 3 ∧ Map.usable_ swap_map < Map.usable_ m' ∧
    Map.length_ m' = Map.length_ swap_map ∧ Map.length_ m' < Map.usable_ m' ∧
    ∀ k v, Map.holds id_hash σ' m' k v ↔ Map.holds id_hash swap_store swap_map k v.
Proof.
  apply (MapFacts.grow_doubles_capacity id_hash id_hash_range (zeroed_cells Z Z)).
  - exact swap_map_wf.
  - simpl. lia.
  - simpl. lia.
Defined.

Lemma constructed_map_is_well_formed_witness :
  ∃ m σ', Map.new (Allocator0 := zeroed Z Z) 8 ∅ = Done (m, σ') ∧ Map.wf id_hash σ' m ∧
    Map.capacity_ m = next_pow2 8 ∧ Map.length_ m = 0 ∧
    Map.usable_ m = next_pow2 8 / 4 * 3 ∧
    (∅ : store (Map.Slot Z Z)) !! Map.data_ m = None ∧
    Map.buffer σ' m = replicate (Z.to_nat (next_pow2 8)) Map.empty_slot ∧
    (∀ k v, ¬ Map.holds id_hash σ' m k v) ∧
    ∀ q, q ≠ Map.data_ m → σ' !! q = (∅ : store (Map.Slot Z Z)) !! q.
Proof.
  apply (MapFacts.constructed_map_is_well_formed id_hash id_hash_range (zeroed_cells Z Z)).
  - reflexivity.
  - change (next_pow2 8) with 8. lia.
Defined.
